(** * DFA identification: the SAT encoding core ([dfa_identify/encoding.py])

    A shallow embedding of the variable codec, the clause generators, the two
    symmetry-breaking extensions and the trial driver, followed by the
    properties of the encoding.

    Python integers are unbounded, so every index, literal and count is a [Z];
    [//] and [%] are floor division and its remainder, which is what [Z.div]
    and [Z.modulo] compute (for a non-zero divisor).  A Python exception is
    the [Raise] branch of [result]. *)

From Stdlib Require Import ZArith List Lia Bool String.
Import ListNotations.
Open Scope string_scope.
Open Scope list_scope.
Open Scope Z_scope.

(** ** Exceptions and the error monad *)

Inductive exn : Type :=
| AssertionError (msg : string)
| ZeroDivisionError
| IndexError
| KeyError
| ValueError
| TypeError.

Inductive result (A : Type) : Type :=
| Ok (a : A)
| Raise (e : exn).
Arguments Ok {A} a.
Arguments Raise {A} e.

Definition bind {A B : Type} (m : result A) (k : A -> result B) : result B :=
  match m with
  | Ok a => k a
  | Raise e => Raise e
  end.

Notation "x <- m ;; k" := (bind m (fun x => k))
  (at level 61, m at next level, right associativity).

(** [assert cond, msg] *)
Definition assert (cond : bool) (msg : string) : result unit :=
  if cond then Ok tt else Raise (AssertionError msg).

(** A loop that collects one value per element: [[f(x) for x in l]]. *)
Fixpoint mapM {A B : Type} (f : A -> result B) (l : list A) : result (list B) :=
  match l with
  | [] => Ok []
  | x :: rest =>
      y <- f x ;;
      ys <- mapM f rest ;;
      Ok (y :: ys)
  end.

(** A loop whose body yields several values: [for x in l: yield from f(x)]. *)
Fixpoint flat_mapM {A B : Type} (f : A -> result (list B)) (l : list A)
  : result (list B) :=
  match l with
  | [] => Ok []
  | x :: rest =>
      ys <- f x ;;
      zs <- flat_mapM f rest ;;
      Ok (ys ++ zs)
  end.

(** [range(lo, hi)] and [range(hi)]. *)
Definition range2 (lo hi : Z) : list Z :=
  map (fun i => lo + Z.of_nat i) (seq 0 (Z.to_nat (hi - lo))).

Definition range (hi : Z) : list Z := range2 0 hi.

(** [sum(l)] *)
Definition sum (l : list Z) : Z := fold_left Z.add l 0.

(** [l[i]] with Python's negative indices. *)
Definition py_index {A : Type} (l : list A) (i : Z) : result A :=
  let n := Z.of_nat (List.length l) in
  let j := if i <? 0 then i + n else i in
  if (0 <=? j) && (j <? n) then
    match nth_error l (Z.to_nat j) with
    | Some a => Ok a
    | None => Raise IndexError
    end
  else Raise IndexError.

(** [s[:k] == p] *)
Definition prefix_is (k : nat) (p s : string) : bool :=
  String.eqb (substring 0 k s) p.

(** ** The codec *)

Record Codec : Type := mkCodec {
  n_nodes : Z;
  n_colors : Z;
  n_tokens : Z;
  symm_mode : option string
}.

(** [counts_default]: number of variables of each type, in the order
    z, x, y, p, t, m. *)
Definition counts (self : Codec) : list Z :=
  [ n_colors self;
    n_colors self * n_nodes self;
    n_tokens self * n_colors self * n_colors self;
    (n_colors self * (n_colors self - 1)) / 2;
    (n_colors self * (n_colors self - 1)) / 2;
    n_colors self * n_tokens self ].

Definition color_msg : string :=
  "color arg must be nonnegative and smaller than n_colors".
Definition node_msg : string :=
  "node arg must be nonnegative and smaller than n_nodes".
Definition token_msg : string :=
  "token arg must be nonnegative and smaller than n_tokens".
Definition order_msg : string := "color1 must be smaller than color2".

(** The loop of [validate_enc]'s wrapper over [enumerate(argnames)], started
    at position [i]. *)
Fixpoint validate_args (self : Codec) (argnames : list string) (i : Z)
  (args : list Z) : result unit :=
  match argnames with
  | [] => Ok tt
  | argname :: rest =>
      _ <- (if prefix_is 5 "color" argname then
              a <- py_index args (i - 1) ;;
              assert ((a <? n_colors self) && (a >=? 0)) color_msg
            else if prefix_is 4 "node" argname then
              a <- py_index args (i - 1) ;;
              assert ((a <? n_nodes self) && (a >=? 0)) node_msg
            else if prefix_is 5 "token" argname then
              a <- py_index args (i - 1) ;;
              assert ((a <? n_tokens self) && (a >=? 0)) token_msg
            else Ok tt) ;;
      validate_args self rest (i + 1) args
  end.

(** The decorator: [argnames] is what [inspect.signature(func)] gives, and
    [func] receives the positional arguments unchanged. *)
Definition validate_enc (argnames : list string)
  (func : Codec -> list Z -> result Z) (self : Codec) (args : list Z)
  : result Z :=
  _ <- validate_args self argnames 0 args ;;
  func self args.

(** The undecorated bodies; a call with the wrong number of positional
    arguments is a [TypeError]. *)
Definition color_accepting_body (self : Codec) (args : list Z) : result Z :=
  match args with
  | [color] => Ok (sum (firstn 0 (counts self)) + 1 + color)
  | _ => Raise TypeError
  end.

Definition color_node_body (self : Codec) (args : list Z) : result Z :=
  match args with
  | [node; color] =>
      Ok (sum (firstn 1 (counts self)) + 1 + n_colors self * node + color)
  | _ => Raise TypeError
  end.

Definition parent_relation_body (self : Codec) (args : list Z) : result Z :=
  match args with
  | [token; color1; color2] =>
      let a := n_colors self in
      let b := a ^ 2 in
      Ok (sum (firstn 2 (counts self)) + 1 + color1 + a * color2 + b * token)
  | _ => Raise TypeError
  end.

Definition enumeration_parent_body (self : Codec) (args : list Z) : result Z :=
  match args with
  | [color1; color2] =>
      _ <- assert (color1 <? color2) order_msg ;;
      Ok (sum (firstn 3 (counts self)) + 1
          + ((color2 * (color2 - 1)) / 2) + color1)
  | _ => Raise TypeError
  end.

Definition transition_relation_body (self : Codec) (args : list Z) : result Z :=
  match args with
  | [color1; color2] =>
      _ <- assert (color1 <? color2) order_msg ;;
      Ok (sum (firstn 4 (counts self)) + 1
          + ((color2 * (color2 - 1)) / 2) + color1)
  | _ => Raise TypeError
  end.

Definition enumeration_label_body (self : Codec) (args : list Z) : result Z :=
  match args with
  | [token; color] =>
      Ok (sum (firstn 5 (counts self)) + 1 + n_tokens self * color + token)
  | _ => Raise TypeError
  end.

(** The six accessors, as decorated in the class. *)
Definition color_accepting (self : Codec) (color : Z) : result Z :=
  validate_enc ["self"; "color"] color_accepting_body self [color].

Definition color_node (self : Codec) (node color : Z) : result Z :=
  validate_enc ["self"; "node"; "color"] color_node_body self [node; color].

Definition parent_relation (self : Codec) (token color1 color2 : Z)
  : result Z :=
  validate_enc ["self"; "token"; "color1"; "color2"] parent_relation_body
    self [token; color1; color2].

Definition enumeration_parent (self : Codec) (color1 color2 : Z) : result Z :=
  validate_enc ["self"; "color1"; "color2"] enumeration_parent_body
    self [color1; color2].

Definition transition_relation (self : Codec) (color1 color2 : Z) : result Z :=
  validate_enc ["self"; "color1"; "color2"] transition_relation_body
    self [color1; color2].

Definition enumeration_label (self : Codec) (token color : Z) : result Z :=
  validate_enc ["self"; "token"; "color"] enumeration_label_body
    self [token; color].

(** The three descriptor classes, fields in declaration order. *)
Inductive Var : Type :=
| ColorAcceptingVar (color : Z) (true : bool)
| ColorNodeVar (color : Z) (true : bool) (node : Z)
| ParentRelationVar (parent_color node_color token : Z) (true : bool).

(** [Codec.decode]; [%] and [//] by zero raise. *)
Definition decode (self : Codec) (lit : Z) : result Var :=
  let idx := Z.abs lit - 1 in
  if n_colors self =? 0 then Raise ZeroDivisionError else
  let color1 := idx mod n_colors self in
  let true := 0 <? lit in
  let kind_idx := idx / n_colors self in
  if kind_idx =? 0 then Ok (ColorAcceptingVar color1 true)
  else if (1 <=? kind_idx) && (kind_idx <=? n_nodes self) then
    let node := (idx - color1) / n_colors self - 1 in
    Ok (ColorNodeVar color1 true node)
  else
    let tmp := idx - n_colors self * (1 + n_nodes self) in
    let tmp := tmp / n_colors self in
    let color2 := tmp mod n_colors self in
    let token := tmp / n_colors self in
    Ok (ParentRelationVar color1 color2 token true).

(** ** The prefix tree and its consistency graph *)

(** Modelled from the spec: the APTA and its consistency graph are built by
    [dfa_identify.graphs], which is not part of these sources; the record
    holds what the encoder reads of them.  [nodes] lists the node ids
    ([apta.nodes]), [source] is [apta.nodes[node]['source']], [alphabet] maps
    a symbol to its token index, [tree_parents node] lists
    [apta.tree.reverse().neighbors(node)], and [consistency_graph] lists the
    edges of [apta.consistency_graph()]. *)
Record APTA : Type := mkAPTA {
  nodes : list Z;
  source : Z -> option string;
  alphabet : list (string * Z);
  tree_parents : Z -> list Z;
  accepting : list Z;
  rejecting : list Z;
  consistency_graph : list (Z * Z)
}.

(** [len(l)] *)
Definition len {A : Type} (l : list A) : Z := Z.of_nat (List.length l).

(** [d[k]] on a dict kept as an association list. *)
Fixpoint dict_get (d : list (string * Z)) (k : string) : result Z :=
  match d with
  | [] => Raise KeyError
  | (k', v) :: rest => if String.eqb k' k then Ok v else dict_get rest k
  end.

Definition from_apta (apta : APTA) (n_colors : Z) (symm_mode : option string)
  : Codec :=
  mkCodec (len (nodes apta)) n_colors (len (alphabet apta)) symm_mode.

(** ** Clause generator

    A clause is a list of signed literals.  A generator function is embedded
    as the list of everything it yields, or the exception that interrupts it:
    its only consumer, [dfa_id_encodings], collects it with [list(...)]. *)

Definition Clause : Type := list Z.
Definition Clauses : Type := list Clause.

Definition onehot_color_clauses (codec : Codec) : result Clauses :=
  at_least <- mapM (fun n =>
                      mapM (fun c => color_node codec n c)
                        (range (n_colors codec)))
                (range (n_nodes codec)) ;;
  at_most <- flat_mapM (fun n =>
               flat_mapM (fun i =>
                 lit <- color_node codec n i ;;
                 mapM (fun j =>
                         lit_j <- color_node codec n j ;;
                         Ok [- lit; - lit_j])
                   (range2 (i + 1) (n_colors codec)))
                 (range (n_colors codec)))
               (range (n_nodes codec)) ;;
  Ok (at_least ++ at_most).

(** [product(range(n_tokens), range(n_colors))] *)
Definition tokensXcolors (codec : Codec) : list (Z * Z) :=
  list_prod (range (n_tokens codec)) (range (n_colors codec)).

Definition onehot_parent_relation_clauses (codec : Codec) : result Clauses :=
  at_least <- mapM (fun '(token, i) =>
                      mapM (fun j => parent_relation codec token i j)
                        (range (n_colors codec)))
                (tokensXcolors codec) ;;
  at_most <- flat_mapM (fun '(token, i) =>
               flat_mapM (fun h =>
                 lit1 <- parent_relation codec token i h ;;
                 mapM (fun j =>
                         lit_j <- parent_relation codec token i j ;;
                         Ok [- lit1; - lit_j])
                   (range2 (h + 1) (n_colors codec)))
                 (range (n_colors codec)))
               (tokensXcolors codec) ;;
  Ok (at_least ++ at_most).

Definition partition_by_accepting_clauses (codec : Codec) (apta : APTA)
  : result Clauses :=
  flat_mapM (fun c =>
    lit <- color_accepting codec c ;;
    acc <- mapM (fun n => x <- color_node codec n c ;; Ok [- x; lit])
             (accepting apta) ;;
    rej <- mapM (fun n => x <- color_node codec n c ;; Ok [- x; - lit])
             (rejecting apta) ;;
    Ok (acc ++ rej))
    (range (n_colors codec)).

(** [set(apta.nodes) - {0}], in the order of [apta.nodes] (the iteration
    order of a Python set is not specified). *)
Definition non_root_nodes (apta : APTA) : list Z :=
  filter (fun n => negb (n =? 0)) (nodup Z.eq_dec (nodes apta)).

Definition colors_parent_rel_coupling_clauses (codec : Codec) (apta : APTA)
  : result Clauses :=
  let colors := range (n_colors codec) in
  flat_mapM (fun node =>
    flat_mapM (fun i =>
      flat_mapM (fun j =>
        parent <- match tree_parents apta node with
                  | parent :: _ => Ok parent
                  | [] => Raise ValueError
                  end ;;
        src <- match source apta node with
               | Some s => Ok s
               | None => Raise KeyError
               end ;;
        token <- dict_get (alphabet apta) src ;;
        parent_color <- color_node codec parent i ;;
        node_color <- color_node codec node j ;;
        parent_rel <- parent_relation codec token i j ;;
        Ok [ [- parent_color; - node_color; parent_rel];
             [- parent_color; node_color; - parent_rel] ])
        colors)
      colors)
    (non_root_nodes apta).

Definition determination_conflicts (codec : Codec) (cgraph : list (Z * Z))
  : result Clauses :=
  let colors := range (n_colors codec) in
  flat_mapM (fun '(n1, n2) =>
    mapM (fun c =>
            x1 <- color_node codec n1 c ;;
            x2 <- color_node codec n2 c ;;
            Ok [- x1; - x2])
      colors)
    cgraph.

(** [enumerate(l)] *)
Definition enumerate {A : Type} (l : list A) : list (Z * A) :=
  combine (range (len l)) l.

(** [clique] is [None] when the caller leaves the default. *)
Definition symmetry_breaking (codec : Codec) (clique : option (list Z))
  : result Clauses :=
  match clique with
  | None => Raise TypeError
  | Some clique =>
      mapM (fun '(color, node) =>
              x <- color_node codec node color ;; Ok [x])
        (enumerate clique)
  end.

Definition symmetry_breaking_common (codec : Codec) : result Clauses :=
  root <- color_node codec 0 0 ;;
  rest <- flat_mapM (fun color2 =>
    at_least <- (if 0 <? color2 then
                   cl <- mapM (fun color1 =>
                                 enumeration_parent codec color1 color2)
                           (range color2) ;;
                   Ok [cl]
                 else Ok []) ;;
    per_pair <- flat_mapM (fun color1 =>
      p <- enumeration_parent codec color1 color2 ;;
      t <- transition_relation codec color1 color2 ;;
      let m := fun l => enumeration_label codec l color2 in
      let y := fun l => parent_relation codec l color1 color2 in
      ys <- mapM y (range (n_tokens codec)) ;;
      per_token <- flat_mapM (fun token2 =>
        y2 <- y token2 ;;
        m2 <- m token2 ;;
        smaller <- mapM y (range token2) ;;
        six <- mapM (fun token1 =>
                       m2' <- m token2 ;;
                       y1 <- y token1 ;;
                       Ok [- p; - m2'; - y1])
                 (range token2) ;;
        Ok ([ [t; - y2];
              [- p; - m2; y2];
              ([- y2; - p; m2] ++ smaller) ] ++ six))
        (range (n_tokens codec)) ;;
      Ok ([ ([- t] ++ ys); [t; - p] ] ++ per_token))
      (range color2) ;;
    Ok (at_least ++ per_pair))
    (range (n_colors codec)) ;;
  Ok ([ [root] ] ++ rest).

Definition symmetry_breaking_bfs (codec : Codec) : result Clauses :=
  flat_mapM (fun color2 =>
    flat_mapM (fun color1 =>
      p <- enumeration_parent codec color1 color2 ;;
      t <- transition_relation codec color1 color2 ;;
      c12 <- mapM (fun color3 =>
                     t3 <- transition_relation codec color3 color2 ;;
                     Ok [- p; - t3])
               (range color1) ;;
      t3s <- mapM (fun color3 => transition_relation codec color3 color2)
               (range color1) ;;
      next <- (if color2 + 1 <? n_colors codec then
                 c14 <- mapM (fun color3 =>
                                p3 <- enumeration_parent codec color3
                                        (color2 + 1) ;;
                                Ok [- p; - p3])
                          (range color1) ;;
                 c15 <- flat_mapM (fun token2 =>
                          mapM (fun token1 =>
                                  p' <- enumeration_parent codec color1
                                          (color2 + 1) ;;
                                  m2 <- enumeration_label codec token2
                                          color2 ;;
                                  m1 <- enumeration_label codec token1
                                          (color2 + 1) ;;
                                  Ok [- p; - p'; - m2; - m1])
                            (range token2))
                          (range (n_tokens codec)) ;;
                 Ok (c14 ++ c15)
               else Ok []) ;;
      Ok (c12 ++ [ ([- t; p] ++ t3s) ] ++ next))
      (range color2))
    (range (n_colors codec)).

(** [codec.symm_mode == s] *)
Definition mode_is (mode : option string) (s : string) : bool :=
  match mode with
  | Some m => String.eqb m s
  | None => false
  end.

Definition encode_dfa_id (apta : APTA) (codec : Codec)
  (cgraph : list (Z * Z)) (clique : option (list Z)) : result Clauses :=
  c1 <- onehot_color_clauses codec ;;
  c2 <- partition_by_accepting_clauses codec apta ;;
  c3 <- colors_parent_rel_coupling_clauses codec apta ;;
  c4 <- onehot_parent_relation_clauses codec ;;
  c5 <- determination_conflicts codec cgraph ;;
  c6 <- (if mode_is (symm_mode codec) "clique" then
           symmetry_breaking codec clique
         else if mode_is (symm_mode codec) "bfs" then
           common <- symmetry_breaking_common codec ;;
           bfs <- symmetry_breaking_bfs codec ;;
           Ok (common ++ bfs)
         else Ok []) ;;
  Ok (c1 ++ c2 ++ c3 ++ c4 ++ c5 ++ c6).

(** ** Trial driver *)

(** What a lazy generator does when it is pulled until it ends: it yields,
    stops, or is interrupted by an exception. *)
Inductive generator (A : Type) : Type :=
| Stop
| Yield (a : A) (rest : generator A)
| Throw (e : exn).
Arguments Stop {A}.
Arguments Yield {A} a rest.
Arguments Throw {A} e.

(** The loop of [dfa_id_encodings] over the color counts [ks]; the progress
    line it prints is not part of the embedding. *)
Fixpoint trials (apta : APTA) (symm_mode : option string)
  (cgraph : list (Z * Z)) (clique : option (list Z)) (ks : list Z)
  : generator (Codec * Clauses) :=
  match ks with
  | [] => Stop
  | n_colors :: rest =>
      let codec := from_apta apta n_colors symm_mode in
      match encode_dfa_id apta codec cgraph clique with
      | Ok clauses =>
          Yield (codec, clauses) (trials apta symm_mode cgraph clique rest)
      | Raise e => Throw e
      end
  end.

Section Driver.

(** [networkx]'s approximate [max_clique]: the members of some clique of
    the graph, in the order in which the returned set is iterated. *)
Variable max_clique : list (Z * Z) -> list Z.

Definition dfa_id_encodings (apta : APTA) (symm_mode : option string)
  : generator (Codec * Clauses) :=
  let cgraph := consistency_graph apta in
  let clique := if mode_is symm_mode "clique"
                then Some (max_clique cgraph) else None in
  let min_color := if mode_is symm_mode "clique"
                   then len (max_clique cgraph) else 1 in
  trials apta symm_mode cgraph clique
    (range2 min_color (len (nodes apta) + 1)).

End Driver.

(** ** Boolean assignments *)

(** An assignment gives a truth value to every variable id; a positive
    literal is its variable, a negative one its negation. *)
Definition lit_true (a : Z -> bool) (lit : Z) : bool :=
  if 0 <? lit then a lit else if lit <? 0 then negb (a (- lit)) else false.

Definition clause_true (a : Z -> bool) (cl : Clause) : bool :=
  existsb (lit_true a) cl.

Definition satisfies (a : Z -> bool) (cls : Clauses) : bool :=
  forallb (clause_true a) cls.

(** The 3-node tree of the end-to-end scenario: the root, node 1 reached by
    [a] and accepting, node 2 reached by [b] and rejecting. *)
Definition apta3 : APTA :=
  mkAPTA [0; 1; 2]
    (fun n => if n =? 1 then Some "a" else if n =? 2 then Some "b" else None)
    [("a", 0); ("b", 1)]
    (fun n => if (n =? 1) || (n =? 2) then [0] else [])
    [1] [2]
    [(1, 2)].

(** ** The literal ids on valid indices

    What the accessors return once their assertions have passed. *)

Definition z_id (self : Codec) (color : Z) : Z :=
  sum (firstn 0 (counts self)) + 1 + color.

Definition x_id (self : Codec) (node color : Z) : Z :=
  sum (firstn 1 (counts self)) + 1 + n_colors self * node + color.

Definition y_id (self : Codec) (token color1 color2 : Z) : Z :=
  sum (firstn 2 (counts self)) + 1
  + color1 + n_colors self * color2 + n_colors self ^ 2 * token.

Definition p_id (self : Codec) (color1 color2 : Z) : Z :=
  sum (firstn 3 (counts self)) + 1 + (color2 * (color2 - 1)) / 2 + color1.

Definition t_id (self : Codec) (color1 color2 : Z) : Z :=
  sum (firstn 4 (counts self)) + 1 + (color2 * (color2 - 1)) / 2 + color1.

Definition m_id (self : Codec) (token color : Z) : Z :=
  sum (firstn 5 (counts self)) + 1 + n_tokens self * color + token.

Definition in_range (x hi : Z) : bool := (x <? hi) && (x >=? 0).

(** ** The six kinds of variables

    The variables of the encoding by kind and indices, the index domain of
    each kind, and the accessor that numbers it. *)

Inductive SemVar : Type :=
| ColorAccepting (color : Z)
| ColorNode (node color : Z)
| ParentRelation (token color1 color2 : Z)
| EnumerationParent (color1 color2 : Z)
| TransitionRelation (color1 color2 : Z)
| EnumerationLabel (token color : Z).

Definition valid (self : Codec) (v : SemVar) : bool :=
  match v with
  | ColorAccepting c => in_range c (n_colors self)
  | ColorNode n c => in_range n (n_nodes self) && in_range c (n_colors self)
  | ParentRelation t c1 c2 =>
      in_range t (n_tokens self) && in_range c1 (n_colors self)
      && in_range c2 (n_colors self)
  | EnumerationParent c1 c2 | TransitionRelation c1 c2 =>
      in_range c1 (n_colors self) && in_range c2 (n_colors self)
      && (c1 <? c2)
  | EnumerationLabel t c =>
      in_range t (n_tokens self) && in_range c (n_colors self)
  end.

Definition encode (self : Codec) (v : SemVar) : result Z :=
  match v with
  | ColorAccepting c => color_accepting self c
  | ColorNode n c => color_node self n c
  | ParentRelation t c1 c2 => parent_relation self t c1 c2
  | EnumerationParent c1 c2 => enumeration_parent self c1 c2
  | TransitionRelation c1 c2 => transition_relation self c1 c2
  | EnumerationLabel t c => enumeration_label self t c
  end.

Definition id_of (self : Codec) (v : SemVar) : Z :=
  match v with
  | ColorAccepting c => z_id self c
  | ColorNode n c => x_id self n c
  | ParentRelation t c1 c2 => y_id self t c1 c2
  | EnumerationParent c1 c2 => p_id self c1 c2
  | TransitionRelation c1 c2 => t_id self c1 c2
  | EnumerationLabel t c => m_id self t c
  end.

(** The number of unordered pairs below [c]. *)
Definition tri (c : Z) : Z := (c * (c - 1)) / 2.

(** The number of variables of kinds 0-2. *)
Definition off3 (self : Codec) : Z :=
  n_colors self + n_colors self * n_nodes self
  + n_tokens self * n_colors self * n_colors self.

Definition nonneg (self : Codec) : Prop :=
  0 <= n_nodes self /\ 0 <= n_colors self /\ 0 <= n_tokens self.

Definition raises_assertion {A : Type} (r : result A) : Prop :=
  exists msg, r = Raise (AssertionError msg).

(** The range of ids of each kind. *)
Definition kind_bounds (self : Codec) (v : SemVar) : Z * Z :=
  let nc := n_colors self in
  match v with
  | ColorAccepting _ => (0, nc)
  | ColorNode _ _ => (nc, nc + nc * n_nodes self)
  | ParentRelation _ _ _ => (nc + nc * n_nodes self, off3 self)
  | EnumerationParent _ _ => (off3 self, off3 self + tri nc)
  | TransitionRelation _ _ => (off3 self + tri nc, off3 self + 2 * tri nc)
  | EnumerationLabel _ _ =>
      (off3 self + 2 * tri nc, off3 self + 2 * tri nc + nc * n_tokens self)
  end.

(** ** The clauses yielded when no assertion fails

    The same loops as the generators, over the ids of the variables. *)

Definition at_most_one (f : Z -> Z) (n : Z) : Clauses :=
  flat_map (fun i => map (fun j => [- f i; - f j]) (range2 (i + 1) n))
    (range n).

Definition onehot_color_list (codec : Codec) : Clauses :=
  map (fun n => map (x_id codec n) (range (n_colors codec)))
    (range (n_nodes codec))
  ++ flat_map (fun n => at_most_one (x_id codec n) (n_colors codec))
       (range (n_nodes codec)).

Definition onehot_parent_relation_list (codec : Codec) : Clauses :=
  map (fun '(token, i) => map (y_id codec token i) (range (n_colors codec)))
    (tokensXcolors codec)
  ++ flat_map (fun '(token, i) =>
                 at_most_one (y_id codec token i) (n_colors codec))
       (tokensXcolors codec).

Definition symmetry_breaking_common_list (codec : Codec) : Clauses :=
  [ [x_id codec 0 0] ]
  ++ flat_map (fun color2 =>
       (if 0 <? color2
        then [ map (fun color1 => p_id codec color1 color2) (range color2) ]
        else [])
       ++ flat_map (fun color1 =>
            let p := p_id codec color1 color2 in
            let t := t_id codec color1 color2 in
            let m := fun l => m_id codec l color2 in
            let y := fun l => y_id codec l color1 color2 in
            [ ([- t] ++ map y (range (n_tokens codec))); [t; - p] ]
            ++ flat_map (fun token2 =>
                 [ [t; - y token2];
                   [- p; - m token2; y token2];
                   ([- y token2; - p; m token2] ++ map y (range token2)) ]
                 ++ map (fun token1 => [- p; - m token2; - y token1])
                      (range token2))
                 (range (n_tokens codec)))
            (range color2))
       (range (n_colors codec)).

Definition symmetry_breaking_bfs_list (codec : Codec) : Clauses :=
  flat_map (fun color2 =>
    flat_map (fun color1 =>
      let p := p_id codec color1 color2 in
      let t := t_id codec color1 color2 in
      map (fun color3 => [- p; - t_id codec color3 color2]) (range color1)
      ++ [ ([- t; p]
            ++ map (fun color3 => t_id codec color3 color2) (range color1)) ]
      ++ (if color2 + 1 <? n_colors codec then
            map (fun color3 => [- p; - p_id codec color3 (color2 + 1)])
              (range color1)
            ++ flat_map (fun token2 =>
                 map (fun token1 =>
                        [- p; - p_id codec color1 (color2 + 1);
                         - m_id codec token2 color2;
                         - m_id codec token1 (color2 + 1)])
                   (range token2))
                 (range (n_tokens codec))
          else []))
      (range color2))
    (range (n_colors codec)).

Definition partition_by_accepting_list (codec : Codec) (apta : APTA)
  : Clauses :=
  flat_map (fun c =>
    map (fun n => [- x_id codec n c; z_id codec c]) (accepting apta)
    ++ map (fun n => [- x_id codec n c; - z_id codec c]) (rejecting apta))
    (range (n_colors codec)).

(** The parent of a node and the token of its incoming edge, as the coupling
    loop reads them. *)
Definition parent_of (apta : APTA) (node : Z) : Z :=
  hd 0 (tree_parents apta node).

Definition token_of (apta : APTA) (node : Z) : Z :=
  match source apta node with
  | Some s => match dict_get (alphabet apta) s with
              | Ok t => t
              | Raise _ => 0
              end
  | None => 0
  end.

Definition colors_parent_rel_coupling_list (codec : Codec) (apta : APTA)
  : Clauses :=
  let colors := range (n_colors codec) in
  flat_map (fun node =>
    flat_map (fun i =>
      flat_map (fun j =>
        let parent_color := x_id codec (parent_of apta node) i in
        let node_color := x_id codec node j in
        let parent_rel := y_id codec (token_of apta node) i j in
        [ [- parent_color; - node_color; parent_rel];
          [- parent_color; node_color; - parent_rel] ])
        colors)
      colors)
    (non_root_nodes apta).

Definition determination_conflicts_list (codec : Codec)
  (cgraph : list (Z * Z)) : Clauses :=
  flat_map (fun '(n1, n2) =>
    map (fun c => [- x_id codec n1 c; - x_id codec n2 c])
      (range (n_colors codec)))
    cgraph.

Definition symmetry_breaking_list (codec : Codec) (clique : list Z)
  : Clauses :=
  map (fun '(color, node) => [x_id codec node color]) (enumerate clique).

(** What the loops need of the tree and the graph to run without an
    exception: labelled nodes, conflicting nodes and clique members are
    nodes of the codec, a non-root node has a parent among them and an
    incoming symbol of the alphabet, and there are colors for the clique. *)
Definition node_ok (codec : Codec) (n : Z) : Prop := 0 <= n < n_nodes codec.

Definition partition_ok (codec : Codec) (apta : APTA) : Prop :=
  0 < n_colors codec ->
  forall n, In n (accepting apta) \/ In n (rejecting apta) -> node_ok codec n.

Definition coupling_ok (codec : Codec) (apta : APTA) : Prop :=
  0 < n_colors codec ->
  forall node, In node (non_root_nodes apta) ->
    node_ok codec node /\
    exists parent rest src token,
      tree_parents apta node = parent :: rest /\
      source apta node = Some src /\
      dict_get (alphabet apta) src = Ok token /\
      node_ok codec parent /\ 0 <= token < n_tokens codec.

Definition conflicts_ok (codec : Codec) (cgraph : list (Z * Z)) : Prop :=
  0 < n_colors codec ->
  forall n1 n2, In (n1, n2) cgraph -> node_ok codec n1 /\ node_ok codec n2.

Definition clique_ok (codec : Codec) (clique : list Z) : Prop :=
  forall color node, In (color, node) (enumerate clique) ->
    0 <= color < n_colors codec /\ node_ok codec node.

Definition base_list (codec : Codec) (apta : APTA) (cgraph : list (Z * Z))
  : Clauses :=
  onehot_color_list codec
  ++ partition_by_accepting_list codec apta
  ++ colors_parent_rel_coupling_list codec apta
  ++ onehot_parent_relation_list codec
  ++ determination_conflicts_list codec cgraph.

Definition base_ok (codec : Codec) (apta : APTA) (cgraph : list (Z * Z))
  : Prop :=
  partition_ok codec apta /\ coupling_ok codec apta
  /\ conflicts_ok codec cgraph.

(** The last step of [encode_dfa_id]: the clauses of the selected symmetry
    breaking. *)
Definition symmetry_extension (codec : Codec) (clique : option (list Z))
  : result Clauses :=
  if mode_is (symm_mode codec) "clique" then
    symmetry_breaking codec clique
  else if mode_is (symm_mode codec) "bfs" then
    common <- symmetry_breaking_common codec ;;
    bfs <- symmetry_breaking_bfs codec ;;
    Ok (common ++ bfs)
  else Ok [].

(** A literal of one of the kinds 0-2. *)
Definition lit_main (codec : Codec) (lit : Z) : Prop :=
  1 <= Z.abs lit <= sum (firstn 3 (counts codec)).

(** The variables that occur in a clause list. *)
Definition variables (cls : Clauses) : list Z :=
  nodup Z.eq_dec (map Z.abs (List.concat cls)).

(** What a generator yields before it ends, and whether it ends by
    stopping rather than by an exception. *)
Fixpoint yielded {A : Type} (g : generator A) : list A :=
  match g with
  | Yield a rest => a :: yielded rest
  | Stop | Throw _ => []
  end.

Fixpoint finishes {A : Type} (g : generator A) : bool :=
  match g with
  | Stop => true
  | Yield _ rest => finishes rest
  | Throw _ => false
  end.

(** The tree as the spec describes it: the ids of its [n] nodes lie in
    [[0, n)], so do the labelled nodes and the ends of the edges of the
    consistency graph, and every node but the root has a parent in the tree
    and an incoming symbol with a token index below the alphabet size. *)
Definition wf_apta (apta : APTA) : Prop :=
  let nn := len (nodes apta) in
  let nt := len (alphabet apta) in
  (forall n, In n (nodes apta) -> 0 <= n < nn) /\
  (forall n, In n (accepting apta) \/ In n (rejecting apta) -> 0 <= n < nn) /\
  (forall node, In node (nodes apta) -> node <> 0 ->
     exists parent rest src token,
       tree_parents apta node = parent :: rest /\
       source apta node = Some src /\
       dict_get (alphabet apta) src = Ok token /\
       0 <= parent < nn /\ 0 <= token < nt) /\
  (forall n1 n2, In (n1, n2) (consistency_graph apta) ->
     0 <= n1 < nn /\ 0 <= n2 < nn).

(** ** Exchanging two colors

    [swap_color i j] exchanges the colors [i] and [j]; [rename] carries it to
    the variables of kinds 0-2 through [decode]; [swap_assign] is the
    assignment read through the exchange. *)
Definition swap_color (i j c : Z) : Z :=
  if c =? i then j else if c =? j then i else c.

Definition rename (codec : Codec) (i j v : Z) : Z :=
  match decode codec v with
  | Ok (ColorAcceptingVar c _) => z_id codec (swap_color i j c)
  | Ok (ColorNodeVar c _ n) => x_id codec n (swap_color i j c)
  | Ok (ParentRelationVar c1 c2 t _) =>
      y_id codec t (swap_color i j c1) (swap_color i j c2)
  | Raise _ => v
  end.

Definition swap_assign (codec : Codec) (i j : Z) (a : Z -> bool) : Z -> bool :=
  fun v => a (rename codec i j v).

(** The unit clauses of the clique seeding hold: member number [i] has
    color [i]. *)
Definition seeded (a : Z -> bool) (codec : Codec) (clique : list Z) : Prop :=
  forall i n, In (i, n) (enumerate clique) -> a (x_id codec n i) = true.

(** [clique] is a clique of the graph: distinct nodes, adjacent two by
    two. *)
Definition is_clique (cgraph : list (Z * Z)) (clique : list Z) : Prop :=
  NoDup clique /\
  forall u v, In u clique -> In v clique -> u <> v ->
    In (u, v) cgraph \/ In (v, u) cgraph.

(** The descriptor class of a variable of kinds 0-2 with a truth flag; the
    auxiliary kinds have none. *)
Definition descriptor (v : SemVar) (flag : bool) : option Var :=
  match v with
  | ColorAccepting c => Some (ColorAcceptingVar c flag)
  | ColorNode n c => Some (ColorNodeVar c flag n)
  | ParentRelation t c1 c2 => Some (ParentRelationVar c1 c2 t flag)
  | _ => None
  end.

(** A literal of the codec: nonzero, its magnitude a variable id. *)
Definition lit_any (codec : Codec) (lit : Z) : Prop :=
  1 <= Z.abs lit <= sum (counts codec).

(** The truth value of a variable under an assignment. *)
Definition var_true (a : Z -> bool) (self : Codec) (v : SemVar) : bool :=
  match encode self v with
  | Ok lit => a lit
  | Raise _ => false
  end.

(** The codec of the scenario for two colors, and an assignment: the root
    and node 1 on color 0, node 2 on color 1, color 0 accepting. *)
Definition codec3 (symm_mode : option string) : Codec :=
  from_apta apta3 2 symm_mode.

Definition model3 (v : Z) : bool :=
  existsb (Z.eqb v) [1; 3; 5; 8; 9; 10; 14; 15; 17; 18; 22].

(** The assignment that makes exactly the listed variables true, and the
    scenario with three colors in BFS order: the root on color 0, node 1 on
    color 1 (accepting, reached by token 0), node 2 on color 2 (reached by
    token 1), every other transition back to color 0. *)
Definition model_of (codec : Codec) (vars : list SemVar) : Z -> bool :=
  fun v => existsb (Z.eqb v) (map (id_of codec) vars).

Definition codec3_bfs : Codec := from_apta apta3 3 (Some "bfs").

Definition model3_bfs : Z -> bool :=
  model_of codec3_bfs
    [ ColorNode 0 0; ColorNode 1 1; ColorNode 2 2; ColorAccepting 1;
      ParentRelation 0 0 1; ParentRelation 1 0 2;
      ParentRelation 0 1 0; ParentRelation 1 1 0;
      ParentRelation 0 2 0; ParentRelation 1 2 0;
      EnumerationParent 0 1; EnumerationParent 0 2;
      TransitionRelation 0 1; TransitionRelation 0 2;
      EnumerationLabel 0 1; EnumerationLabel 1 2 ].

(** ** Properties *)

Lemma in_range_iff x hi : in_range x hi = true <-> 0 <= x < hi.
Proof. unfold in_range. rewrite andb_true_iff. lia. Qed.

Lemma In_range2 x lo hi : In x (range2 lo hi) <-> lo <= x < hi.
Proof.
  unfold range2. rewrite in_map_iff. split.
  - intros (i & <- & Hi). apply in_seq in Hi. lia.
  - intros H. exists (Z.to_nat (x - lo)). split; [lia|].
    apply in_seq. lia.
Qed.

Lemma In_range x hi : In x (range hi) <-> 0 <= x < hi.
Proof. apply In_range2. Qed.

(** *** The accessors, assertion by assertion *)

Ltac run_wrapper :=
  cbn;
  repeat first [ progress change (Pos.to_nat 1) with 1%nat
               | progress change (Pos.to_nat 2) with 2%nat ];
  cbn.

Ltac split_check :=
  match goal with
  | |- context [ (?a <? ?b) && (?a >=? 0) ] =>
      destruct ((a <? b) && (a >=? 0)); run_wrapper; [|reflexivity]
  end.

Lemma color_accepting_eq self c :
  color_accepting self c =
  if in_range c (n_colors self) then Ok (z_id self c)
  else Raise (AssertionError color_msg).
Proof.
  unfold color_accepting, validate_enc, in_range, z_id. run_wrapper.
  split_check. reflexivity.
Qed.

Lemma color_node_eq self n c :
  color_node self n c =
  if in_range n (n_nodes self) then
    if in_range c (n_colors self) then Ok (x_id self n c)
    else Raise (AssertionError color_msg)
  else Raise (AssertionError node_msg).
Proof.
  unfold color_node, validate_enc, in_range, x_id. run_wrapper.
  do 2 split_check. reflexivity.
Qed.

Lemma parent_relation_eq self t c1 c2 :
  parent_relation self t c1 c2 =
  if in_range t (n_tokens self) then
    if in_range c1 (n_colors self) then
      if in_range c2 (n_colors self) then Ok (y_id self t c1 c2)
      else Raise (AssertionError color_msg)
    else Raise (AssertionError color_msg)
  else Raise (AssertionError token_msg).
Proof.
  unfold parent_relation, validate_enc, in_range, y_id. run_wrapper.
  do 3 split_check. reflexivity.
Qed.

Lemma enumeration_parent_eq self c1 c2 :
  enumeration_parent self c1 c2 =
  if in_range c1 (n_colors self) then
    if in_range c2 (n_colors self) then
      if c1 <? c2 then Ok (p_id self c1 c2)
      else Raise (AssertionError order_msg)
    else Raise (AssertionError color_msg)
  else Raise (AssertionError color_msg).
Proof.
  unfold enumeration_parent, validate_enc, in_range, p_id. run_wrapper.
  do 2 split_check. destruct (c1 <? c2); reflexivity.
Qed.

Lemma transition_relation_eq self c1 c2 :
  transition_relation self c1 c2 =
  if in_range c1 (n_colors self) then
    if in_range c2 (n_colors self) then
      if c1 <? c2 then Ok (t_id self c1 c2)
      else Raise (AssertionError order_msg)
    else Raise (AssertionError color_msg)
  else Raise (AssertionError color_msg).
Proof.
  unfold transition_relation, validate_enc, in_range, t_id. run_wrapper.
  do 2 split_check. destruct (c1 <? c2); reflexivity.
Qed.

Lemma enumeration_label_eq self t c :
  enumeration_label self t c =
  if in_range t (n_tokens self) then
    if in_range c (n_colors self) then Ok (m_id self t c)
    else Raise (AssertionError color_msg)
  else Raise (AssertionError token_msg).
Proof.
  unfold enumeration_label, validate_enc, in_range, m_id. run_wrapper.
  do 2 split_check. reflexivity.
Qed.

(** An accessor returns exactly on the index domain of its kind, and then
    returns the id of the variable. *)
Lemma encode_eq self v :
  encode self v =
  if valid self v then Ok (id_of self v)
  else encode self v.
Proof. destruct (valid self v) eqn:E; [|reflexivity].
  destruct v; cbn [valid encode id_of] in *;
    rewrite ?color_accepting_eq, ?color_node_eq, ?parent_relation_eq,
      ?enumeration_parent_eq, ?transition_relation_eq, ?enumeration_label_eq;
    rewrite ?andb_true_iff in E; decompose [and] E;
    repeat match goal with H : _ = true |- _ => rewrite H; clear H end;
    reflexivity.
Qed.

Lemma encode_valid self v : valid self v = true -> encode self v = Ok (id_of self v).
Proof. intros H. rewrite encode_eq, H. reflexivity. Qed.

Lemma encode_invalid self v :
  valid self v = false -> raises_assertion (encode self v).
Proof.
  unfold raises_assertion. intros E.
  destruct v; cbn [valid encode id_of] in *;
    rewrite ?color_accepting_eq, ?color_node_eq, ?parent_relation_eq,
      ?enumeration_parent_eq, ?transition_relation_eq, ?enumeration_label_eq;
    repeat match goal with
           | |- context [ if ?b then _ else _ ] =>
               destruct b; cbn [andb] in E
           end; try discriminate; eexists; reflexivity.
Qed.

Lemma encode_ok_inv self v id :
  encode self v = Ok id -> valid self v = true /\ id = id_of self v.
Proof.
  intros H. destruct (valid self v) eqn:E.
  - rewrite encode_valid in H by assumption. inversion H. auto.
  - destruct (encode_invalid self v E) as [msg Hm]. congruence.
Qed.

(** C4: an accessor called with a node, color or token index outside its
    range, or [enumeration_parent] / [transition_relation] called with
    [color1 >= color2], raises an assertion error and returns no literal
    id. *)
Theorem accessor_contract_violation (self : Codec) (v : SemVar) :
  valid self v = false ->
  raises_assertion (encode self v) /\ forall id, encode self v <> Ok id.
Proof.
  intros E. split; [apply encode_invalid; assumption|].
  intros id H. apply encode_ok_inv in H. destruct H. congruence.
Qed.

Lemma accessor_contract_violation_witness :
  valid (mkCodec 3 2 2 None) (EnumerationParent 1 1) = false /\
  raises_assertion (enumeration_parent (mkCodec 3 2 2 None) 1 1) /\
  raises_assertion (color_node (mkCodec 3 2 2 None) 3 0) /\
  raises_assertion (parent_relation (mkCodec 3 2 2 None) (-1) 0 0).
Proof.
  split; [reflexivity|]. repeat split.
  - apply (accessor_contract_violation (mkCodec 3 2 2 None)
             (EnumerationParent 1 1)). reflexivity.
  - apply (accessor_contract_violation (mkCodec 3 2 2 None) (ColorNode 3 0)).
    reflexivity.
  - apply (accessor_contract_violation (mkCodec 3 2 2 None)
             (ParentRelation (-1) 0 0)). reflexivity.
Defined.

(** *** Offsets and ids in closed form *)

Lemma tri_double c : 2 * tri c = c * (c - 1).
Proof.
  unfold tri.
  assert (H : (c * (c - 1)) mod 2 = 0).
  { destruct (Z.Even_or_Odd c) as [[k ->] | [k ->]].
    - replace (2 * k * (2 * k - 1)) with (0 + (k * (2 * k - 1)) * 2) by ring.
      rewrite Z.mod_add by lia. reflexivity.
    - replace ((2 * k + 1) * (2 * k + 1 - 1)) with (0 + ((2 * k + 1) * k) * 2)
        by ring.
      rewrite Z.mod_add by lia. reflexivity. }
  symmetry. apply Z.div_exact; [lia | exact H].
Qed.

Lemma tri_succ c : tri (c + 1) = tri c + c.
Proof. pose proof (tri_double c). pose proof (tri_double (c + 1)). nia. Qed.

Lemma tri_mono a b : 0 <= a <= b -> tri a <= tri b.
Proof.
  intros H. pose proof (tri_double a). pose proof (tri_double b).
  assert (0 <= (b - a) * (b + a - 1)).
  { destruct (Z.eq_dec a b); [subst; lia | apply Z.mul_nonneg_nonneg; lia]. }
  lia.
Qed.

Lemma tri_nonneg c : 0 <= tri c.
Proof. pose proof (tri_double c). nia. Qed.

Lemma z_id_eq self c : z_id self c = 1 + c.
Proof. reflexivity. Qed.

Lemma x_id_eq self n c :
  x_id self n c = n_colors self + 1 + n_colors self * n + c.
Proof. unfold x_id, sum, counts. cbn [firstn fold_left]. lia. Qed.

Lemma y_id_eq self t c1 c2 :
  y_id self t c1 c2 =
  n_colors self * (1 + n_nodes self) + 1
  + c1 + n_colors self * (c2 + n_colors self * t).
Proof.
  unfold y_id, sum, counts. cbn [firstn fold_left].
  rewrite Z.pow_2_r. lia.
Qed.

Lemma off3_eq self : sum (firstn 3 (counts self)) = off3 self.
Proof. unfold off3, sum, counts. cbn [firstn fold_left]. lia. Qed.

Lemma p_id_eq self c1 c2 : p_id self c1 c2 = off3 self + 1 + tri c2 + c1.
Proof. unfold p_id. rewrite off3_eq. reflexivity. Qed.

Lemma t_id_eq self c1 c2 :
  t_id self c1 c2 = off3 self + tri (n_colors self) + 1 + tri c2 + c1.
Proof.
  unfold t_id, tri, off3, sum, counts. cbn [firstn fold_left]. lia.
Qed.

Lemma m_id_eq self t c :
  m_id self t c =
  off3 self + 2 * tri (n_colors self) + 1 + n_tokens self * c + t.
Proof.
  unfold m_id, tri, off3, sum, counts. cbn [firstn fold_left]. lia.
Qed.

Lemma total_eq self :
  sum (counts self) =
  off3 self + 2 * tri (n_colors self) + n_colors self * n_tokens self.
Proof. unfold tri, off3, sum, counts. cbn [fold_left]. lia. Qed.

Lemma div_mod_lin b q r :
  0 <= r < b -> (b * q + r) / b = q /\ (b * q + r) mod b = r.
Proof.
  intros H. split.
  - symmetry. apply (Z.div_unique _ _ q r); [lia | reflexivity].
  - symmetry. apply (Z.mod_unique _ _ q r); [lia | reflexivity].
Qed.

(** *** Decoding *)

Lemma decode_z self c (b : bool) :
  0 <= c < n_colors self ->
  decode self (if b then z_id self c else - z_id self c)
  = Ok (ColorAcceptingVar c b).
Proof.
  intros H. rewrite z_id_eq. unfold decode.
  replace (Z.abs (if b then 1 + c else - (1 + c)) - 1)
    with (n_colors self * 0 + c) by (destruct b; lia).
  destruct (div_mod_lin (n_colors self) 0 c H) as [-> ->].
  destruct (Z.eqb_spec (n_colors self) 0); [lia|].
  cbn [Z.eqb]. f_equal. f_equal. destruct b.
  - apply Z.ltb_lt. lia.
  - apply Z.ltb_ge. lia.
Qed.

Lemma decode_x self n c (b : bool) :
  0 <= n < n_nodes self -> 0 <= c < n_colors self ->
  decode self (if b then x_id self n c else - x_id self n c)
  = Ok (ColorNodeVar c b n).
Proof.
  intros Hn H. rewrite x_id_eq. unfold decode.
  replace (Z.abs (if b then n_colors self + 1 + n_colors self * n + c
                  else - (n_colors self + 1 + n_colors self * n + c)) - 1)
    with (n_colors self * (1 + n) + c) by (destruct b; nia).
  destruct (div_mod_lin (n_colors self) (1 + n) c H) as [-> ->].
  destruct (Z.eqb_spec (n_colors self) 0); [lia|].
  destruct (Z.eqb_spec (1 + n) 0); [lia|].
  replace ((1 <=? 1 + n) && (1 + n <=? n_nodes self)) with true
    by (symmetry; apply andb_true_iff; split; apply Z.leb_le; lia).
  replace (n_colors self * (1 + n) + c - c) with (n_colors self * (1 + n) + 0)
    by lia.
  destruct (div_mod_lin (n_colors self) (1 + n) 0 ltac:(lia)) as [-> _].
  f_equal. f_equal; [|lia]. destruct b.
  - apply Z.ltb_lt. nia.
  - apply Z.ltb_ge. nia.
Qed.

(** Every literal above the node colors decodes as a parent relation. *)
Lemma decode_above self k (b : bool) :
  0 < n_colors self -> 0 <= n_nodes self -> 0 <= k ->
  decode self (if b then n_colors self * (1 + n_nodes self) + 1 + k
               else - (n_colors self * (1 + n_nodes self) + 1 + k))
  = Ok (ParentRelationVar (k mod n_colors self)
          ((k / n_colors self) mod n_colors self)
          (k / n_colors self / n_colors self) b).
Proof.
  intros Hc Hn Hk. unfold decode.
  set (nc := n_colors self) in *. set (nn := n_nodes self) in *.
  replace (Z.abs (if b then nc * (1 + nn) + 1 + k
                  else - (nc * (1 + nn) + 1 + k)) - 1)
    with (k + (1 + nn) * nc) by (destruct b; nia).
  rewrite Z.mod_add, Z.div_add by lia.
  destruct (Z.eqb_spec nc 0); [lia|].
  pose proof (Z.div_pos k nc Hk Hc).
  destruct (Z.eqb_spec (k / nc + (1 + nn)) 0); [lia|].
  replace ((1 <=? k / nc + (1 + nn)) && (k / nc + (1 + nn) <=? nn))
    with false
    by (symmetry; apply andb_false_iff; right; apply Z.leb_gt; lia).
  replace (k + (1 + nn) * nc - nc * (1 + nn)) with k by lia.
  f_equal. f_equal. destruct b.
  - apply Z.ltb_lt. nia.
  - apply Z.ltb_ge. nia.
Qed.

Lemma decode_y self t c1 c2 (b : bool) :
  0 <= n_nodes self ->
  0 <= t -> 0 <= c1 < n_colors self -> 0 <= c2 < n_colors self ->
  decode self (if b then y_id self t c1 c2 else - y_id self t c1 c2)
  = Ok (ParentRelationVar c1 c2 t b).
Proof.
  intros Hn Ht H1 H2. rewrite y_id_eq.
  set (k := n_colors self * (c2 + n_colors self * t) + c1).
  replace (n_colors self * (1 + n_nodes self) + 1 + c1
           + n_colors self * (c2 + n_colors self * t))
    with (n_colors self * (1 + n_nodes self) + 1 + k) by (unfold k; lia).
  rewrite decode_above by (unfold k; nia).
  unfold k.
  destruct (div_mod_lin (n_colors self) (c2 + n_colors self * t) c1 H1)
    as [-> ->].
  replace (c2 + n_colors self * t) with (n_colors self * t + c2) by lia.
  destruct (div_mod_lin (n_colors self) t c2 H2) as [-> ->].
  reflexivity.
Qed.

(** C2: on valid indices [decode] is a left inverse of the accessors of
    kinds 0-2, polarity included: the positive literal decodes to the
    descriptor of the same kind and indices with truth flag [true], the
    negated literal to the same descriptor with truth flag [false]. *)
Theorem decode_left_inverse (self : Codec) :
  0 <= n_nodes self ->
  (forall c, valid self (ColorAccepting c) = true ->
     exists lit, color_accepting self c = Ok lit /\
       decode self lit = Ok (ColorAcceptingVar c true) /\
       decode self (- lit) = Ok (ColorAcceptingVar c false)) /\
  (forall n c, valid self (ColorNode n c) = true ->
     exists lit, color_node self n c = Ok lit /\
       decode self lit = Ok (ColorNodeVar c true n) /\
       decode self (- lit) = Ok (ColorNodeVar c false n)) /\
  (forall t c1 c2, valid self (ParentRelation t c1 c2) = true ->
     exists lit, parent_relation self t c1 c2 = Ok lit /\
       decode self lit = Ok (ParentRelationVar c1 c2 t true) /\
       decode self (- lit) = Ok (ParentRelationVar c1 c2 t false)).
Proof.
  intros Hn. repeat split.
  - intros c Hv. exists (z_id self c).
    pose proof (encode_valid _ _ Hv) as He. cbn [encode id_of] in He.
    cbn [valid] in Hv. apply in_range_iff in Hv.
    repeat split; [exact He | |].
    + apply (decode_z self c true Hv).
    + apply (decode_z self c false Hv).
  - intros n c Hv. exists (x_id self n c).
    pose proof (encode_valid _ _ Hv) as He. cbn [encode id_of] in He.
    cbn [valid] in Hv. rewrite andb_true_iff, !in_range_iff in Hv.
    destruct Hv as [H1 H2].
    repeat split; [exact He | |].
    + apply (decode_x self n c true H1 H2).
    + apply (decode_x self n c false H1 H2).
  - intros t c1 c2 Hv. exists (y_id self t c1 c2).
    pose proof (encode_valid _ _ Hv) as He. cbn [encode id_of] in He.
    cbn [valid] in Hv. rewrite !andb_true_iff, !in_range_iff in Hv.
    destruct Hv as [[H0 H1] H2].
    repeat split; [exact He | |].
    + apply (decode_y self t c1 c2 true); lia.
    + apply (decode_y self t c1 c2 false); lia.
Qed.

Lemma decode_left_inverse_witness :
  0 <= n_nodes (mkCodec 3 2 2 None) /\
  valid (mkCodec 3 2 2 None) (ColorNode 2 1) = true /\
  exists lit, color_node (mkCodec 3 2 2 None) 2 1 = Ok lit /\
    decode (mkCodec 3 2 2 None) lit = Ok (ColorNodeVar 1 true 2) /\
    decode (mkCodec 3 2 2 None) (- lit) = Ok (ColorNodeVar 1 false 2).
Proof.
  split; [cbn; lia|]. split; [reflexivity|].
  apply (decode_left_inverse (mkCodec 3 2 2 None)); [cbn; lia | reflexivity].
Defined.


(** C3: the literal of [EnumerationParent(0, 1)] in a codec with one node,
    two colors and one token is 9; [decode] raises nothing on it and returns
    the descriptor of a parent relation on token 1, which the codec does not
    have. *)
Theorem decode_auxiliary_literal :
  enumeration_parent (mkCodec 1 2 1 (Some "bfs")) 0 1 = Ok 9 /\
  decode (mkCodec 1 2 1 (Some "bfs")) 9 = Ok (ParentRelationVar 0 0 1 true) /\
  valid (mkCodec 1 2 1 (Some "bfs")) (ParentRelation 1 0 0) = false.
Proof. repeat split. Qed.

(** *** The six ranges tile [1, sum(counts)] *)

Lemma tri_inverse n k :
  0 <= n -> 0 <= k < tri n ->
  exists c1 c2, 0 <= c1 < c2 /\ c2 < n /\ tri c2 + c1 = k.
Proof.
  intros Hn. revert k. pattern n. apply natlike_ind; [| |exact Hn].
  - intros k Hk. change (tri 0) with 0 in Hk. lia.
  - intros m Hm IH k Hk. change (Z.succ m) with (m + 1) in *.
    rewrite tri_succ in Hk.
    destruct (Z.lt_ge_cases k (tri m)) as [Hlt | Hge].
    + destruct (IH k ltac:(lia)) as (c1 & c2 & H1 & H2 & H3).
      exists c1, c2. lia.
    + exists (k - tri m), m. lia.
Qed.

Lemma tri_pair_lt c1 c2 n : 0 <= c1 < c2 -> c2 < n -> tri c2 + c1 < tri n.
Proof.
  intros H1 H2. pose proof (tri_succ c2).
  pose proof (tri_mono (c2 + 1) n ltac:(lia)). lia.
Qed.

Lemma tri_pair_inj c1 c2 d1 d2 :
  0 <= c1 < c2 -> 0 <= d1 < d2 -> tri c2 + c1 = tri d2 + d1 ->
  c1 = d1 /\ c2 = d2.
Proof.
  intros Hc Hd E.
  destruct (Z.lt_trichotomy c2 d2) as [H | [H | H]].
  - pose proof (tri_pair_lt c1 c2 d2 Hc H). lia.
  - subst. lia.
  - pose proof (tri_pair_lt d1 d2 c2 Hd H). lia.
Qed.

Lemma id_of_bounds self v :
  valid self v = true ->
  fst (kind_bounds self v) < id_of self v <= snd (kind_bounds self v).
Proof.
  intros Hv. destruct v; cbn [valid id_of kind_bounds fst snd] in *;
    rewrite ?andb_true_iff, ?in_range_iff, ?Z.ltb_lt in Hv.
  - rewrite z_id_eq. lia.
  - rewrite x_id_eq. nia.
  - rewrite y_id_eq. unfold off3.
    destruct Hv as [[Ht H1] H2].
    assert (color2 + n_colors self * token <= n_colors self * n_tokens self - 1)
      by nia.
    nia.
  - rewrite p_id_eq. destruct Hv as [[H1 H2] H3].
    pose proof (tri_pair_lt color1 color2 (n_colors self) ltac:(lia) ltac:(lia)).
    pose proof (tri_nonneg color2). lia.
  - rewrite t_id_eq. destruct Hv as [[H1 H2] H3].
    pose proof (tri_pair_lt color1 color2 (n_colors self) ltac:(lia) ltac:(lia)).
    pose proof (tri_nonneg color2). lia.
  - rewrite m_id_eq. nia.
Qed.

Lemma id_of_inj_same self v v' :
  valid self v = true -> valid self v' = true ->
  fst (kind_bounds self v) = fst (kind_bounds self v') ->
  id_of self v = id_of self v' ->
  match v, v' with
  | ColorAccepting _, ColorAccepting _
  | ColorNode _ _, ColorNode _ _
  | ParentRelation _ _ _, ParentRelation _ _ _
  | EnumerationParent _ _, EnumerationParent _ _
  | TransitionRelation _ _, TransitionRelation _ _
  | EnumerationLabel _ _, EnumerationLabel _ _ => v = v'
  | _, _ => True
  end.
Proof.
  intros Hv Hv' _ E.
  destruct v, v'; try exact I; cbn [valid id_of] in *;
    rewrite ?andb_true_iff, ?in_range_iff, ?Z.ltb_lt in Hv, Hv'.
  - rewrite !z_id_eq in E. f_equal. lia.
  - rewrite !x_id_eq in E.
    destruct (Z.div_mod_unique (n_colors self) node node0 color color0)
      as [-> ->]; try lia. reflexivity.
  - rewrite !y_id_eq in E.
    destruct (Z.div_mod_unique (n_colors self)
                (color2 + n_colors self * token)
                (color3 + n_colors self * token0) color1 color0)
      as [E' ->]; try lia.
    destruct (Z.div_mod_unique (n_colors self) token token0 color2 color3)
      as [-> ->]; try lia. reflexivity.
  - rewrite !p_id_eq in E.
    destruct (tri_pair_inj color1 color2 color0 color3) as [-> ->]; try lia.
    reflexivity.
  - rewrite !t_id_eq in E.
    destruct (tri_pair_inj color1 color2 color0 color3) as [-> ->]; try lia.
    reflexivity.
  - rewrite !m_id_eq in E.
    destruct (Z.div_mod_unique (n_tokens self) color color0 token token0)
      as [-> ->]; try lia. reflexivity.
Qed.

Lemma id_of_surj self id :
  nonneg self -> 1 <= id <= sum (counts self) ->
  exists v, valid self v = true /\ id_of self v = id.
Proof.
  intros (Hn & Hc & Ht) Hid. rewrite total_eq in Hid. unfold off3 in Hid.
  set (nc := n_colors self) in *. set (nn := n_nodes self) in *.
  set (nt := n_tokens self) in *.
  pose proof (tri_nonneg nc) as Htri.
  assert (Hxn : 0 <= nc * nn) by nia.
  assert (Hyn : 0 <= nt * nc * nc) by nia.
  assert (Hmn : 0 <= nc * nt) by nia.
  destruct (Z.le_gt_cases id nc) as [Hz | Hz].
  { exists (ColorAccepting (id - 1)). cbn [valid id_of]. split.
    - apply in_range_iff. fold nc. lia.
    - rewrite z_id_eq. lia. }
  destruct (Z.le_gt_cases id (nc + nc * nn)) as [Hx | Hx].
  { set (k := id - nc - 1).
    assert (Hpos : 0 < nc) by nia.
    pose proof (Z.div_mod k nc ltac:(lia)) as Hdm.
    pose proof (Z.mod_pos_bound k nc Hpos) as Hm.
    assert (0 <= k / nc) by (apply Z.div_pos; unfold k; lia).
    assert (k / nc < nn) by (apply Z.div_lt_upper_bound; unfold k; lia).
    exists (ColorNode (k / nc) (k mod nc)). cbn [valid id_of]. split.
    - rewrite andb_true_iff, !in_range_iff. fold nc nn. lia.
    - rewrite x_id_eq. fold nc. unfold k in *. lia. }
  destruct (Z.le_gt_cases id (nc + nc * nn + nt * nc * nc)) as [Hy | Hy].
  { set (k := id - (nc + nc * nn) - 1).
    assert (Hpos : 0 < nc) by nia.
    pose proof (Z.div_mod k nc ltac:(lia)) as Hdm.
    pose proof (Z.mod_pos_bound k nc Hpos) as Hm.
    pose proof (Z.div_mod (k / nc) nc ltac:(lia)) as Hdm2.
    pose proof (Z.mod_pos_bound (k / nc) nc Hpos) as Hm2.
    assert (0 <= k / nc) by (apply Z.div_pos; unfold k; lia).
    assert (0 <= k / nc / nc) by (apply Z.div_pos; lia).
    assert (k / nc < nt * nc) by (apply Z.div_lt_upper_bound; unfold k; lia).
    assert (k / nc / nc < nt) by (apply Z.div_lt_upper_bound; lia).
    exists (ParentRelation (k / nc / nc) (k mod nc) ((k / nc) mod nc)).
    cbn [valid id_of]. split.
    - rewrite !andb_true_iff, !in_range_iff. fold nc nt. lia.
    - rewrite y_id_eq. fold nc nn. unfold k in *. lia. }
  destruct (Z.le_gt_cases id (nc + nc * nn + nt * nc * nc + tri nc))
    as [Hp | Hp].
  { destruct (tri_inverse nc (id - (nc + nc * nn + nt * nc * nc) - 1) Hc)
      as (c1 & c2 & H1 & H2 & H3); [lia|].
    exists (EnumerationParent c1 c2). cbn [valid id_of]. split.
    - rewrite !andb_true_iff, !in_range_iff, Z.ltb_lt. fold nc. lia.
    - rewrite p_id_eq. unfold off3. fold nc nn nt. lia. }
  destruct (Z.le_gt_cases id (nc + nc * nn + nt * nc * nc + 2 * tri nc))
    as [Ht' | Ht'].
  { destruct (tri_inverse nc
                (id - (nc + nc * nn + nt * nc * nc + tri nc) - 1) Hc)
      as (c1 & c2 & H1 & H2 & H3); [lia|].
    exists (TransitionRelation c1 c2). cbn [valid id_of]. split.
    - rewrite !andb_true_iff, !in_range_iff, Z.ltb_lt. fold nc. lia.
    - rewrite t_id_eq. unfold off3. fold nc nn nt. lia. }
  set (k := id - (nc + nc * nn + nt * nc * nc + 2 * tri nc) - 1).
  assert (Hpos : 0 < nt) by nia.
  pose proof (Z.div_mod k nt ltac:(lia)) as Hdm.
  pose proof (Z.mod_pos_bound k nt Hpos) as Hm.
  assert (0 <= k / nt) by (apply Z.div_pos; unfold k; lia).
  assert (k / nt < nc) by (apply Z.div_lt_upper_bound; unfold k; lia).
  exists (EnumerationLabel (k mod nt) (k / nt)). cbn [valid id_of]. split.
  - rewrite andb_true_iff, !in_range_iff. fold nc nt. lia.
  - rewrite m_id_eq. unfold off3. fold nc nn nt. unfold k in *. lia.
Qed.

(** C1: for a codec with nonnegative parameters, every variable of a valid
    index domain gets an id in [[1, sum(counts)]]; two valid variables with
    the same id are the same variable (so each encoder is injective and the
    images of the six encoders are pairwise disjoint); and every integer of
    [[1, sum(counts)]] is the id of a valid variable. *)
Theorem codec_ranges_tile (self : Codec) :
  nonneg self ->
  (forall v, valid self v = true ->
     exists id, encode self v = Ok id /\ 1 <= id <= sum (counts self)) /\
  (forall v v', valid self v = true -> valid self v' = true ->
     encode self v = encode self v' -> v = v') /\
  (forall id, 1 <= id <= sum (counts self) ->
     exists v, valid self v = true /\ encode self v = Ok id).
Proof.
  intros Hnn. pose proof Hnn as (Hn & Hc & Ht).
  pose proof (tri_nonneg (n_colors self)) as Htri.
  assert (Hxn : 0 <= n_colors self * n_nodes self) by nia.
  assert (Hyn : 0 <= n_tokens self * n_colors self * n_colors self) by nia.
  assert (Hmn : 0 <= n_colors self * n_tokens self) by nia.
  repeat split.
  - intros v Hv. exists (id_of self v). split; [apply encode_valid, Hv|].
    pose proof (id_of_bounds self v Hv) as Hb. rewrite total_eq.
    destruct v; cbn [kind_bounds fst snd] in Hb; unfold off3 in *; lia.
  - intros v v' Hv Hv' E.
    rewrite (encode_valid _ _ Hv), (encode_valid _ _ Hv') in E.
    inversion E as [E'].
    pose proof (id_of_bounds self v Hv) as Hb.
    pose proof (id_of_bounds self v' Hv') as Hb'.
    pose proof (id_of_inj_same self v v' Hv Hv') as Hs.
    destruct v, v'; cbn [kind_bounds fst snd] in Hb, Hb', Hs;
      unfold off3 in *; try (apply Hs; [reflexivity | exact E']); lia.
  - intros id Hid. destruct (id_of_surj self id Hnn Hid) as (v & Hv & <-).
    exists v. split; [exact Hv | apply encode_valid, Hv].
Qed.

Lemma codec_ranges_tile_witness :
  nonneg (mkCodec 3 2 2 None) /\
  (exists id, encode (mkCodec 3 2 2 None) (TransitionRelation 0 1) = Ok id /\
     1 <= id <= sum (counts (mkCodec 3 2 2 None))) /\
  (exists v, valid (mkCodec 3 2 2 None) v = true /\
     encode (mkCodec 3 2 2 None) v = Ok 22).
Proof.
  assert (H : nonneg (mkCodec 3 2 2 None)) by (unfold nonneg; cbn; lia).
  split; [exact H|].
  destruct (codec_ranges_tile (mkCodec 3 2 2 None) H) as (H1 & _ & H3).
  split.
  - apply H1. reflexivity.
  - apply H3. cbn. lia.
Defined.

(** *** Loops in the error monad *)

Lemma bind_ok {A B} (m : result A) (k : A -> result B) r :
  bind m k = Ok r -> exists a, m = Ok a /\ k a = Ok r.
Proof. destruct m; cbn; [eauto | discriminate]. Qed.

Lemma mapM_pure {A B} (f : A -> result B) (g : A -> B) l :
  (forall x, In x l -> f x = Ok (g x)) -> mapM f l = Ok (map g l).
Proof.
  induction l as [|x l IH]; intros H; cbn; [reflexivity|].
  rewrite (H x (or_introl eq_refl)). cbn.
  rewrite IH by (intros; apply H; right; assumption). reflexivity.
Qed.

Lemma flat_mapM_pure {A B} (f : A -> result (list B)) (g : A -> list B) l :
  (forall x, In x l -> f x = Ok (g x)) -> flat_mapM f l = Ok (flat_map g l).
Proof.
  induction l as [|x l IH]; intros H; cbn; [reflexivity|].
  rewrite (H x (or_introl eq_refl)). cbn.
  rewrite IH by (intros; apply H; right; assumption). reflexivity.
Qed.

Lemma mapM_success {A B} (f : A -> result B) l r :
  mapM f l = Ok r -> forall x, In x l -> exists y, f x = Ok y.
Proof.
  revert r. induction l as [|x l IH]; intros r H z Hz; [destruct Hz|].
  cbn in H. apply bind_ok in H as (y & Hy & H).
  apply bind_ok in H as (ys & Hys & _).
  destruct Hz as [<- | Hz]; [eauto | eapply IH; eauto].
Qed.

Lemma flat_mapM_success {A B} (f : A -> result (list B)) l r :
  flat_mapM f l = Ok r -> forall x, In x l -> exists y, f x = Ok y.
Proof.
  revert r. induction l as [|x l IH]; intros r H z Hz; [destruct Hz|].
  cbn in H. apply bind_ok in H as (y & Hy & H).
  apply bind_ok in H as (ys & Hys & _).
  destruct Hz as [<- | Hz]; [eauto | eapply IH; eauto].
Qed.

Lemma color_node_valid self n c :
  0 <= n < n_nodes self -> 0 <= c < n_colors self ->
  color_node self n c = Ok (x_id self n c).
Proof.
  intros Hn Hc. apply (encode_valid self (ColorNode n c)). cbn [valid].
  rewrite andb_true_iff, !in_range_iff. lia.
Qed.

Lemma color_accepting_valid self c :
  0 <= c < n_colors self -> color_accepting self c = Ok (z_id self c).
Proof.
  intros Hc. apply (encode_valid self (ColorAccepting c)). cbn [valid].
  rewrite in_range_iff. lia.
Qed.

Lemma parent_relation_valid self t c1 c2 :
  0 <= t < n_tokens self -> 0 <= c1 < n_colors self ->
  0 <= c2 < n_colors self ->
  parent_relation self t c1 c2 = Ok (y_id self t c1 c2).
Proof.
  intros Ht H1 H2. apply (encode_valid self (ParentRelation t c1 c2)).
  cbn [valid]. rewrite !andb_true_iff, !in_range_iff. lia.
Qed.

Lemma In_tokensXcolors codec t c :
  In (t, c) (tokensXcolors codec) <->
  0 <= t < n_tokens codec /\ 0 <= c < n_colors codec.
Proof. unfold tokensXcolors. rewrite in_prod_iff, !In_range. reflexivity. Qed.

Lemma onehot_color_clauses_eq codec :
  onehot_color_clauses codec = Ok (onehot_color_list codec).
Proof.
  unfold onehot_color_clauses, onehot_color_list, at_most_one.
  erewrite mapM_pure; cycle 1.
  { intros n Hn. apply In_range in Hn. apply mapM_pure.
    intros c Hc. apply In_range in Hc. apply color_node_valid; lia. }
  cbn [bind]. erewrite flat_mapM_pure; cycle 1.
  { intros n Hn. apply In_range in Hn. apply flat_mapM_pure.
    intros i Hi. apply In_range in Hi.
    rewrite color_node_valid by lia. cbn [bind]. apply mapM_pure.
    intros j Hj. apply In_range2 in Hj.
    rewrite color_node_valid by lia. reflexivity. }
  reflexivity.
Qed.

Lemma onehot_parent_relation_clauses_eq codec :
  onehot_parent_relation_clauses codec
  = Ok (onehot_parent_relation_list codec).
Proof.
  unfold onehot_parent_relation_clauses, onehot_parent_relation_list.
  rewrite (mapM_pure _
             (fun '(token, i) =>
                map (y_id codec token i) (range (n_colors codec)))).
  2:{ intros [t i] Hti. apply In_tokensXcolors in Hti. apply mapM_pure.
      intros c Hc. apply In_range in Hc. apply parent_relation_valid; lia. }
  cbn [bind].
  rewrite (flat_mapM_pure _
             (fun '(token, i) =>
                at_most_one (y_id codec token i) (n_colors codec))).
  2:{ intros [t i] Hti. apply In_tokensXcolors in Hti. unfold at_most_one.
      apply flat_mapM_pure.
      intros h Hh. apply In_range in Hh.
      rewrite parent_relation_valid by lia. cbn [bind]. apply mapM_pure.
      intros j Hj. apply In_range2 in Hj.
      rewrite parent_relation_valid by lia. reflexivity. }
  reflexivity.
Qed.

(** *** Satisfaction *)

Lemma satisfies_app a l1 l2 :
  satisfies a (l1 ++ l2) = satisfies a l1 && satisfies a l2.
Proof. apply forallb_app. Qed.

Lemma satisfies_In a cls cl :
  satisfies a cls = true -> In cl cls -> clause_true a cl = true.
Proof. intros H Hin. unfold satisfies in H. rewrite forallb_forall in H. auto. Qed.

Lemma satisfies_incl a cls cls' :
  satisfies a cls = true -> incl cls' cls -> satisfies a cls' = true.
Proof.
  intros H Hi. apply forallb_forall. intros cl Hcl.
  eapply satisfies_In; eauto.
Qed.

Lemma lit_true_pos a x : 0 < x -> lit_true a x = a x.
Proof. intros H. unfold lit_true. apply Z.ltb_lt in H. rewrite H. reflexivity. Qed.

Lemma lit_true_neg a x : 0 < x -> lit_true a (- x) = negb (a x).
Proof.
  intros H. unfold lit_true.
  destruct (Z.ltb_spec 0 (- x)); [lia|].
  destruct (Z.ltb_spec (- x) 0); [|lia].
  rewrite Z.opp_involutive. reflexivity.
Qed.

Lemma In_at_most_one f n i j :
  0 <= i -> i < j -> j < n -> In [- f i; - f j] (at_most_one f n).
Proof.
  intros Hi Hij Hj. unfold at_most_one. apply in_flat_map.
  exists i. split; [apply In_range; lia|].
  apply in_map_iff. exists j. split; [reflexivity | apply In_range2; lia].
Qed.

(** An at-least-one clause and the pairwise at-most-one clauses over the
    same positive ids leave exactly one of them true. *)
Lemma one_hot a f n cls :
  (forall c, 0 <= c < n -> 0 < f c) ->
  In (map f (range n)) cls -> incl (at_most_one f n) cls ->
  satisfies a cls = true ->
  exists c, 0 <= c < n /\ a (f c) = true /\
    forall c', 0 <= c' < n -> a (f c') = true -> c' = c.
Proof.
  intros Hpos Hal Ham Hsat.
  pose proof (satisfies_In a cls _ Hsat Hal) as H1.
  unfold clause_true in H1. apply existsb_exists in H1 as (lit & Hlit & Ht).
  apply in_map_iff in Hlit as (c & <- & Hc). apply In_range in Hc.
  rewrite lit_true_pos in Ht by auto.
  exists c. repeat split; try lia; [exact Ht|].
  intros c' Hc' Ht'.
  assert (Hno : forall i j, 0 <= i -> i < j -> j < n ->
                  a (f i) = true -> a (f j) = true -> False).
  { intros i j Hi Hij Hj Hai Haj.
    pose proof (satisfies_In a cls _ Hsat
                  (Ham _ (In_at_most_one f n i j Hi Hij Hj))) as H2.
    cbn [clause_true existsb] in H2.
    rewrite !lit_true_neg, Hai, Haj in H2 by (apply Hpos; lia).
    discriminate. }
  destruct (Z.lt_trichotomy c' c) as [H | [H | H]]; [|exact H|].
  - exfalso. apply (Hno c' c); auto; lia.
  - exfalso. apply (Hno c c'); auto; lia.
Qed.

Lemma x_id_pos self n c :
  0 <= n < n_nodes self -> 0 <= c < n_colors self -> 0 < x_id self n c.
Proof. intros Hn Hc. rewrite x_id_eq. nia. Qed.

Lemma y_id_pos self t c1 c2 :
  0 <= n_nodes self ->
  0 <= t -> 0 <= c1 < n_colors self -> 0 <= c2 < n_colors self ->
  0 < y_id self t c1 c2.
Proof. intros Hn Ht H1 H2. rewrite y_id_eq. nia. Qed.

Lemma z_id_pos self c : 0 <= c -> 0 < z_id self c.
Proof. intros Hc. rewrite z_id_eq. lia. Qed.

Lemma encode_dfa_id_inv apta codec cgraph clique cls :
  encode_dfa_id apta codec cgraph clique = Ok cls ->
  exists c2 c3 c5 c6,
    partition_by_accepting_clauses codec apta = Ok c2 /\
    colors_parent_rel_coupling_clauses codec apta = Ok c3 /\
    determination_conflicts codec cgraph = Ok c5 /\
    (if mode_is (symm_mode codec) "clique" then
       symmetry_breaking codec clique
     else if mode_is (symm_mode codec) "bfs" then
       common <- symmetry_breaking_common codec ;;
       bfs <- symmetry_breaking_bfs codec ;;
       Ok (common ++ bfs)
     else Ok []) = Ok c6 /\
    cls = onehot_color_list codec ++ c2 ++ c3
          ++ onehot_parent_relation_list codec ++ c5 ++ c6.
Proof.
  unfold encode_dfa_id.
  rewrite onehot_color_clauses_eq, onehot_parent_relation_clauses_eq.
  cbn [bind]. intros H.
  apply bind_ok in H as (c2 & H2 & H).
  apply bind_ok in H as (c3 & H3 & H). cbn [bind] in H.
  apply bind_ok in H as (c5 & H5 & H).
  apply bind_ok in H as (c6 & H6 & H).
  inversion H. exists c2, c3, c5, c6. auto.
Qed.

Lemma var_true_valid a self v :
  valid self v = true -> var_true a self v = a (id_of self v).
Proof. intros H. unfold var_true. rewrite encode_valid by exact H. reflexivity. Qed.

(** C5: in every assignment satisfying the clauses of [encode_dfa_id],
    every node has exactly one color [c] with [ColorNode(node, c)] true, and
    every pair (token, color1) has exactly one color [c] with
    [ParentRelation(token, color1, c)] true. *)
Theorem onehot_semantics apta codec cgraph clique cls a :
  nonneg codec ->
  encode_dfa_id apta codec cgraph clique = Ok cls ->
  satisfies a cls = true ->
  (forall n, 0 <= n < n_nodes codec ->
     exists c, 0 <= c < n_colors codec /\
       var_true a codec (ColorNode n c) = true /\
       forall c', 0 <= c' < n_colors codec ->
         var_true a codec (ColorNode n c') = true -> c' = c) /\
  (forall t c1, 0 <= t < n_tokens codec -> 0 <= c1 < n_colors codec ->
     exists c, 0 <= c < n_colors codec /\
       var_true a codec (ParentRelation t c1 c) = true /\
       forall c', 0 <= c' < n_colors codec ->
         var_true a codec (ParentRelation t c1 c') = true -> c' = c).
Proof.
  intros (Hnn & _ & _) Henc Hsat.
  apply encode_dfa_id_inv in Henc as (c2 & c3 & c5 & c6 & _ & _ & _ & _ & ->).
  split.
  - intros n Hn.
    eassert (Hal : In (map (x_id codec n) (range (n_colors codec))) _);
      [|eassert (Ham : incl (at_most_one (x_id codec n) (n_colors codec)) _);
        [|destruct (one_hot a (x_id codec n) (n_colors codec) _
                     (fun c Hc => x_id_pos codec n c Hn Hc) Hal Ham Hsat)
            as (c & Hc & Ht & Hu)]].
    + apply in_or_app. left. unfold onehot_color_list.
      apply in_or_app. left. apply in_map_iff.
      exists n. split; [reflexivity | apply In_range; lia].
    + intros cl Hcl. apply in_or_app. left. unfold onehot_color_list.
      apply in_or_app. right. apply in_flat_map.
      exists n. split; [apply In_range; lia | exact Hcl].
    + assert (Hv : forall c, 0 <= c < n_colors codec ->
                     valid codec (ColorNode n c) = true).
      { intros c0 Hc0. cbn [valid].
        rewrite andb_true_iff, !in_range_iff. lia. }
      exists c. split; [exact Hc|]. split.
      * rewrite var_true_valid by auto. exact Ht.
      * intros c' Hc' Ht'. rewrite var_true_valid in Ht' by auto. auto.
  - intros t c1 Ht H1.
    eassert (Hal : In (map (y_id codec t c1) (range (n_colors codec))) _);
      [|eassert (Ham : incl (at_most_one (y_id codec t c1) (n_colors codec))
                         _);
        [|destruct (one_hot a (y_id codec t c1) (n_colors codec) _
                     (fun c Hc => y_id_pos codec t c1 c Hnn (proj1 Ht) H1 Hc)
                     Hal Ham Hsat) as (c & Hc & Htr & Hu)]].
    + apply in_or_app. right. apply in_or_app. right. apply in_or_app. right.
      apply in_or_app. left. unfold onehot_parent_relation_list.
      apply in_or_app. left. apply in_map_iff.
      exists (t, c1). split; [reflexivity | apply In_tokensXcolors; lia].
    + intros cl Hcl.
      apply in_or_app. right. apply in_or_app. right. apply in_or_app. right.
      apply in_or_app. left. unfold onehot_parent_relation_list.
      apply in_or_app. right. apply in_flat_map.
      exists (t, c1). split; [apply In_tokensXcolors; lia | exact Hcl].
    + assert (Hv : forall c, 0 <= c < n_colors codec ->
                     valid codec (ParentRelation t c1 c) = true).
      { intros c0 Hc0. cbn [valid].
        rewrite !andb_true_iff, !in_range_iff. lia. }
      exists c. split; [exact Hc|]. split.
      * rewrite var_true_valid by auto. exact Htr.
      * intros c' Hc' Ht'. rewrite var_true_valid in Ht' by auto. auto.
Qed.

Lemma onehot_semantics_witness :
  nonneg (codec3 None) /\
  exists cls,
    encode_dfa_id apta3 (codec3 None) (consistency_graph apta3) None = Ok cls /\
    satisfies model3 cls = true /\
    (forall n, 0 <= n < n_nodes (codec3 None) ->
       exists c, 0 <= c < n_colors (codec3 None) /\
         var_true model3 (codec3 None) (ColorNode n c) = true /\
         forall c', 0 <= c' < n_colors (codec3 None) ->
           var_true model3 (codec3 None) (ColorNode n c') = true -> c' = c).
Proof.
  assert (Hn : nonneg (codec3 None)) by (unfold nonneg; cbn; lia).
  split; [exact Hn|]. eexists.
  assert (He : encode_dfa_id apta3 (codec3 None) (consistency_graph apta3) None
               = Ok _) by (vm_compute; reflexivity).
  split; [exact He|].
  match goal with
  | |- satisfies model3 ?c = true /\ _ =>
      assert (Hs : satisfies model3 c = true) by (vm_compute; reflexivity)
  end.
  split; [exact Hs|].
  exact (proj1 (onehot_semantics apta3 (codec3 None) (consistency_graph apta3)
                  None _ model3 Hn He Hs)).
Defined.

(** C6: for the 3-node tree and two colors the counts of the three main
    kinds are 2, 6 and 8; the clauses are satisfiable; and every satisfying
    assignment gives nodes 1 and 2 one color each, two different colors, the
    color of node 1 accepting and the color of node 2 not accepting. *)
Theorem scenario_three_nodes :
  counts (codec3 None) = [2; 6; 8; 1; 1; 4] /\
  exists cls,
    encode_dfa_id apta3 (codec3 None) (consistency_graph apta3) None = Ok cls /\
    (exists a, satisfies a cls = true) /\
    forall a, satisfies a cls = true ->
      exists c1 c2,
        0 <= c1 < 2 /\ 0 <= c2 < 2 /\
        (forall c, 0 <= c < 2 ->
           (var_true a (codec3 None) (ColorNode 1 c) = true <-> c = c1)) /\
        (forall c, 0 <= c < 2 ->
           (var_true a (codec3 None) (ColorNode 2 c) = true <-> c = c2)) /\
        c1 <> c2 /\
        var_true a (codec3 None) (ColorAccepting c1) = true /\
        var_true a (codec3 None) (ColorAccepting c2) = false.
Proof.
  split; [reflexivity|]. eexists. split; [vm_compute; reflexivity|]. split.
  - exists model3. vm_compute. reflexivity.
  - intros a Hsat. unfold satisfies in Hsat. rewrite forallb_forall in Hsat.
    assert (E10 : var_true a (codec3 None) (ColorNode 1 0) = a 5)
      by (rewrite var_true_valid; reflexivity).
    assert (E11 : var_true a (codec3 None) (ColorNode 1 1) = a 6)
      by (rewrite var_true_valid; reflexivity).
    assert (E20 : var_true a (codec3 None) (ColorNode 2 0) = a 7)
      by (rewrite var_true_valid; reflexivity).
    assert (E21 : var_true a (codec3 None) (ColorNode 2 1) = a 8)
      by (rewrite var_true_valid; reflexivity).
    assert (A0 : var_true a (codec3 None) (ColorAccepting 0) = a 1)
      by (rewrite var_true_valid; reflexivity).
    assert (A1 : var_true a (codec3 None) (ColorAccepting 1) = a 2)
      by (rewrite var_true_valid; reflexivity).
    pose proof (Hsat [5; 6] ltac:(cbn; tauto)) as H1.
    pose proof (Hsat [7; 8] ltac:(cbn; tauto)) as H2.
    pose proof (Hsat [-5; -6] ltac:(cbn; tauto)) as H3.
    pose proof (Hsat [-7; -8] ltac:(cbn; tauto)) as H4.
    pose proof (Hsat [-5; 1] ltac:(cbn; tauto)) as H5.
    pose proof (Hsat [-7; -1] ltac:(cbn; tauto)) as H6.
    pose proof (Hsat [-6; 2] ltac:(cbn; tauto)) as H7.
    pose proof (Hsat [-8; -2] ltac:(cbn; tauto)) as H8.
    clear Hsat. cbn in H1, H2, H3, H4, H5, H6, H7, H8.
    assert (Hcase : forall c, 0 <= c < 2 -> c = 0 \/ c = 1) by (intros; lia).
    destruct (a 5) eqn:X5, (a 6) eqn:X6, (a 7) eqn:X7, (a 8) eqn:X8,
      (a 1) eqn:X1, (a 2) eqn:X2; try discriminate.
    + exists 0, 1. rewrite A0, A1.
      repeat split; try lia; try assumption;
        try (destruct (Hcase c) as [-> | ->]; auto; congruence).
    + exists 1, 0. rewrite A0, A1.
      repeat split; try lia; try assumption;
        try (destruct (Hcase c) as [-> | ->]; auto; congruence).
Qed.

(** *** The clauses of the BFS ordering *)

Lemma enumeration_parent_valid self c1 c2 :
  0 <= c1 -> c1 < c2 -> c2 < n_colors self ->
  enumeration_parent self c1 c2 = Ok (p_id self c1 c2).
Proof.
  intros H0 H1 H2. apply (encode_valid self (EnumerationParent c1 c2)).
  cbn [valid]. rewrite !andb_true_iff, !in_range_iff, Z.ltb_lt. lia.
Qed.

Lemma transition_relation_valid self c1 c2 :
  0 <= c1 -> c1 < c2 -> c2 < n_colors self ->
  transition_relation self c1 c2 = Ok (t_id self c1 c2).
Proof.
  intros H0 H1 H2. apply (encode_valid self (TransitionRelation c1 c2)).
  cbn [valid]. rewrite !andb_true_iff, !in_range_iff, Z.ltb_lt. lia.
Qed.

Lemma enumeration_label_valid self t c :
  0 <= t < n_tokens self -> 0 <= c < n_colors self ->
  enumeration_label self t c = Ok (m_id self t c).
Proof.
  intros Ht Hc. apply (encode_valid self (EnumerationLabel t c)).
  cbn [valid]. rewrite !andb_true_iff, !in_range_iff. lia.
Qed.

Lemma symmetry_breaking_common_eq codec :
  symmetry_breaking_common codec =
  (root <- color_node codec 0 0 ;;
   Ok ([ [root] ] ++ tl (symmetry_breaking_common_list codec))).
Proof.
  unfold symmetry_breaking_common, symmetry_breaking_common_list.
  destruct (color_node codec 0 0) as [root|e]; [|reflexivity].
  cbn [bind tl app].
  erewrite flat_mapM_pure; [reflexivity|].
  intros color2 H2. apply In_range in H2.
  rewrite (mapM_pure _ (fun color1 => p_id codec color1 color2)).
  2:{ intros c1 H1. apply In_range in H1.
      apply enumeration_parent_valid; lia. }
  erewrite flat_mapM_pure; cycle 1.
  { intros color1 H1. apply In_range in H1.
    rewrite enumeration_parent_valid, transition_relation_valid by lia.
    cbn [bind].
    rewrite (mapM_pure _ (fun l => y_id codec l color1 color2)).
    2:{ intros l Hl. apply In_range in Hl.
        apply parent_relation_valid; lia. }
    cbn [bind].
    erewrite flat_mapM_pure; cycle 1.
    { intros token2 Ht2. apply In_range in Ht2.
      rewrite parent_relation_valid, enumeration_label_valid by lia.
      cbn [bind].
      rewrite (mapM_pure _ (fun l => y_id codec l color1 color2)).
      2:{ intros l Hl. apply In_range in Hl.
          apply parent_relation_valid; lia. }
      cbn [bind].
      erewrite mapM_pure; cycle 1.
      { intros token1 Ht1. apply In_range in Ht1.
        cbn [bind]. rewrite parent_relation_valid by lia.
        cbn [bind]. reflexivity. }
      cbn [bind]. reflexivity. }
    cbn [bind]. reflexivity. }
  destruct (0 <? color2); reflexivity.
Qed.

Lemma symmetry_breaking_bfs_eq codec :
  symmetry_breaking_bfs codec = Ok (symmetry_breaking_bfs_list codec).
Proof.
  unfold symmetry_breaking_bfs, symmetry_breaking_bfs_list.
  apply flat_mapM_pure. intros color2 H2. apply In_range in H2.
  apply flat_mapM_pure. intros color1 H1. apply In_range in H1.
  rewrite enumeration_parent_valid, transition_relation_valid by lia.
  cbn [bind].
  erewrite mapM_pure; cycle 1.
  { intros color3 H3. apply In_range in H3.
    rewrite transition_relation_valid by lia. reflexivity. }
  cbn [bind].
  rewrite (mapM_pure _ (fun color3 => t_id codec color3 color2)).
  2:{ intros color3 H3. apply In_range in H3.
      apply transition_relation_valid; lia. }
  cbn [bind].
  destruct (Z.ltb_spec (color2 + 1) (n_colors codec)); [|reflexivity].
  erewrite mapM_pure; cycle 1.
  { intros color3 H3. apply In_range in H3.
    rewrite enumeration_parent_valid by lia. reflexivity. }
  cbn [bind].
  erewrite flat_mapM_pure; cycle 1.
  { intros token2 Ht2. apply In_range in Ht2.
    apply mapM_pure. intros token1 Ht1. apply In_range in Ht1.
    rewrite enumeration_parent_valid by lia.
    rewrite !enumeration_label_valid by lia. reflexivity. }
  reflexivity.
Qed.

Lemma In_common_at_least codec j :
  0 < j < n_colors codec ->
  In (map (fun i => p_id codec i j) (range j))
     (tl (symmetry_breaking_common_list codec)).
Proof.
  intros Hj. unfold symmetry_breaking_common_list. cbn [app tl].
  apply in_flat_map. exists j. split; [apply In_range; lia|].
  apply in_or_app. left.
  destruct (Z.ltb_spec 0 j); [left; reflexivity | lia].
Qed.

Lemma In_common_parent_transition codec i j :
  0 <= i -> i < j -> j < n_colors codec ->
  In [t_id codec i j; - p_id codec i j]
     (tl (symmetry_breaking_common_list codec)).
Proof.
  intros Hi Hij Hj. unfold symmetry_breaking_common_list. cbn [app tl].
  apply in_flat_map. exists j. split; [apply In_range; lia|].
  apply in_or_app. right.
  apply in_flat_map. exists i. split; [apply In_range; lia|].
  cbv zeta. right. left. reflexivity.
Qed.

Lemma In_bfs_earlier_transition codec i3 i j :
  0 <= i3 -> i3 < i -> i < j -> j < n_colors codec ->
  In [- p_id codec i j; - t_id codec i3 j] (symmetry_breaking_bfs_list codec).
Proof.
  intros H3 H3i Hij Hj. unfold symmetry_breaking_bfs_list.
  apply in_flat_map. exists j. split; [apply In_range; lia|].
  apply in_flat_map. exists i. split; [apply In_range; lia|].
  cbv zeta. apply in_or_app. left.
  apply in_map_iff. exists i3. split; [reflexivity | apply In_range; lia].
Qed.

Lemma off3_nonneg self : nonneg self -> 0 <= off3 self.
Proof. intros (Hn & Hc & Ht). unfold off3. nia. Qed.

Lemma p_id_pos self c1 c2 : nonneg self -> 0 <= c1 -> 0 < p_id self c1 c2.
Proof.
  intros H H1. rewrite p_id_eq. pose proof (off3_nonneg self H).
  pose proof (tri_nonneg c2). lia.
Qed.

Lemma t_id_pos self c1 c2 : nonneg self -> 0 <= c1 -> 0 < t_id self c1 c2.
Proof.
  intros H H1. rewrite t_id_eq. pose proof (off3_nonneg self H).
  pose proof (tri_nonneg c2). pose proof (tri_nonneg (n_colors self)). lia.
Qed.

Lemma encode_dfa_id_bfs apta codec cgraph clique cls :
  symm_mode codec = Some "bfs" ->
  encode_dfa_id apta codec cgraph clique = Ok cls ->
  exists root base,
    color_node codec 0 0 = Ok root /\
    cls = base ++ ([root] :: tl (symmetry_breaking_common_list codec))
               ++ symmetry_breaking_bfs_list codec.
Proof.
  intros Hm H.
  apply encode_dfa_id_inv in H as (c2 & c3 & c5 & c6 & _ & _ & _ & H6 & ->).
  rewrite Hm in H6. cbn [mode_is] in H6.
  change ("bfs" =? "clique")%string with false in H6.
  change ("bfs" =? "bfs")%string with true in H6. cbv iota in H6.
  rewrite symmetry_breaking_common_eq, symmetry_breaking_bfs_eq in H6.
  apply bind_ok in H6 as (cm & Hcm & H6). cbn [bind] in H6.
  apply bind_ok in Hcm as (root & Hroot & Hcm).
  inversion Hcm; subst cm. inversion H6; subst c6.
  exists root,
    (onehot_color_list codec ++ c2 ++ c3
     ++ onehot_parent_relation_list codec ++ c5).
  split; [exact Hroot|]. rewrite <- !app_assoc. reflexivity.
Qed.

(** C7: under the BFS symmetry breaking, in every assignment satisfying the
    clauses of [encode_dfa_id], every color [j] with [0 < j < n_colors] has
    exactly one color [i < j] with [EnumerationParent(i, j)] true. *)
Theorem bfs_parent_onehot apta codec cgraph clique cls a :
  nonneg codec ->
  symm_mode codec = Some "bfs" ->
  encode_dfa_id apta codec cgraph clique = Ok cls ->
  satisfies a cls = true ->
  forall j, 0 < j < n_colors codec ->
    exists i, 0 <= i < j /\
      var_true a codec (EnumerationParent i j) = true /\
      forall i', 0 <= i' < j ->
        var_true a codec (EnumerationParent i' j) = true -> i' = i.
Proof.
  intros Hnn Hm Henc Hsat j Hj.
  apply encode_dfa_id_bfs in Henc as (root & base & _ & ->); [|exact Hm].
  rewrite satisfies_app in Hsat. apply andb_true_iff in Hsat as [_ Hsat].
  rewrite satisfies_app in Hsat. apply andb_true_iff in Hsat as [Hcm Hbfs].
  assert (Hcm' : satisfies a (tl (symmetry_breaking_common_list codec)) = true).
  { apply (satisfies_incl a _ _ Hcm). intros cl Hcl. right. exact Hcl. }
  assert (Hv : forall i, 0 <= i < j ->
                 var_true a codec (EnumerationParent i j)
                 = a (p_id codec i j)).
  { intros i Hi. apply (var_true_valid a codec (EnumerationParent i j)).
    cbn [valid]. rewrite !andb_true_iff, !in_range_iff, Z.ltb_lt. lia. }
  pose proof (satisfies_In a _ _ Hcm' (In_common_at_least codec j Hj)) as H1.
  unfold clause_true in H1. apply existsb_exists in H1 as (lit & Hlit & Ht).
  apply in_map_iff in Hlit as (i & <- & Hi). apply In_range in Hi.
  rewrite lit_true_pos in Ht by (apply p_id_pos; [exact Hnn | lia]).
  exists i. split; [exact Hi|]. split; [rewrite Hv by exact Hi; exact Ht|].
  intros i' Hi' Ht'. rewrite Hv in Ht' by exact Hi'.
  assert (Hno : forall i1 i2, 0 <= i1 -> i1 < i2 -> i2 < j ->
                  a (p_id codec i1 j) = true -> a (p_id codec i2 j) = true ->
                  False).
  { intros i1 i2 H0 H12 H2j A1 A2.
    pose proof (satisfies_In a _ _ Hcm'
                  (In_common_parent_transition codec i1 j H0 ltac:(lia)
                     ltac:(lia))) as T1.
    pose proof (satisfies_In a _ _ Hbfs
                  (In_bfs_earlier_transition codec i1 i2 j H0 H12 H2j
                     ltac:(lia))) as T2.
    cbn [clause_true existsb] in T1, T2.
    rewrite lit_true_pos in T1 by (apply t_id_pos; [exact Hnn | lia]).
    rewrite !lit_true_neg in T2
      by (first [apply t_id_pos | apply p_id_pos]; [exact Hnn | lia]).
    rewrite lit_true_neg in T1 by (apply p_id_pos; [exact Hnn | lia]).
    rewrite A1 in T1. rewrite A2 in T2. cbn in T1, T2.
    destruct (a (t_id codec i1 j)); discriminate. }
  destruct (Z.lt_trichotomy i' i) as [H | [H | H]]; [|exact H|].
  - exfalso. apply (Hno i' i); auto; lia.
  - exfalso. apply (Hno i i'); auto; lia.
Qed.

Lemma bfs_parent_onehot_witness :
  nonneg (codec3 (Some "bfs")) /\
  symm_mode (codec3 (Some "bfs")) = Some "bfs" /\
  exists cls,
    encode_dfa_id apta3 (codec3 (Some "bfs")) (consistency_graph apta3) None
    = Ok cls /\
    satisfies model3 cls = true /\
    forall j, 0 < j < n_colors (codec3 (Some "bfs")) ->
      exists i, 0 <= i < j /\
        var_true model3 (codec3 (Some "bfs")) (EnumerationParent i j) = true /\
        forall i', 0 <= i' < j ->
          var_true model3 (codec3 (Some "bfs")) (EnumerationParent i' j) = true
          -> i' = i.
Proof.
  assert (Hn : nonneg (codec3 (Some "bfs"))) by (unfold nonneg; cbn; lia).
  split; [exact Hn|]. split; [reflexivity|]. eexists.
  assert (He : encode_dfa_id apta3 (codec3 (Some "bfs"))
                 (consistency_graph apta3) None = Ok _)
    by (vm_compute; reflexivity).
  split; [exact He|].
  match goal with
  | |- satisfies model3 ?c = true /\ _ =>
      assert (Hs : satisfies model3 c = true) by (vm_compute; reflexivity)
  end.
  split; [exact Hs|].
  exact (bfs_parent_onehot apta3 (codec3 (Some "bfs")) (consistency_graph apta3)
           None _ model3 Hn eq_refl He Hs).
Defined.

(** *** The loops over the tree and the graph *)

Lemma color_node_ok_inv self n c v :
  color_node self n c = Ok v ->
  node_ok self n /\ 0 <= c < n_colors self /\ v = x_id self n c.
Proof.
  intros H. apply (encode_ok_inv self (ColorNode n c)) in H as [Hv ->].
  cbn [valid] in Hv. rewrite andb_true_iff, !in_range_iff in Hv.
  unfold node_ok. cbn [id_of]. tauto.
Qed.

Lemma parent_relation_ok_inv self t c1 c2 v :
  parent_relation self t c1 c2 = Ok v ->
  0 <= t < n_tokens self /\ v = y_id self t c1 c2.
Proof.
  intros H. apply (encode_ok_inv self (ParentRelation t c1 c2)) in H as [Hv ->].
  cbn [valid] in Hv. rewrite !andb_true_iff, !in_range_iff in Hv.
  cbn [id_of]. tauto.
Qed.

Lemma range_first n : 0 < n -> In 0 (range n).
Proof. intros H. apply In_range. lia. Qed.

Lemma partition_by_accepting_run codec apta :
  partition_ok codec apta ->
  partition_by_accepting_clauses codec apta
  = Ok (partition_by_accepting_list codec apta).
Proof.
  intros Hok. unfold partition_by_accepting_clauses,
    partition_by_accepting_list.
  apply flat_mapM_pure. intros c Hc. apply In_range in Hc.
  rewrite color_accepting_valid by lia. cbn [bind].
  erewrite mapM_pure; cycle 1.
  { intros n Hn. rewrite color_node_valid;
      [reflexivity | apply Hok; [lia | auto] | lia]. }
  cbn [bind]. erewrite mapM_pure; cycle 1.
  { intros n Hn. rewrite color_node_valid;
      [reflexivity | apply Hok; [lia | auto] | lia]. }
  reflexivity.
Qed.

Lemma partition_by_accepting_ok codec apta cls :
  partition_by_accepting_clauses codec apta = Ok cls ->
  partition_ok codec apta.
Proof.
  intros H Hc n Hn. unfold partition_by_accepting_clauses in H.
  destruct (flat_mapM_success _ _ _ H 0 (range_first _ Hc)) as [y Hy].
  apply bind_ok in Hy as (lit & _ & Hy).
  apply bind_ok in Hy as (acc & Hacc & Hy).
  apply bind_ok in Hy as (rej & Hrej & _).
  destruct Hn as [Hn | Hn].
  - destruct (mapM_success _ _ _ Hacc n Hn) as [cl Hcl].
    apply bind_ok in Hcl as (x & Hx & _).
    apply color_node_ok_inv in Hx. tauto.
  - destruct (mapM_success _ _ _ Hrej n Hn) as [cl Hcl].
    apply bind_ok in Hcl as (x & Hx & _).
    apply color_node_ok_inv in Hx. tauto.
Qed.

Lemma determination_conflicts_run codec cgraph :
  conflicts_ok codec cgraph ->
  determination_conflicts codec cgraph
  = Ok (determination_conflicts_list codec cgraph).
Proof.
  intros Hok. unfold determination_conflicts, determination_conflicts_list.
  apply flat_mapM_pure. intros [n1 n2] Hn.
  apply mapM_pure. intros c Hc. apply In_range in Hc.
  destruct (Hok ltac:(lia) n1 n2 Hn) as [H1 H2].
  rewrite !color_node_valid by (assumption || lia). reflexivity.
Qed.

Lemma determination_conflicts_ok codec cgraph cls :
  determination_conflicts codec cgraph = Ok cls ->
  conflicts_ok codec cgraph.
Proof.
  intros H Hc n1 n2 Hn. unfold determination_conflicts in H.
  destruct (flat_mapM_success _ _ _ H (n1, n2) Hn) as [y Hy].
  destruct (mapM_success _ _ _ Hy 0 (range_first _ Hc)) as [cl Hcl].
  apply bind_ok in Hcl as (x1 & Hx1 & Hcl).
  apply bind_ok in Hcl as (x2 & Hx2 & _).
  apply color_node_ok_inv in Hx1, Hx2. tauto.
Qed.

Lemma colors_parent_rel_coupling_run codec apta :
  coupling_ok codec apta ->
  colors_parent_rel_coupling_clauses codec apta
  = Ok (colors_parent_rel_coupling_list codec apta).
Proof.
  intros Hok. unfold colors_parent_rel_coupling_clauses,
    colors_parent_rel_coupling_list. cbv zeta.
  apply flat_mapM_pure. intros node Hnode.
  apply flat_mapM_pure. intros i Hi. apply In_range in Hi.
  apply flat_mapM_pure. intros j Hj. apply In_range in Hj.
  destruct (Hok ltac:(lia) node Hnode)
    as (Hn & parent & rest & src & token & E1 & E2 & E3 & Hp & Ht).
  unfold parent_of, token_of. rewrite E1, E2. cbn [bind hd].
  rewrite E3. cbn [bind].
  rewrite !color_node_valid, parent_relation_valid by (assumption || lia).
  reflexivity.
Qed.

Lemma colors_parent_rel_coupling_ok codec apta cls :
  colors_parent_rel_coupling_clauses codec apta = Ok cls ->
  coupling_ok codec apta.
Proof.
  intros H Hc node Hnode. unfold colors_parent_rel_coupling_clauses in H.
  cbv zeta in H.
  destruct (flat_mapM_success _ _ _ H node Hnode) as [y1 H1].
  destruct (flat_mapM_success _ _ _ H1 0 (range_first _ Hc)) as [y2 H2].
  destruct (flat_mapM_success _ _ _ H2 0 (range_first _ Hc)) as [y3 H3].
  apply bind_ok in H3 as (parent & Hp & H3).
  apply bind_ok in H3 as (src & Hs & H3).
  apply bind_ok in H3 as (token & Ht & H3).
  apply bind_ok in H3 as (pc & Hpc & H3).
  apply bind_ok in H3 as (ncl & Hnc & H3).
  apply bind_ok in H3 as (pr & Hpr & _).
  apply color_node_ok_inv in Hpc, Hnc. apply parent_relation_ok_inv in Hpr.
  split; [tauto|].
  destruct (tree_parents apta node) as [|p rest] eqn:E1; [discriminate|].
  destruct (source apta node) as [s0|] eqn:E2; [|discriminate].
  inversion Hp; subst p. inversion Hs; subst s0.
  exists parent, rest, src, token. tauto.
Qed.

Lemma symmetry_breaking_run codec clique :
  clique_ok codec clique ->
  symmetry_breaking codec (Some clique)
  = Ok (symmetry_breaking_list codec clique).
Proof.
  intros Hok. unfold symmetry_breaking, symmetry_breaking_list.
  apply (mapM_pure _ (fun '(color, node) => [x_id codec node color])).
  intros [color node] Hin. destruct (Hok color node Hin) as [Hc Hn].
  rewrite color_node_valid by assumption. reflexivity.
Qed.

Lemma symmetry_breaking_ok codec clique cls :
  symmetry_breaking codec clique = Ok cls ->
  exists members, clique = Some members /\ clique_ok codec members.
Proof.
  intros H. destruct clique as [members|]; [|discriminate].
  exists members. split; [reflexivity|]. intros color node Hin.
  cbn [symmetry_breaking] in H.
  destruct (mapM_success _ _ _ H (color, node) Hin) as [cl Hcl].
  apply bind_ok in Hcl as (x & Hx & _).
  apply color_node_ok_inv in Hx. tauto.
Qed.

Lemma encode_dfa_id_ok apta codec cgraph clique cls :
  encode_dfa_id apta codec cgraph clique = Ok cls ->
  base_ok codec apta cgraph /\
  exists c6, symmetry_extension codec clique = Ok c6 /\
             cls = base_list codec apta cgraph ++ c6.
Proof.
  intros H.
  apply encode_dfa_id_inv in H as (c2 & c3 & c5 & c6 & H2 & H3 & H5 & H6 & ->).
  pose proof (partition_by_accepting_ok _ _ _ H2) as O2.
  pose proof (colors_parent_rel_coupling_ok _ _ _ H3) as O3.
  pose proof (determination_conflicts_ok _ _ _ H5) as O5.
  rewrite partition_by_accepting_run in H2 by exact O2.
  rewrite colors_parent_rel_coupling_run in H3 by exact O3.
  rewrite determination_conflicts_run in H5 by exact O5.
  inversion H2. inversion H3. inversion H5.
  split; [exact (conj O2 (conj O3 O5))|].
  exists c6. split; [exact H6|].
  unfold base_list. rewrite <- !app_assoc. reflexivity.
Qed.

Lemma encode_dfa_id_run apta codec cgraph clique c6 :
  base_ok codec apta cgraph ->
  symmetry_extension codec clique = Ok c6 ->
  encode_dfa_id apta codec cgraph clique
  = Ok (base_list codec apta cgraph ++ c6).
Proof.
  intros (O2 & O3 & O5) H6. unfold encode_dfa_id.
  rewrite onehot_color_clauses_eq, onehot_parent_relation_clauses_eq,
    partition_by_accepting_run, colors_parent_rel_coupling_run,
    determination_conflicts_run by assumption.
  cbn [bind]. fold (symmetry_extension codec clique). rewrite H6.
  cbn [bind]. unfold base_list. rewrite <- !app_assoc. reflexivity.
Qed.

(** *** Which variables occur in the clauses *)

Lemma lit_main_opp codec lit : lit_main codec lit -> lit_main codec (- lit).
Proof. unfold lit_main. rewrite Z.abs_opp. auto. Qed.

Lemma lit_main_id codec v :
  nonneg codec -> valid codec v = true ->
  match v with
  | ColorAccepting _ | ColorNode _ _ | ParentRelation _ _ _ =>
      lit_main codec (id_of codec v)
  | _ => True
  end.
Proof.
  intros (Hn & Hc & Ht) Hv. pose proof (id_of_bounds codec v Hv) as Hb.
  assert (0 <= n_colors codec * n_nodes codec) by nia.
  assert (0 <= n_tokens codec * n_colors codec * n_colors codec) by nia.
  unfold lit_main. rewrite off3_eq.
  destruct v; try exact I; cbn [kind_bounds fst snd] in Hb; unfold off3 in *;
    lia.
Qed.

Lemma lit_main_z codec c :
  nonneg codec -> 0 <= c < n_colors codec -> lit_main codec (z_id codec c).
Proof.
  intros Hn Hc. apply (lit_main_id codec (ColorAccepting c) Hn).
  cbn [valid]. apply in_range_iff. exact Hc.
Qed.

Lemma lit_main_x codec n c :
  nonneg codec -> node_ok codec n -> 0 <= c < n_colors codec ->
  lit_main codec (x_id codec n c).
Proof.
  intros Hnn Hn Hc. apply (lit_main_id codec (ColorNode n c) Hnn).
  cbn [valid]. rewrite andb_true_iff, !in_range_iff. auto.
Qed.

Lemma lit_main_y codec t c1 c2 :
  nonneg codec -> 0 <= t < n_tokens codec ->
  0 <= c1 < n_colors codec -> 0 <= c2 < n_colors codec ->
  lit_main codec (y_id codec t c1 c2).
Proof.
  intros Hnn Ht H1 H2. apply (lit_main_id codec (ParentRelation t c1 c2) Hnn).
  cbn [valid]. rewrite !andb_true_iff, !in_range_iff. auto.
Qed.

Ltac break_in :=
  repeat match goal with
         | H : In _ (_ ++ _) |- _ => apply in_app_or in H; destruct H as [H | H]
         | H : In _ (flat_map _ _) |- _ =>
             apply in_flat_map in H; destruct H as (? & ? & H)
         | H : In _ (map _ _) |- _ =>
             apply in_map_iff in H; destruct H as (? & ? & H)
         | H : In _ (at_most_one _ _) |- _ => unfold at_most_one in H
         | H : In _ (range _) |- _ => apply In_range in H
         | H : In _ (range2 _ _) |- _ => apply In_range2 in H
         | H : In _ (tokensXcolors _) |- _ => apply In_tokensXcolors in H
         | H : In _ (_ :: _) |- _ => destruct H as [H | H]
         | H : In _ [] |- _ => destruct H
         | p : (Z * Z)%type |- _ => destruct p
         | _ => progress subst
         end.

Ltac main_lits Hnn :=
  subst;
  repeat match goal with
         | H : In _ (_ :: _) |- _ => destruct H as [H | H]
         | H : In _ [] |- _ => destruct H
         end;
  subst;
  try apply lit_main_opp;
  first [ apply lit_main_x | apply lit_main_y | apply lit_main_z ];
  solve [ exact Hnn | assumption | lia | unfold node_ok; lia ].

Lemma onehot_color_main codec cl lit :
  nonneg codec ->
  In cl (onehot_color_list codec) -> In lit cl -> lit_main codec lit.
Proof.
  intros Hnn Hcl Hlit. unfold onehot_color_list in Hcl. break_in;
    main_lits Hnn.
Qed.

Lemma onehot_parent_relation_main codec cl lit :
  nonneg codec ->
  In cl (onehot_parent_relation_list codec) -> In lit cl ->
  lit_main codec lit.
Proof.
  intros Hnn Hcl Hlit. unfold onehot_parent_relation_list in Hcl. break_in;
    main_lits Hnn.
Qed.

Lemma partition_main codec apta cl lit :
  nonneg codec -> partition_ok codec apta ->
  In cl (partition_by_accepting_list codec apta) -> In lit cl ->
  lit_main codec lit.
Proof.
  intros Hnn Hok Hcl Hlit. unfold partition_by_accepting_list in Hcl.
  break_in;
    match goal with
    | Hn : In ?n (_ apta) |- _ =>
        assert (node_ok codec n) by (apply Hok; [lia | auto])
    end; main_lits Hnn.
Qed.

Lemma coupling_main codec apta cl lit :
  nonneg codec -> coupling_ok codec apta ->
  In cl (colors_parent_rel_coupling_list codec apta) -> In lit cl ->
  lit_main codec lit.
Proof.
  intros Hnn Hok Hcl Hlit. unfold colors_parent_rel_coupling_list in Hcl.
  cbv zeta in Hcl. break_in;
    match goal with
    | Hn : In ?n (non_root_nodes apta) |- _ =>
        destruct (Hok ltac:(lia) n Hn)
          as (Hnode & parent & rest & src & token & E1 & E2 & E3 & Hp & Ht);
        unfold parent_of, token_of; rewrite ?E1, ?E2;
        cbn [hd]; rewrite ?E3
    end; main_lits Hnn.
Qed.

Lemma conflicts_main codec cgraph cl lit :
  nonneg codec -> conflicts_ok codec cgraph ->
  In cl (determination_conflicts_list codec cgraph) -> In lit cl ->
  lit_main codec lit.
Proof.
  intros Hnn Hok Hcl Hlit. unfold determination_conflicts_list in Hcl.
  break_in;
    match goal with
    | Hn : In (?n1, ?n2) cgraph |- _ =>
        destruct (Hok ltac:(lia) n1 n2 Hn)
    end; main_lits Hnn.
Qed.

Lemma clique_main codec clique cl lit :
  nonneg codec -> clique_ok codec clique ->
  In cl (symmetry_breaking_list codec clique) -> In lit cl ->
  lit_main codec lit.
Proof.
  intros Hnn Hok Hcl Hlit. unfold symmetry_breaking_list in Hcl.
  apply in_map_iff in Hcl as ([color node] & <- & Hin).
  destruct (Hok color node Hin). main_lits Hnn.
Qed.

Lemma base_main codec apta cgraph cl lit :
  nonneg codec -> base_ok codec apta cgraph ->
  In cl (base_list codec apta cgraph) -> In lit cl -> lit_main codec lit.
Proof.
  intros Hnn (O2 & O3 & O5) Hcl Hlit. unfold base_list in Hcl.
  apply in_app_or in Hcl as [Hcl | Hcl];
    [eapply onehot_color_main; eauto|].
  apply in_app_or in Hcl as [Hcl | Hcl]; [eapply partition_main; eauto|].
  apply in_app_or in Hcl as [Hcl | Hcl]; [eapply coupling_main; eauto|].
  apply in_app_or in Hcl as [Hcl | Hcl];
    [eapply onehot_parent_relation_main; eauto|].
  eapply conflicts_main; eauto.
Qed.

Lemma length_bounded (l : list Z) m :
  0 <= m -> NoDup l -> (forall x, In x l -> 1 <= x <= m) -> len l <= m.
Proof.
  intros Hm Hnd Hb.
  assert (Hi : incl l (range2 1 (m + 1))).
  { intros x Hx. apply In_range2. specialize (Hb x Hx). lia. }
  pose proof (NoDup_incl_length Hnd Hi) as Hl.
  unfold range2 in Hl. rewrite length_map, length_seq in Hl.
  unfold len. lia.
Qed.

(** C10: the counts of the auxiliary kinds 3-5 do not depend on the symmetry
    mode and are part of the total; without symmetry breaking or with clique
    seeding every literal of every clause has its magnitude among the ids of
    kinds 0-2, so the variables that occur are fewer than the total as soon
    as an auxiliary kind has a variable ([n_colors >= 2] or
    [n_colors * n_tokens >= 1]). *)
Theorem auxiliary_counted_but_unused apta codec cgraph clique cls :
  nonneg codec ->
  symm_mode codec = None \/ symm_mode codec = Some "clique" ->
  encode_dfa_id apta codec cgraph clique = Ok cls ->
  (forall mode,
     counts (mkCodec (n_nodes codec) (n_colors codec) (n_tokens codec) mode)
     = counts codec) /\
  sum (counts codec)
  = sum (firstn 3 (counts codec)) + sum (skipn 3 (counts codec)) /\
  (forall cl lit, In cl cls -> In lit cl ->
     1 <= Z.abs lit <= sum (firstn 3 (counts codec))) /\
  (2 <= n_colors codec \/ 1 <= n_colors codec * n_tokens codec ->
   len (variables cls) < sum (counts codec)).
Proof.
  intros Hnn Hm Henc.
  assert (Hlits : forall cl lit, In cl cls -> In lit cl -> lit_main codec lit).
  { apply encode_dfa_id_ok in Henc as (Hok & c6 & H6 & ->).
    intros cl lit Hcl Hlit. apply in_app_or in Hcl as [Hcl | Hcl].
    - eapply base_main; eauto.
    - unfold symmetry_extension in H6. destruct Hm as [Hm | Hm]; rewrite Hm in H6.
      + cbn in H6. inversion H6; subst c6. destruct Hcl.
      + change (mode_is (Some "clique") "clique") with true in H6.
        cbv iota in H6.
        destruct (symmetry_breaking_ok _ _ _ H6) as (members & -> & Hc).
        rewrite symmetry_breaking_run in H6 by exact Hc.
        inversion H6; subst c6. eapply clique_main; eauto. }
  split; [reflexivity|]. split.
  { unfold sum, counts. cbn [firstn skipn fold_left]. lia. }
  split; [exact Hlits|].
  intros Haux.
  assert (H3 : 0 <= sum (firstn 3 (counts codec))).
  { rewrite off3_eq. apply off3_nonneg, Hnn. }
  assert (Hlen : len (variables cls) <= sum (firstn 3 (counts codec))).
  { apply length_bounded; [exact H3 | apply NoDup_nodup |].
    intros x Hx. unfold variables in Hx. apply nodup_In in Hx.
    apply in_map_iff in Hx as (lit & <- & Hlit).
    apply in_concat in Hlit as (cl & Hcl & Hlit). eapply Hlits; eauto. }
  rewrite total_eq. rewrite off3_eq in Hlen.
  destruct Hnn as (Hn & Hc & Ht).
  pose proof (tri_double (n_colors codec)) as Htri.
  pose proof (tri_nonneg (n_colors codec)).
  assert (0 <= n_colors codec * n_tokens codec) by nia.
  destruct Haux as [Haux | Haux]; [|lia].
  assert (1 <= tri (n_colors codec)) by nia. lia.
Qed.

Lemma auxiliary_counted_but_unused_witness :
  nonneg (codec3 None) /\
  exists cls,
    encode_dfa_id apta3 (codec3 None) (consistency_graph apta3) None = Ok cls /\
    (forall cl lit, In cl cls -> In lit cl ->
       1 <= Z.abs lit <= sum (firstn 3 (counts (codec3 None)))) /\
    len (variables cls) < sum (counts (codec3 None)).
Proof.
  assert (Hn : nonneg (codec3 None)) by (unfold nonneg; cbn; lia).
  split; [exact Hn|]. eexists.
  assert (He : encode_dfa_id apta3 (codec3 None) (consistency_graph apta3) None
               = Ok _) by (vm_compute; reflexivity).
  split; [exact He|].
  destruct (auxiliary_counted_but_unused apta3 (codec3 None)
              (consistency_graph apta3) None _ Hn (or_introl eq_refl) He)
    as (_ & _ & H3 & H4).
  split; [exact H3|]. apply H4. left. cbn. lia.
Defined.

(** *** The trial driver *)

Lemma In_non_root_nodes apta n :
  In n (non_root_nodes apta) <-> In n (nodes apta) /\ n <> 0.
Proof.
  unfold non_root_nodes. rewrite filter_In, nodup_In, negb_true_iff, Z.eqb_neq.
  reflexivity.
Qed.

Lemma wf_base_ok apta k mode :
  wf_apta apta ->
  base_ok (from_apta apta k mode) apta (consistency_graph apta).
Proof.
  intros (Hn & Hl & Hp & Hg). unfold base_ok. split; [|split].
  - intros _ n Hin. apply Hl, Hin.
  - intros _ node Hin. apply In_non_root_nodes in Hin as [Hin Hne].
    split; [apply Hn, Hin|].
    destruct (Hp node Hin Hne) as (parent & rest & src & token & E).
    exists parent, rest, src, token. exact E.
  - intros _ n1 n2 Hin. apply (Hg n1 n2 Hin).
Qed.

Lemma In_enumerate {A} (l : list A) i x :
  In (i, x) (enumerate l) -> 0 <= i < len l /\ In x l.
Proof.
  intros H. unfold enumerate in H. split.
  - apply in_combine_l in H. apply In_range in H. exact H.
  - apply in_combine_r in H. exact H.
Qed.

Lemma mode_is_exclusive mode :
  mode_is mode "clique" = true -> mode_is mode "bfs" = false.
Proof.
  destruct mode as [m|]; cbn; [|discriminate].
  intros H. apply String.eqb_eq in H. subst m. reflexivity.
Qed.

Lemma trial_runs apta mode clique k :
  wf_apta apta ->
  (mode_is mode "clique" = true ->
   exists members, clique = Some members /\ len members <= k /\
     forall n, In n members -> 0 <= n < len (nodes apta)) ->
  (mode_is mode "clique" = false -> 1 <= k) ->
  k <= len (nodes apta) ->
  exists cls,
    encode_dfa_id apta (from_apta apta k mode) (consistency_graph apta) clique
    = Ok cls.
Proof.
  intros Hwf Hcl Hk1 Hkn.
  assert (exists c6, symmetry_extension (from_apta apta k mode) clique
                     = Ok c6) as [c6 H6].
  { unfold symmetry_extension. cbn [symm_mode from_apta].
    destruct (mode_is mode "clique") eqn:Ec.
    - destruct (Hcl eq_refl) as (members & -> & Hlen & Hin).
      eexists. apply symmetry_breaking_run.
      intros color node Hcn. apply In_enumerate in Hcn as [Hc Hn].
      split; [cbn; lia | apply Hin, Hn].
    - specialize (Hk1 eq_refl). destruct (mode_is mode "bfs"); [|eauto].
      rewrite symmetry_breaking_common_eq, symmetry_breaking_bfs_eq.
      rewrite color_node_valid by (cbn; lia). cbn [bind]. eauto. }
  eexists. apply encode_dfa_id_run; [apply wf_base_ok, Hwf | exact H6].
Qed.

Lemma trials_run apta mode cgraph clique ks :
  (forall k, In k ks ->
     exists cls, encode_dfa_id apta (from_apta apta k mode) cgraph clique
                 = Ok cls) ->
  finishes (trials apta mode cgraph clique ks) = true /\
  map fst (yielded (trials apta mode cgraph clique ks))
  = map (fun k => from_apta apta k mode) ks /\
  forall codec cls,
    In (codec, cls) (yielded (trials apta mode cgraph clique ks)) ->
    encode_dfa_id apta codec cgraph clique = Ok cls.
Proof.
  induction ks as [|k ks IH]; intros H.
  - cbn. repeat split. intros ? ? [].
  - destruct (H k (or_introl eq_refl)) as [cls Hcls].
    destruct IH as (I1 & I2 & I3); [intros; apply H; right; assumption|].
    cbn [trials]. rewrite Hcls. cbn [finishes yielded map fst].
    split; [exact I1|]. split; [f_equal; exact I2|].
    intros codec cls' [Heq | Hin]; [inversion Heq; subst; exact Hcls|].
    apply I3, Hin.
Qed.

(** C9: on a well-formed tree [dfa_id_encodings] ends without an exception
    after yielding one pair per color count [k], for [k] increasing from the
    minimum (the size of the computed clique in clique mode, 1 otherwise) to
    the number of nodes inclusive; the codec of the pair for [k] is built
    from the node count and alphabet size of the tree with [n_colors = k],
    and its clauses are those of [encode_dfa_id] for that codec. *)
Theorem trial_sequence (max_clique : list (Z * Z) -> list Z) apta mode :
  wf_apta apta ->
  (mode_is mode "clique" = true ->
   forall n, In n (max_clique (consistency_graph apta)) ->
     0 <= n < len (nodes apta)) ->
  let cgraph := consistency_graph apta in
  let clique := if mode_is mode "clique"
                then Some (max_clique cgraph) else None in
  let min_color := if mode_is mode "clique"
                   then len (max_clique cgraph) else 1 in
  let g := dfa_id_encodings max_clique apta mode in
  finishes g = true /\
  map fst (yielded g)
  = map (fun k => mkCodec (len (nodes apta)) k (len (alphabet apta)) mode)
      (range2 min_color (len (nodes apta) + 1)) /\
  forall codec cls, In (codec, cls) (yielded g) ->
    encode_dfa_id apta codec cgraph clique = Ok cls.
Proof.
  intros Hwf Hcl cgraph clique min_color g.
  apply (trials_run apta mode cgraph clique
           (range2 min_color (len (nodes apta) + 1))).
  intros k Hk. apply In_range2 in Hk. subst cgraph clique min_color.
  apply trial_runs; [exact Hwf | | | lia].
  - intros Hm. rewrite Hm in *. eexists. split; [reflexivity|].
    split; [lia | apply Hcl, eq_refl].
  - intros Hm. rewrite Hm in Hk. lia.
Qed.

Lemma wf_apta3 : wf_apta apta3.
Proof.
  unfold wf_apta. change (len (nodes apta3)) with 3.
  change (len (alphabet apta3)) with 2. split; [|split; [|split]].
  - intros n Hin. cbn in Hin. lia.
  - intros n Hin. cbn in Hin. lia.
  - intros node Hin Hne. cbn in Hin.
    destruct Hin as [<- | [<- | [<- | []]]]; [contradiction | |].
    + exists 0, [], "a", 0. cbn. repeat split; lia.
    + exists 0, [], "b", 1. cbn. repeat split; lia.
  - intros n1 n2 Hin. cbn in Hin. destruct Hin as [Hin | []].
    inversion Hin. lia.
Qed.

Lemma trial_sequence_witness :
  wf_apta apta3 /\
  finishes (dfa_id_encodings (fun _ => [1; 2]) apta3 (Some "clique")) = true /\
  map fst (yielded (dfa_id_encodings (fun _ => [1; 2]) apta3 (Some "clique")))
  = [ mkCodec 3 2 2 (Some "clique"); mkCodec 3 3 2 (Some "clique") ].
Proof.
  split; [exact wf_apta3|].
  assert (Hc : mode_is (Some "clique") "clique" = true ->
               forall n, In n ((fun _ : list (Z * Z) => [1; 2])
                                 (consistency_graph apta3)) ->
                 0 <= n < len (nodes apta3)).
  { intros _ n Hn. cbn in Hn. cbn. lia. }
  destruct (trial_sequence (fun _ => [1; 2]) apta3 (Some "clique")
              wf_apta3 Hc) as (H1 & H2 & _).
  split; [exact H1 | exact H2].
Defined.

(** *** Exchanging two colors in a model *)

Lemma swap_color_range i j c n :
  0 <= i < n -> 0 <= j < n -> 0 <= c < n -> 0 <= swap_color i j c < n.
Proof.
  intros. unfold swap_color.
  destruct (Z.eqb_spec c i); [lia|]. destruct (Z.eqb_spec c j); lia.
Qed.

Lemma swap_color_invol i j c : swap_color i j (swap_color i j c) = c.
Proof.
  unfold swap_color.
  destruct (Z.eqb_spec c i), (Z.eqb_spec c j);
    repeat match goal with
           | |- context [ ?x =? ?y ] => destruct (Z.eqb_spec x y)
           end; lia.
Qed.

Lemma swap_color_inj i j c c' :
  swap_color i j c = swap_color i j c' -> c = c'.
Proof.
  intros H. rewrite <- (swap_color_invol i j c), H. apply swap_color_invol.
Qed.

Lemma one_hot_transport (a a' : Z -> bool) (f g : Z -> Z) n (s : Z -> Z) :
  (forall c, 0 <= c < n -> 0 < f c) ->
  (forall c, 0 <= c < n -> a' (f c) = a (g (s c))) ->
  (forall c, 0 <= c < n -> 0 <= s c < n) ->
  (forall c, s (s c) = c) ->
  (exists c, 0 <= c < n /\ a (g c) = true /\
     forall c', 0 <= c' < n -> a (g c') = true -> c' = c) ->
  satisfies a' (map f (range n) :: at_most_one f n) = true.
Proof.
  intros Hpos Ha Hr Hinv (c & Hc & Ht & Hu).
  cbn [satisfies forallb]. apply andb_true_iff. split.
  - apply existsb_exists. exists (f (s c)). split.
    + apply in_map, In_range, Hr, Hc.
    + rewrite lit_true_pos by (apply Hpos, Hr, Hc).
      rewrite Ha by (apply Hr, Hc). rewrite Hinv. exact Ht.
  - apply forallb_forall. intros cl Hcl. unfold at_most_one in Hcl.
    apply in_flat_map in Hcl as (i1 & H1 & Hcl). apply In_range in H1.
    apply in_map_iff in Hcl as (i2 & <- & H2). apply In_range2 in H2.
    cbn [clause_true existsb].
    rewrite !lit_true_neg by (apply Hpos; lia).
    rewrite !Ha by lia.
    destruct (a (g (s i1))) eqn:E1; [|reflexivity].
    destruct (a (g (s i2))) eqn:E2; [|reflexivity].
    apply Hu in E1; [|apply Hr; lia]. apply Hu in E2; [|apply Hr; lia].
    assert (i1 = i2) by (rewrite <- (Hinv i1), <- (Hinv i2); congruence).
    lia.
Qed.

Lemma In_partition_acc codec apta c n :
  0 <= c < n_colors codec -> In n (accepting apta) ->
  In [- x_id codec n c; z_id codec c] (partition_by_accepting_list codec apta).
Proof.
  intros Hc Hn. unfold partition_by_accepting_list. apply in_flat_map.
  exists c. split; [apply In_range, Hc|]. apply in_or_app. left.
  apply in_map_iff. exists n. auto.
Qed.

Lemma In_partition_rej codec apta c n :
  0 <= c < n_colors codec -> In n (rejecting apta) ->
  In [- x_id codec n c; - z_id codec c]
     (partition_by_accepting_list codec apta).
Proof.
  intros Hc Hn. unfold partition_by_accepting_list. apply in_flat_map.
  exists c. split; [apply In_range, Hc|]. apply in_or_app. right.
  apply in_map_iff. exists n. auto.
Qed.

Lemma In_coupling codec apta node c1 c2 :
  In node (non_root_nodes apta) ->
  0 <= c1 < n_colors codec -> 0 <= c2 < n_colors codec ->
  In [- x_id codec (parent_of apta node) c1; - x_id codec node c2;
      y_id codec (token_of apta node) c1 c2]
     (colors_parent_rel_coupling_list codec apta) /\
  In [- x_id codec (parent_of apta node) c1; x_id codec node c2;
      - y_id codec (token_of apta node) c1 c2]
     (colors_parent_rel_coupling_list codec apta).
Proof.
  intros Hn H1 H2. unfold colors_parent_rel_coupling_list. cbv zeta.
  split; apply in_flat_map; exists node; (split; [exact Hn|]);
    apply in_flat_map; exists c1; (split; [apply In_range, H1|]);
    apply in_flat_map; exists c2; (split; [apply In_range, H2|]);
    cbn [In]; auto.
Qed.

Lemma In_conflicts codec cgraph n1 n2 c :
  In (n1, n2) cgraph -> 0 <= c < n_colors codec ->
  In [- x_id codec n1 c; - x_id codec n2 c]
     (determination_conflicts_list codec cgraph).
Proof.
  intros Hn Hc. unfold determination_conflicts_list. apply in_flat_map.
  exists (n1, n2). split; [exact Hn|]. apply in_map_iff.
  exists c. split; [reflexivity | apply In_range, Hc].
Qed.

Lemma base_parts codec a apta cgraph :
  satisfies a (base_list codec apta cgraph) = true ->
  satisfies a (onehot_color_list codec) = true /\
  satisfies a (partition_by_accepting_list codec apta) = true /\
  satisfies a (colors_parent_rel_coupling_list codec apta) = true /\
  satisfies a (onehot_parent_relation_list codec) = true /\
  satisfies a (determination_conflicts_list codec cgraph) = true.
Proof.
  intros H. unfold base_list in H.
  rewrite !satisfies_app, !andb_true_iff in H. tauto.
Qed.

Section Swap.

Variable codec : Codec.
Variables i j : Z.
Variable a : Z -> bool.
Hypothesis Hnn : nonneg codec.
Hypothesis Hi : 0 <= i < n_colors codec.
Hypothesis Hj : 0 <= j < n_colors codec.

Let s := swap_color i j.
Let a' := swap_assign codec i j a.

Lemma s_range c : 0 <= c < n_colors codec -> 0 <= s c < n_colors codec.
Proof. apply swap_color_range; assumption. Qed.

Lemma swap_z c :
  0 <= c < n_colors codec -> a' (z_id codec c) = a (z_id codec (s c)).
Proof.
  intros Hc. unfold a', swap_assign, rename.
  rewrite (decode_z codec c true Hc). reflexivity.
Qed.

Lemma swap_x n c :
  node_ok codec n -> 0 <= c < n_colors codec ->
  a' (x_id codec n c) = a (x_id codec n (s c)).
Proof.
  intros Hn Hc. unfold a', swap_assign, rename.
  rewrite (decode_x codec n c true Hn Hc). reflexivity.
Qed.

Lemma swap_y t c1 c2 :
  0 <= t < n_tokens codec ->
  0 <= c1 < n_colors codec -> 0 <= c2 < n_colors codec ->
  a' (y_id codec t c1 c2) = a (y_id codec t (s c1) (s c2)).
Proof.
  intros Ht H1 H2. unfold a', swap_assign, rename.
  destruct Hnn as (Hn & _ & _).
  rewrite (decode_y codec t c1 c2 true Hn (proj1 Ht) H1 H2). reflexivity.
Qed.

Variable apta : APTA.
Variable cgraph : list (Z * Z).
Hypothesis Hok : base_ok codec apta cgraph.
Hypothesis Hsat : satisfies a (base_list codec apta cgraph) = true.

Ltac pos_id :=
  first [ apply x_id_pos | apply y_id_pos | apply z_id_pos ];
  solve [ assumption | lia | apply s_range; assumption
        | destruct Hnn as (? & ? & ?); assumption
        | unfold node_ok in *; lia ].

Ltac lits :=
  cbn [clause_true existsb];
  rewrite ?lit_true_neg by pos_id;
  rewrite ?lit_true_pos by pos_id.

Lemma swap_onehot_color :
  satisfies a' (onehot_color_list codec) = true.
Proof.
  destruct (base_parts _ _ _ _ Hsat) as (H1 & _).
  assert (T : forall n, 0 <= n < n_nodes codec ->
            satisfies a' (map (x_id codec n) (range (n_colors codec))
                          :: at_most_one (x_id codec n) (n_colors codec))
            = true).
  { intros n Hn.
    apply (one_hot_transport a a' _ (x_id codec n) _ s).
    - intros c Hc. apply x_id_pos; assumption.
    - intros c Hc. apply swap_x; assumption.
    - apply s_range.
    - apply swap_color_invol.
    - apply (one_hot a _ _ (onehot_color_list codec)).
      + intros c Hc. apply x_id_pos; assumption.
      + unfold onehot_color_list. apply in_or_app. left.
        apply in_map_iff. exists n. split; [reflexivity | apply In_range, Hn].
      + intros cl Hcl. unfold onehot_color_list. apply in_or_app. right.
        apply in_flat_map. exists n. split; [apply In_range, Hn | exact Hcl].
      + exact H1. }
  apply forallb_forall. intros cl Hcl. unfold onehot_color_list in Hcl.
  apply in_app_or in Hcl as [Hcl | Hcl].
  - apply in_map_iff in Hcl as (n & <- & Hn). apply In_range in Hn.
    apply (satisfies_In a' _ _ (T n Hn)). left. reflexivity.
  - apply in_flat_map in Hcl as (n & Hn & Hcl). apply In_range in Hn.
    apply (satisfies_In a' _ _ (T n Hn)). right. exact Hcl.
Qed.

Lemma swap_onehot_parent_relation :
  satisfies a' (onehot_parent_relation_list codec) = true.
Proof.
  destruct (base_parts _ _ _ _ Hsat) as (_ & _ & _ & H4 & _).
  destruct Hnn as (Hn0 & _ & _).
  assert (T : forall t c1, 0 <= t < n_tokens codec ->
            0 <= c1 < n_colors codec ->
            satisfies a' (map (y_id codec t c1) (range (n_colors codec))
                          :: at_most_one (y_id codec t c1) (n_colors codec))
            = true).
  { intros t c1 Ht H1. pose proof (s_range c1 H1) as Hs1.
    apply (one_hot_transport a a' _ (y_id codec t (s c1)) _ s).
    - intros c Hc. apply y_id_pos; (assumption || lia).
    - intros c Hc. apply swap_y; assumption.
    - apply s_range.
    - apply swap_color_invol.
    - apply (one_hot a _ _ (onehot_parent_relation_list codec)).
      + intros c Hc. apply y_id_pos; (assumption || lia).
      + unfold onehot_parent_relation_list. apply in_or_app. left.
        apply in_map_iff. exists (t, s c1).
        split; [reflexivity | apply In_tokensXcolors; auto].
      + intros cl Hcl. unfold onehot_parent_relation_list.
        apply in_or_app. right. apply in_flat_map. exists (t, s c1).
        split; [apply In_tokensXcolors; auto | exact Hcl].
      + exact H4. }
  apply forallb_forall. intros cl Hcl.
  unfold onehot_parent_relation_list in Hcl.
  apply in_app_or in Hcl as [Hcl | Hcl].
  - apply in_map_iff in Hcl as ([t c1] & <- & Hn).
    apply In_tokensXcolors in Hn as [Ht H1].
    apply (satisfies_In a' _ _ (T t c1 Ht H1)). left. reflexivity.
  - apply in_flat_map in Hcl as ([t c1] & Hn & Hcl).
    apply In_tokensXcolors in Hn as [Ht H1].
    apply (satisfies_In a' _ _ (T t c1 Ht H1)). right. exact Hcl.
Qed.

Lemma swap_partition :
  satisfies a' (partition_by_accepting_list codec apta) = true.
Proof.
  destruct (base_parts _ _ _ _ Hsat) as (_ & H2 & _). destruct Hok as (O2 & _ & _).
  apply forallb_forall. intros cl Hcl.
  unfold partition_by_accepting_list in Hcl.
  apply in_flat_map in Hcl as (c & Hc & Hcl). apply In_range in Hc.
  pose proof (s_range c Hc) as Hsc.
  apply in_app_or in Hcl as [Hcl | Hcl];
    apply in_map_iff in Hcl as (n & <- & Hn);
    assert (Hnode : node_ok codec n) by (apply O2; [lia | auto]).
  - pose proof (satisfies_In a _ _ H2
                  (In_partition_acc codec apta (s c) n Hsc Hn)) as H.
    revert H. lits. rewrite swap_x, swap_z by assumption. auto.
  - pose proof (satisfies_In a _ _ H2
                  (In_partition_rej codec apta (s c) n Hsc Hn)) as H.
    revert H. lits. rewrite swap_x, swap_z by assumption. auto.
Qed.

Lemma swap_conflicts :
  satisfies a' (determination_conflicts_list codec cgraph) = true.
Proof.
  destruct (base_parts _ _ _ _ Hsat) as (_ & _ & _ & _ & H5). destruct Hok as (_ & _ & O5).
  apply forallb_forall. intros cl Hcl.
  unfold determination_conflicts_list in Hcl.
  apply in_flat_map in Hcl as ([n1 n2] & Hn & Hcl).
  apply in_map_iff in Hcl as (c & <- & Hc). apply In_range in Hc.
  pose proof (s_range c Hc) as Hsc.
  destruct (O5 ltac:(lia) n1 n2 Hn) as [N1 N2].
  pose proof (satisfies_In a _ _ H5
                (In_conflicts codec cgraph n1 n2 (s c) Hn Hsc)) as H.
  revert H. lits. rewrite !swap_x by assumption. auto.
Qed.

Lemma swap_coupling :
  satisfies a' (colors_parent_rel_coupling_list codec apta) = true.
Proof.
  destruct (base_parts _ _ _ _ Hsat) as (_ & _ & H3 & _). destruct Hok as (_ & O3 & _).
  apply forallb_forall. intros cl Hcl.
  unfold colors_parent_rel_coupling_list in Hcl. cbv zeta in Hcl.
  apply in_flat_map in Hcl as (node & Hnode & Hcl).
  apply in_flat_map in Hcl as (c1 & H1 & Hcl). apply In_range in H1.
  apply in_flat_map in Hcl as (c2 & H2 & Hcl). apply In_range in H2.
  pose proof (s_range c1 H1) as Hs1. pose proof (s_range c2 H2) as Hs2.
  destruct (O3 ltac:(lia) node Hnode)
    as (Nn & parent & rest & src & token & E1 & E2 & E3 & Np & Nt).
  assert (Ep : parent_of apta node = parent)
    by (unfold parent_of; rewrite E1; reflexivity).
  assert (Et : token_of apta node = token)
    by (unfold token_of; rewrite E2, E3; reflexivity).
  destruct (In_coupling codec apta node (s c1) (s c2) Hnode Hs1 Hs2)
    as [I1 I2].
  rewrite Ep, Et in *.
  destruct Hnn as (Hn0 & _ & _).
  destruct Hcl as [<- | [<- | []]].
  - pose proof (satisfies_In a _ _ H3 I1) as H.
    revert H. lits. rewrite !swap_x, swap_y by assumption. auto.
  - pose proof (satisfies_In a _ _ H3 I2) as H.
    revert H. lits. rewrite !swap_x, swap_y by assumption. auto.
Qed.

(** Exchanging two colors in a model of the base clauses gives a model. *)
Lemma swap_base : satisfies a' (base_list codec apta cgraph) = true.
Proof.
  unfold base_list. rewrite !satisfies_app.
  rewrite swap_onehot_color, swap_partition, swap_coupling,
    swap_onehot_parent_relation, swap_conflicts. reflexivity.
Qed.

End Swap.

(** *** Seeding a clique *)

Lemma combine_seq_nth (l : list Z) s :
  combine (map Z.of_nat (seq s (List.length l))) l
  = map (fun idx => (Z.of_nat idx, nth (idx - s) l 0))
      (seq s (List.length l)).
Proof.
  revert s. induction l as [|x l IH]; intros s; [reflexivity|].
  cbn [List.length seq map combine]. f_equal.
  - rewrite Nat.sub_diag. reflexivity.
  - rewrite IH. apply map_ext_in. intros idx Hidx. apply in_seq in Hidx.
    replace (idx - s)%nat with (S (idx - S s)) by lia. reflexivity.
Qed.

Lemma enumerate_nth (l : list Z) :
  enumerate l
  = map (fun idx => (Z.of_nat idx, nth idx l 0)) (seq 0 (List.length l)).
Proof.
  unfold enumerate, range, range2, len.
  replace (Z.to_nat (Z.of_nat (List.length l) - 0)) with (List.length l)
    by lia.
  rewrite (map_ext (fun i => 0 + Z.of_nat i) Z.of_nat) by (intros; lia).
  rewrite combine_seq_nth. apply map_ext. intros idx.
  rewrite Nat.sub_0_r. reflexivity.
Qed.

Lemma In_enumerate_nth (l : list Z) i n :
  In (i, n) (enumerate l) <->
  exists idx, (idx < List.length l)%nat /\ i = Z.of_nat idx /\ n = nth idx l 0.
Proof.
  rewrite enumerate_nth, in_map_iff. split.
  - intros (idx & E & Hin). apply in_seq in Hin. inversion E.
    exists idx. repeat split. lia.
  - intros (idx & Hlt & -> & ->). exists idx. split; [reflexivity|].
    apply in_seq. lia.
Qed.

Lemma seed_prefix codec apta cgraph clique a :
  nonneg codec -> base_ok codec apta cgraph ->
  is_clique cgraph clique -> clique_ok codec clique ->
  satisfies a (base_list codec apta cgraph) = true ->
  forall m, (m <= List.length clique)%nat ->
    exists a', satisfies a' (base_list codec apta cgraph) = true /\
      forall idx, (idx < m)%nat ->
        a' (x_id codec (nth idx clique 0) (Z.of_nat idx)) = true.
Proof.
  intros Hnn Hok (Hnd & Hadj) Hcl Hsat m.
  assert (Hmem : forall idx, (idx < List.length clique)%nat ->
            0 <= Z.of_nat idx < n_colors codec /\
            node_ok codec (nth idx clique 0)).
  { intros idx Hidx. apply Hcl. apply In_enumerate_nth. eauto. }
  induction m as [|m IH]; intros Hm.
  - exists a. split; [exact Hsat | intros; lia].
  - destruct (IH ltac:(lia)) as (a1 & Hs1 & Hp1).
    set (node := nth m clique 0).
    destruct (Hmem m ltac:(lia)) as [Hmc Hnode]. fold node in Hnode.
    destruct (base_parts codec a1 apta cgraph Hs1) as (S1 & _ & _ & _ & S5).
    destruct (one_hot a1 (x_id codec node) (n_colors codec)
                (onehot_color_list codec)) as (c & Hc & Htc & Huc).
    { intros c0 Hc0. apply x_id_pos; assumption. }
    { unfold onehot_color_list. apply in_or_app. left. apply in_map_iff.
      exists node. split; [reflexivity | apply In_range, Hnode]. }
    { intros cl Hcl'. unfold onehot_color_list. apply in_or_app. right.
      apply in_flat_map. exists node.
      split; [apply In_range, Hnode | exact Hcl']. }
    { exact S1. }
    assert (Hge : Z.of_nat m <= c).
    { destruct (Z.le_gt_cases (Z.of_nat m) c) as [H | H]; [exact H|].
      exfalso. set (idx := Z.to_nat c).
      assert (Hidx : (idx < m)%nat) by (unfold idx; lia).
      pose proof (Hp1 idx Hidx) as Hother.
      replace (Z.of_nat idx) with c in Hother by (unfold idx; lia).
      destruct (Hmem idx ltac:(lia)) as [_ Hnode'].
      set (node' := nth idx clique 0) in *.
      assert (Hne : node <> node').
      { intros E. unfold node, node' in E.
        apply (proj1 (NoDup_nth clique 0) Hnd) in E; lia. }
      assert (In (- x_id codec node c) [- x_id codec node c;
                                         - x_id codec node' c]) by (left; auto).
      destruct Hok as (_ & _ & O5).
      assert (Hviol : forall n1 n2, In (n1, n2) cgraph ->
                a1 (x_id codec n1 c) = true -> a1 (x_id codec n2 c) = true ->
                False).
      { intros n1 n2 Hin A1 A2.
        destruct (O5 ltac:(lia) n1 n2 Hin) as [N1 N2].
        pose proof (satisfies_In a1 _ _ S5
                      (In_conflicts codec cgraph n1 n2 c Hin Hc)) as Hcf.
        cbn [clause_true existsb] in Hcf.
        rewrite !lit_true_neg, A1, A2 in Hcf by (apply x_id_pos; assumption).
        discriminate. }
      destruct (Hadj node node') as [Hin | Hin].
      - apply nth_In. lia.
      - apply nth_In. lia.
      - exact Hne.
      - exact (Hviol _ _ Hin Htc Hother).
      - exact (Hviol _ _ Hin Hother Htc). }
    exists (swap_assign codec (Z.of_nat m) c a1). split.
    + apply swap_base; assumption.
    + intros idx Hidx. destruct (Hmem idx ltac:(lia)) as [Hic Hin].
      rewrite swap_x by assumption. unfold swap_color.
      destruct (Z.eqb_spec (Z.of_nat idx) (Z.of_nat m)) as [E | E].
      * assert (idx = m) by lia. subst idx. exact Htc.
      * destruct (Z.eqb_spec (Z.of_nat idx) c); [lia|].
        apply Hp1. lia.
Qed.

(** C8: for a clique of the consistency graph and at least as many colors
    as clique members, the clauses of the clique mode are the base clauses
    followed by the unit clauses of [symmetry_breaking], and they are
    satisfiable exactly when the base clauses are. *)
Theorem clique_seeding_preserves_sat apta cgraph clique k cls_base cls_seeded :
  is_clique cgraph clique ->
  len clique <= k ->
  encode_dfa_id apta (from_apta apta k None) cgraph None = Ok cls_base ->
  encode_dfa_id apta (from_apta apta k (Some "clique")) cgraph (Some clique)
  = Ok cls_seeded ->
  (exists units,
     symmetry_breaking (from_apta apta k (Some "clique")) (Some clique)
     = Ok units /\
     cls_seeded = cls_base ++ units) /\
  ((exists a, satisfies a cls_base = true) <->
   (exists a, satisfies a cls_seeded = true)).
Proof.
  intros Hcq Hlen Hb Hs.
  set (codec_b := from_apta apta k None) in *.
  set (codec_s := from_apta apta k (Some "clique")) in *.
  assert (Hnn : nonneg codec_b).
  { unfold nonneg, codec_b, from_apta. cbn [n_nodes n_colors n_tokens].
    unfold len in *. lia. }
  apply encode_dfa_id_ok in Hb as (Okb & c6b & H6b & ->).
  apply encode_dfa_id_ok in Hs as (Oks & c6s & H6s & ->).
  unfold symmetry_extension in H6b, H6s. cbn in H6b. inversion H6b; subst c6b.
  change (mode_is (symm_mode codec_s) "clique") with true in H6s.
  cbv iota in H6s.
  destruct (symmetry_breaking_ok _ _ _ H6s) as (members & E & Hcok).
  inversion E; subst members. clear E.
  pose proof H6s as Hrun. rewrite symmetry_breaking_run in H6s by exact Hcok.
  inversion H6s; subst c6s. clear H6s.
  change (base_list codec_s apta cgraph) with (base_list codec_b apta cgraph).
  rewrite app_nil_r. split.
  { eexists. split; [exact Hrun | reflexivity]. }
  split.
  - intros [a Ha].
    destruct (seed_prefix codec_b apta cgraph clique a Hnn Okb Hcq Hcok Ha
                (List.length clique) (le_n _)) as (a' & Hbase & Hseed).
    exists a'. rewrite satisfies_app, Hbase. cbn [andb].
    apply forallb_forall. intros cl Hcl. unfold symmetry_breaking_list in Hcl.
    apply in_map_iff in Hcl as ([i n] & <- & Hin).
    destruct (Hcok i n Hin) as [Hi Hn].
    apply In_enumerate_nth in Hin as (idx & Hidx & -> & ->).
    cbn [clause_true existsb].
    rewrite lit_true_pos by (apply x_id_pos; assumption).
    change (x_id codec_s) with (x_id codec_b). rewrite (Hseed idx Hidx).
    reflexivity.
  - intros [a Ha]. exists a. rewrite satisfies_app in Ha.
    apply andb_true_iff in Ha. tauto.
Qed.

Lemma clique_seeding_preserves_sat_witness :
  is_clique [(1, 2)] [1; 2] /\ len [1; 2] <= 2 /\
  exists cls_base cls_seeded,
    encode_dfa_id apta3 (from_apta apta3 2 None) [(1, 2)] None = Ok cls_base /\
    encode_dfa_id apta3 (from_apta apta3 2 (Some "clique")) [(1, 2)]
      (Some [1; 2]) = Ok cls_seeded /\
    ((exists a, satisfies a cls_base = true) <->
     (exists a, satisfies a cls_seeded = true)).
Proof.
  assert (Hq : is_clique [(1, 2)] [1; 2]).
  { split.
    - repeat constructor; cbn; intuition lia.
    - intros u v Hu Hv Hne. cbn in Hu, Hv.
      destruct Hu as [<- | [<- | []]], Hv as [<- | [<- | []]];
        try contradiction; cbn; auto. }
  assert (Hl : len [1; 2] <= 2) by (cbn; lia).
  split; [exact Hq|]. split; [exact Hl|]. do 2 eexists.
  assert (Hb : encode_dfa_id apta3 (from_apta apta3 2 None) [(1, 2)] None
               = Ok _) by (vm_compute; reflexivity).
  split; [exact Hb|].
  assert (Hs : encode_dfa_id apta3 (from_apta apta3 2 (Some "clique"))
                 [(1, 2)] (Some [1; 2]) = Ok _) by (vm_compute; reflexivity).
  split; [exact Hs|].
  exact (proj2 (clique_seeding_preserves_sat apta3 [(1, 2)] [1; 2] 2 _ _
                  Hq Hl Hb Hs)).
Defined.

(** ** Further properties of the clause families *)

Lemma var_true_inv a self v :
  var_true a self v = true -> valid self v = true /\ a (id_of self v) = true.
Proof.
  unfold var_true. intros H. destruct (valid self v) eqn:E.
  - rewrite encode_valid in H by exact E. auto.
  - destruct (encode_invalid self v E) as [msg Hm]. rewrite Hm in H.
    discriminate.
Qed.

Lemma valid_node self n c :
  valid self (ColorNode n c) = true ->
  node_ok self n /\ 0 <= c < n_colors self.
Proof.
  cbn [valid]. rewrite andb_true_iff, !in_range_iff. unfold node_ok. tauto.
Qed.

Lemma encode_model_base apta codec cgraph clique cls a :
  encode_dfa_id apta codec cgraph clique = Ok cls ->
  satisfies a cls = true ->
  base_ok codec apta cgraph /\
  satisfies a (base_list codec apta cgraph) = true.
Proof.
  intros He Hs. apply encode_dfa_id_ok in He as (Hok & c6 & _ & ->).
  rewrite satisfies_app in Hs. apply andb_true_iff in Hs. tauto.
Qed.

(** X1: in a model a node labelled accepting has an accepting color and a node
    labelled rejecting a color that is not accepting, so the two never share
    a color. *)
Theorem accepting_partition apta codec cgraph clique cls a n c :
  encode_dfa_id apta codec cgraph clique = Ok cls ->
  satisfies a cls = true ->
  var_true a codec (ColorNode n c) = true ->
  (In n (accepting apta) -> var_true a codec (ColorAccepting c) = true) /\
  (In n (rejecting apta) -> var_true a codec (ColorAccepting c) = false).
Proof.
  intros He Hs Hx. destruct (encode_model_base _ _ _ _ _ _ He Hs) as [_ Hb].
  apply base_parts in Hb as (_ & H2 & _).
  apply var_true_inv in Hx as [Hv Hx]. cbn [id_of] in Hx.
  apply valid_node in Hv as [Hn Hc].
  assert (Hz : var_true a codec (ColorAccepting c) = a (z_id codec c)).
  { apply (var_true_valid a codec (ColorAccepting c)). cbn [valid].
    apply in_range_iff, Hc. }
  rewrite Hz. split; intros Hin.
  - pose proof (satisfies_In a _ _ H2
                  (In_partition_acc codec apta c n Hc Hin)) as H.
    cbn [clause_true existsb] in H.
    rewrite lit_true_neg, lit_true_pos, Hx in H
      by (first [apply x_id_pos | apply z_id_pos]; (assumption || lia)).
    cbn in H. rewrite orb_false_r in H. exact H.
  - pose proof (satisfies_In a _ _ H2
                  (In_partition_rej codec apta c n Hc Hin)) as H.
    cbn [clause_true existsb] in H.
    rewrite !lit_true_neg, Hx in H
      by (first [apply x_id_pos | apply z_id_pos]; (assumption || lia)).
    cbn in H. rewrite orb_false_r in H. apply negb_true_iff. exact H.
Qed.

Lemma accepting_partition_witness :
  exists cls,
    encode_dfa_id apta3 (codec3 None) (consistency_graph apta3) None = Ok cls /\
    satisfies model3 cls = true /\
    var_true model3 (codec3 None) (ColorNode 1 0) = true /\
    (In 1 (accepting apta3) ->
     var_true model3 (codec3 None) (ColorAccepting 0) = true).
Proof.
  eexists.
  assert (He : encode_dfa_id apta3 (codec3 None) (consistency_graph apta3) None
               = Ok _) by (vm_compute; reflexivity).
  split; [exact He|].
  match goal with
  | |- satisfies model3 ?c = true /\ _ =>
      assert (Hs : satisfies model3 c = true) by (vm_compute; reflexivity)
  end.
  split; [exact Hs|].
  assert (Hx : var_true model3 (codec3 None) (ColorNode 1 0) = true)
    by (vm_compute; reflexivity).
  split; [exact Hx|].
  exact (proj1 (accepting_partition apta3 (codec3 None)
                  (consistency_graph apta3) None _ model3 1 0 He Hs Hx)).
Defined.

(** X3: in a model two nodes joined by an edge of the consistency graph never
    have the same color. *)
Theorem conflict_exclusion apta codec cgraph clique cls a u v c :
  encode_dfa_id apta codec cgraph clique = Ok cls ->
  satisfies a cls = true ->
  In (u, v) cgraph ->
  var_true a codec (ColorNode u c) = true ->
  var_true a codec (ColorNode v c) = false.
Proof.
  intros He Hs Hin Hu. destruct (encode_model_base _ _ _ _ _ _ He Hs) as [Hok Hb].
  apply base_parts in Hb as (_ & _ & _ & _ & H5).
  apply var_true_inv in Hu as [Hv Hu]. cbn [id_of] in Hu.
  apply valid_node in Hv as [Hn Hc].
  destruct Hok as (_ & _ & O5).
  destruct (O5 ltac:(lia) u v Hin) as [Nu Nv].
  rewrite (var_true_valid a codec (ColorNode v c))
    by (cbn [valid]; rewrite andb_true_iff, !in_range_iff; auto).
  cbn [id_of].
  pose proof (satisfies_In a _ _ H5 (In_conflicts codec cgraph u v c Hin Hc))
    as H.
  cbn [clause_true existsb] in H.
  rewrite !lit_true_neg, Hu in H by (apply x_id_pos; assumption).
  cbn in H. rewrite orb_false_r in H. apply negb_true_iff. exact H.
Qed.

Lemma conflict_exclusion_witness :
  exists cls,
    encode_dfa_id apta3 (codec3 None) (consistency_graph apta3) None = Ok cls /\
    satisfies model3 cls = true /\
    In (1, 2) (consistency_graph apta3) /\
    var_true model3 (codec3 None) (ColorNode 1 0) = true /\
    var_true model3 (codec3 None) (ColorNode 2 0) = false.
Proof.
  eexists.
  assert (He : encode_dfa_id apta3 (codec3 None) (consistency_graph apta3) None
               = Ok _) by (vm_compute; reflexivity).
  split; [exact He|].
  match goal with
  | |- satisfies model3 ?c = true /\ _ =>
      assert (Hs : satisfies model3 c = true) by (vm_compute; reflexivity)
  end.
  split; [exact Hs|].
  assert (Hi : In (1, 2) (consistency_graph apta3)) by (left; reflexivity).
  split; [exact Hi|].
  assert (Hx : var_true model3 (codec3 None) (ColorNode 1 0) = true)
    by (vm_compute; reflexivity).
  split; [exact Hx|].
  exact (conflict_exclusion apta3 (codec3 None) (consistency_graph apta3) None
           _ model3 1 2 0 He Hs Hi Hx).
Defined.

(** X2: in a model, once the parent of a non-root node has color [i], the node
    has color [j] exactly when the transition on the token of its incoming
    edge goes from [i] to [j]. *)
Theorem parent_coupling apta codec cgraph clique cls a node parent rest src t
  i j :
  encode_dfa_id apta codec cgraph clique = Ok cls ->
  satisfies a cls = true ->
  In node (nodes apta) -> node <> 0 ->
  tree_parents apta node = parent :: rest ->
  source apta node = Some src ->
  dict_get (alphabet apta) src = Ok t ->
  var_true a codec (ColorNode parent i) = true ->
  (var_true a codec (ColorNode node j) = true <->
   var_true a codec (ParentRelation t i j) = true).
Proof.
  intros He Hs Hin Hne E1 E2 E3 Hp.
  destruct (encode_model_base _ _ _ _ _ _ He Hs) as [Hok Hb].
  apply base_parts in Hb as (_ & _ & H3 & _).
  apply var_true_inv in Hp as [Hv Hp]. cbn [id_of] in Hp.
  apply valid_node in Hv as [Np Hi].
  assert (Hnr : In node (non_root_nodes apta))
    by (apply In_non_root_nodes; auto).
  destruct Hok as (_ & O3 & _).
  destruct (O3 ltac:(lia) node Hnr)
    as (Nn & parent' & rest' & src' & t' & E1' & E2' & E3' & _ & Nt).
  rewrite E1 in E1'. inversion E1'; subst parent' rest'.
  rewrite E2 in E2'. inversion E2'; subst src'.
  rewrite E3 in E3'. inversion E3'; subst t'.
  assert (Ep : parent_of apta node = parent)
    by (unfold parent_of; rewrite E1; reflexivity).
  assert (Et : token_of apta node = t)
    by (unfold token_of; rewrite E2, E3; reflexivity).
  assert (Hnn0 : 0 <= n_nodes codec) by (unfold node_ok in Np; lia).
  assert (Hj : var_true a codec (ColorNode node j) = true \/
               var_true a codec (ParentRelation t i j) = true ->
               0 <= j < n_colors codec).
  { intros [H | H]; apply var_true_inv in H as [H _]; cbn [valid] in H;
      rewrite ?andb_true_iff, !in_range_iff in H; tauto. }
  assert (Hcl : 0 <= j < n_colors codec ->
                (a (x_id codec node j) = true <->
                 a (y_id codec t i j) = true)).
  { intros Hjr.
    destruct (In_coupling codec apta node i j Hnr Hi Hjr) as [I1 I2].
    rewrite Ep, Et in I1, I2.
    pose proof (satisfies_In a _ _ H3 I1) as C1.
    pose proof (satisfies_In a _ _ H3 I2) as C2.
    cbn [clause_true existsb] in C1, C2.
    rewrite !lit_true_neg, !lit_true_pos, Hp in C1, C2
      by (first [apply x_id_pos | apply y_id_pos]; (assumption || lia)).
    cbn in C1, C2.
    destruct (a (x_id codec node j)), (a (y_id codec t i j));
      cbn in C1, C2; split; congruence. }
  split; intros H.
  - pose proof (Hj (or_introl H)) as Hjr.
    apply var_true_inv in H as [_ H]. cbn [id_of] in H.
    rewrite (var_true_valid a codec (ParentRelation t i j))
      by (cbn [valid]; rewrite !andb_true_iff, !in_range_iff; auto).
    apply Hcl; assumption.
  - pose proof (Hj (or_intror H)) as Hjr.
    apply var_true_inv in H as [_ H]. cbn [id_of] in H.
    rewrite (var_true_valid a codec (ColorNode node j))
      by (cbn [valid]; rewrite !andb_true_iff, !in_range_iff; auto).
    apply Hcl; assumption.
Qed.

Lemma parent_coupling_witness :
  exists cls,
    encode_dfa_id apta3 (codec3 None) (consistency_graph apta3) None = Ok cls /\
    satisfies model3 cls = true /\
    (var_true model3 (codec3 None) (ColorNode 2 1) = true <->
     var_true model3 (codec3 None) (ParentRelation 1 0 1) = true).
Proof.
  eexists.
  assert (He : encode_dfa_id apta3 (codec3 None) (consistency_graph apta3) None
               = Ok _) by (vm_compute; reflexivity).
  split; [exact He|].
  match goal with
  | |- satisfies model3 ?c = true /\ _ =>
      assert (Hs : satisfies model3 c = true) by (vm_compute; reflexivity)
  end.
  split; [exact Hs|].
  apply (parent_coupling apta3 (codec3 None) (consistency_graph apta3) None
           _ model3 2 0 [] "b" 1 0 1 He Hs).
  - cbn. auto.
  - lia.
  - reflexivity.
  - reflexivity.
  - reflexivity.
  - vm_compute. reflexivity.
Defined.

(** *** Decoding, the other way round *)

(** X4: every nonzero literal whose magnitude is an id of kinds 0-2 decodes to
    the descriptor of the one valid variable with that id, flagged by the
    sign of the literal. *)
Theorem decode_right_inverse (self : Codec) (lit : Z) :
  nonneg self ->
  1 <= Z.abs lit <= sum (firstn 3 (counts self)) ->
  exists v d,
    valid self v = true /\ encode self v = Ok (Z.abs lit) /\
    descriptor v (0 <? lit) = Some d /\ decode self lit = Ok d.
Proof.
  intros Hnn Hl. rewrite off3_eq in Hl.
  pose proof Hnn as (Hn & Hc & Ht).
  pose proof (tri_nonneg (n_colors self)).
  assert (0 <= n_colors self * n_tokens self) by nia.
  destruct (id_of_surj self (Z.abs lit) Hnn) as (v & Hv & Hid).
  { rewrite total_eq. lia. }
  pose proof (id_of_bounds self v Hv) as Hb.
  assert (Hlit : lit = if 0 <? lit then id_of self v else - id_of self v).
  { rewrite Hid. destruct (Z.ltb_spec 0 lit); lia. }
  pose proof (encode_valid self v Hv) as He. rewrite Hid in He.
  exists v.
  destruct v; cbn [kind_bounds fst snd] in Hb; try lia;
    cbn [valid] in Hv; rewrite ?andb_true_iff, !in_range_iff in Hv;
    cbn [descriptor id_of] in *; eexists;
    (split; [cbn [valid]; rewrite ?andb_true_iff, !in_range_iff; tauto|]);
    (split; [exact He|]); (split; [reflexivity|]); rewrite Hlit at 1.
  - apply decode_z. tauto.
  - apply decode_x; tauto.
  - apply decode_y; tauto || lia.
Qed.

Lemma decode_right_inverse_witness :
  nonneg (mkCodec 3 2 2 None) /\
  exists v d,
    valid (mkCodec 3 2 2 None) v = true /\
    encode (mkCodec 3 2 2 None) v = Ok (Z.abs (-12)) /\
    descriptor v (0 <? -12) = Some d /\
    decode (mkCodec 3 2 2 None) (-12) = Ok d.
Proof.
  assert (H : nonneg (mkCodec 3 2 2 None)) by (unfold nonneg; cbn; lia).
  split; [exact H|].
  apply (decode_right_inverse (mkCodec 3 2 2 None) (-12) H). cbn. lia.
Defined.

(** *** Literals are variable ids *)

Lemma lit_any_opp codec lit : lit_any codec lit -> lit_any codec (- lit).
Proof. unfold lit_any. rewrite Z.abs_opp. auto. Qed.

Lemma lit_any_id codec v :
  nonneg codec -> valid codec v = true -> lit_any codec (id_of codec v).
Proof.
  intros (Hn & Hc & Ht) Hv. pose proof (id_of_bounds codec v Hv) as Hb.
  assert (0 <= n_colors codec * n_nodes codec) by nia.
  assert (0 <= n_tokens codec * n_colors codec * n_colors codec) by nia.
  assert (0 <= n_colors codec * n_tokens codec) by nia.
  pose proof (tri_nonneg (n_colors codec)).
  unfold lit_any. rewrite total_eq.
  destruct v; cbn [kind_bounds fst snd] in Hb; unfold off3 in *; lia.
Qed.

Lemma lit_main_any codec lit :
  nonneg codec -> lit_main codec lit -> lit_any codec lit.
Proof.
  intros (Hn & Hc & Ht). unfold lit_main, lit_any.
  rewrite off3_eq, total_eq.
  pose proof (tri_nonneg (n_colors codec)).
  assert (0 <= n_colors codec * n_tokens codec) by nia. lia.
Qed.

Ltac any_lits Hnn :=
  subst;
  repeat match goal with
         | H : In _ (_ :: _) |- _ => destruct H as [H | H]
         | H : In _ [] |- _ => destruct H
         end;
  subst;
  try apply lit_any_opp;
  match goal with
  | |- lit_any ?c (x_id ?c ?n ?k) =>
      apply (lit_any_id c (ColorNode n k) Hnn)
  | |- lit_any ?c (y_id ?c ?t ?c1 ?c2) =>
      apply (lit_any_id c (ParentRelation t c1 c2) Hnn)
  | |- lit_any ?c (p_id ?c ?c1 ?c2) =>
      apply (lit_any_id c (EnumerationParent c1 c2) Hnn)
  | |- lit_any ?c (t_id ?c ?c1 ?c2) =>
      apply (lit_any_id c (TransitionRelation c1 c2) Hnn)
  | |- lit_any ?c (m_id ?c ?t ?k) =>
      apply (lit_any_id c (EnumerationLabel t k) Hnn)
  end;
  cbn [valid]; rewrite ?andb_true_iff, ?in_range_iff, ?Z.ltb_lt; lia.

Lemma common_any codec cl lit :
  nonneg codec -> 0 < n_nodes codec -> 0 < n_colors codec ->
  In cl (symmetry_breaking_common_list codec) -> In lit cl ->
  lit_any codec lit.
Proof.
  intros Hnn Hn0 Hc0 Hcl Hlit. unfold symmetry_breaking_common_list in Hcl.
  cbn [app] in Hcl. destruct Hcl as [<- | Hcl]; [any_lits Hnn|].
  apply in_flat_map in Hcl as (color2 & H2 & Hcl). apply In_range in H2.
  destruct (Z.ltb_spec 0 color2); cbv zeta in Hcl; break_in; any_lits Hnn.
Qed.

Lemma bfs_any codec cl lit :
  nonneg codec ->
  In cl (symmetry_breaking_bfs_list codec) -> In lit cl -> lit_any codec lit.
Proof.
  intros Hnn Hcl Hlit. unfold symmetry_breaking_bfs_list in Hcl.
  apply in_flat_map in Hcl as (color2 & H2 & Hcl). apply In_range in H2.
  apply in_flat_map in Hcl as (color1 & H1 & Hcl). apply In_range in H1.
  destruct (Z.ltb_spec (color2 + 1) (n_colors codec)); cbv zeta in Hcl;
    break_in; any_lits Hnn.
Qed.

Lemma bfs_extension codec c6 :
  (common <- symmetry_breaking_common codec ;;
   bfs <- symmetry_breaking_bfs codec ;;
   Ok (common ++ bfs)) = Ok c6 ->
  0 < n_nodes codec /\ 0 < n_colors codec /\
  c6 = symmetry_breaking_common_list codec ++ symmetry_breaking_bfs_list codec.
Proof.
  intros H6.
  rewrite symmetry_breaking_common_eq, symmetry_breaking_bfs_eq in H6.
  apply bind_ok in H6 as (cm & Hcm & H6). cbn [bind] in H6.
  apply bind_ok in Hcm as (root & Hroot & Hcm).
  apply color_node_ok_inv in Hroot as (Hn0 & Hc0 & ->).
  unfold node_ok in Hn0.
  split; [lia|]. split; [lia|].
  inversion Hcm; subst cm. inversion H6. reflexivity.
Qed.

(** X6: in every mode the clauses are over the variables of the codec: a literal
    is never 0 and its magnitude is at most the total variable count. *)
Theorem literals_are_variables apta codec cgraph clique cls cl lit :
  nonneg codec ->
  encode_dfa_id apta codec cgraph clique = Ok cls ->
  In cl cls -> In lit cl ->
  lit <> 0 /\ 1 <= Z.abs lit <= sum (counts codec).
Proof.
  intros Hnn He Hcl Hlit.
  cut (lit_any codec lit); [unfold lit_any; lia|].
  apply encode_dfa_id_ok in He as (Hok & c6 & H6 & ->).
  apply in_app_or in Hcl as [Hcl | Hcl].
  { apply lit_main_any; [exact Hnn|]. eapply base_main; eauto. }
  unfold symmetry_extension in H6.
  destruct (mode_is (symm_mode codec) "clique").
  - destruct (symmetry_breaking_ok _ _ _ H6) as (members & -> & Hc).
    rewrite symmetry_breaking_run in H6 by exact Hc.
    inversion H6; subst c6. apply lit_main_any; [exact Hnn|].
    eapply clique_main; eauto.
  - destruct (mode_is (symm_mode codec) "bfs").
    + apply bfs_extension in H6 as (Hn0 & Hc0 & ->).
      apply in_app_or in Hcl as [Hcl | Hcl].
      * eapply (common_any codec cl lit Hnn); eauto.
      * eapply bfs_any; eauto.
    + inversion H6; subst c6. destruct Hcl.
Qed.

Lemma literals_are_variables_witness :
  nonneg (codec3 (Some "bfs")) /\
  exists cls,
    encode_dfa_id apta3 (codec3 (Some "bfs")) (consistency_graph apta3) None
    = Ok cls /\
    In [-17; -22; -11] cls /\ In (-22) [-17; -22; -11] /\
    -22 <> 0 /\ 1 <= Z.abs (-22) <= sum (counts (codec3 (Some "bfs"))).
Proof.
  assert (Hn : nonneg (codec3 (Some "bfs"))) by (unfold nonneg; cbn; lia).
  split; [exact Hn|]. eexists.
  assert (He : encode_dfa_id apta3 (codec3 (Some "bfs"))
                 (consistency_graph apta3) None = Ok _)
    by (vm_compute; reflexivity).
  split; [exact He|].
  match goal with
  | |- In ?cl ?c /\ _ => assert (Hc : In cl c)
        by (repeat first [left; reflexivity | right])
  end.
  split; [exact Hc|].
  assert (Hl : In (-22) [-17; -22; -11]) by (cbn; tauto).
  split; [exact Hl|].
  exact (literals_are_variables apta3 (codec3 (Some "bfs"))
           (consistency_graph apta3) None _ _ _ Hn He Hc Hl).
Defined.

(** *** What the BFS clauses say *)

Lemma bfs_model apta codec cgraph clique cls a :
  symm_mode codec = Some "bfs" ->
  encode_dfa_id apta codec cgraph clique = Ok cls ->
  satisfies a cls = true ->
  0 < n_nodes codec /\ 0 < n_colors codec /\
  satisfies a (symmetry_breaking_common_list codec) = true /\
  satisfies a (symmetry_breaking_bfs_list codec) = true.
Proof.
  intros Hm He Hs. apply encode_dfa_id_ok in He as (_ & c6 & H6 & ->).
  unfold symmetry_extension in H6. rewrite Hm in H6. cbn [mode_is] in H6.
  change ("bfs" =? "clique")%string with false in H6.
  change ("bfs" =? "bfs")%string with true in H6. cbv iota in H6.
  apply bfs_extension in H6 as (Hn0 & Hc0 & ->).
  rewrite !satisfies_app, !andb_true_iff in Hs. tauto.
Qed.

Ltac into_pair j i :=
  unfold symmetry_breaking_common_list; cbn [app]; right;
  apply in_flat_map; exists j; split; [apply In_range; lia|];
  apply in_or_app; right;
  apply in_flat_map; exists i; split; [apply In_range; lia|];
  cbv zeta; cbn [app].

Lemma In_common_some_token codec i j :
  0 <= i -> i < j -> j < n_colors codec ->
  In (- t_id codec i j
      :: map (fun l => y_id codec l i j) (range (n_tokens codec)))
     (symmetry_breaking_common_list codec).
Proof. intros. into_pair j i. left. reflexivity. Qed.

Lemma In_common_parent_implies codec i j :
  0 <= i -> i < j -> j < n_colors codec ->
  In [t_id codec i j; - p_id codec i j] (symmetry_breaking_common_list codec).
Proof. intros. into_pair j i. right. left. reflexivity. Qed.

Ltac into_token j i l :=
  into_pair j i; right; right;
  apply in_flat_map; exists l; split; [apply In_range; lia|];
  cbn [app].

Lemma In_common_token_implies codec i j l :
  0 <= i -> i < j -> j < n_colors codec -> 0 <= l < n_tokens codec ->
  In [t_id codec i j; - y_id codec l i j] (symmetry_breaking_common_list codec).
Proof. intros. into_token j i l. left. reflexivity. Qed.

Lemma In_common_label_edge codec i j l :
  0 <= i -> i < j -> j < n_colors codec -> 0 <= l < n_tokens codec ->
  In [- p_id codec i j; - m_id codec l j; y_id codec l i j]
     (symmetry_breaking_common_list codec).
Proof. intros. into_token j i l. right. left. reflexivity. Qed.

Lemma In_common_label_least codec i j l :
  0 <= i -> i < j -> j < n_colors codec -> 0 <= l < n_tokens codec ->
  In (- y_id codec l i j :: - p_id codec i j :: m_id codec l j
      :: map (fun l' => y_id codec l' i j) (range l))
     (symmetry_breaking_common_list codec).
Proof. intros. into_token j i l. right. right. left. reflexivity. Qed.

Lemma In_common_label_smaller codec i j l l' :
  0 <= i -> i < j -> j < n_colors codec -> 0 <= l' -> l' < l ->
  l < n_tokens codec ->
  In [- p_id codec i j; - m_id codec l j; - y_id codec l' i j]
     (symmetry_breaking_common_list codec).
Proof.
  intros. into_token j i l. right. right. right.
  apply in_map_iff. exists l'. split; [reflexivity | apply In_range; lia].
Qed.

Ltac into_bfs j i :=
  unfold symmetry_breaking_bfs_list;
  apply in_flat_map; exists j; split; [apply In_range; lia|];
  apply in_flat_map; exists i; split; [apply In_range; lia|];
  cbv zeta.

Lemma In_bfs_first_transition codec i j :
  0 <= i -> i < j -> j < n_colors codec ->
  In (- t_id codec i j :: p_id codec i j
      :: map (fun i3 => t_id codec i3 j) (range i))
     (symmetry_breaking_bfs_list codec).
Proof.
  intros. into_bfs j i. apply in_or_app. right. left. reflexivity.
Qed.

Lemma In_bfs_parents_monotone codec i3 i j :
  0 <= i3 -> i3 < i -> i < j -> j + 1 < n_colors codec ->
  In [- p_id codec i j; - p_id codec i3 (j + 1)]
     (symmetry_breaking_bfs_list codec).
Proof.
  intros. into_bfs j i. apply in_or_app. right. right. cbn [app].
  destruct (Z.ltb_spec (j + 1) (n_colors codec)); [|lia].
  apply in_or_app. left. apply in_map_iff.
  exists i3. split; [reflexivity | apply In_range; lia].
Qed.

Lemma In_bfs_siblings codec i j l1 l2 :
  0 <= i -> i < j -> j + 1 < n_colors codec ->
  0 <= l1 -> l1 < l2 -> l2 < n_tokens codec ->
  In [- p_id codec i j; - p_id codec i (j + 1); - m_id codec l2 j;
      - m_id codec l1 (j + 1)]
     (symmetry_breaking_bfs_list codec).
Proof.
  intros. into_bfs j i. apply in_or_app. right. right. cbn [app].
  destruct (Z.ltb_spec (j + 1) (n_colors codec)); [|lia].
  apply in_or_app. right. apply in_flat_map.
  exists l2. split; [apply In_range; lia|]. apply in_map_iff.
  exists l1. split; [reflexivity | apply In_range; lia].
Qed.

Lemma m_id_pos self t c :
  nonneg self -> 0 <= t -> 0 <= c -> 0 < m_id self t c.
Proof.
  intros H Ht Hc. rewrite m_id_eq. pose proof (off3_nonneg self H).
  pose proof (tri_nonneg (n_colors self)). destruct H as (_ & _ & ?). nia.
Qed.

Lemma clause_map (a : Z -> bool) (f : Z -> Z) n :
  (forall c, 0 <= c < n -> 0 < f c) ->
  (clause_true a (map f (range n)) = true <->
   exists c, 0 <= c < n /\ a (f c) = true).
Proof.
  intros Hpos. unfold clause_true. rewrite existsb_exists. split.
  - intros (lit & Hin & Ht). apply in_map_iff in Hin as (c & <- & Hc).
    apply In_range in Hc. rewrite lit_true_pos in Ht by auto. eauto.
  - intros (c & Hc & Ht). exists (f c). split.
    + apply in_map, In_range, Hc.
    + rewrite lit_true_pos by auto. exact Ht.
Qed.

Ltac valid_tac :=
  cbn [valid]; rewrite ?andb_true_iff, ?in_range_iff, ?Z.ltb_lt; lia.

Ltac aux_pos Hnn :=
  first [ apply p_id_pos | apply t_id_pos | apply m_id_pos | apply y_id_pos ];
  solve [ exact Hnn | lia | destruct Hnn as (? & ? & ?); lia ].

Lemma transition_iff codec a i j :
  nonneg codec ->
  satisfies a (symmetry_breaking_common_list codec) = true ->
  0 <= i -> i < j -> j < n_colors codec ->
  (a (t_id codec i j) = true <->
   exists l, 0 <= l < n_tokens codec /\ a (y_id codec l i j) = true).
Proof.
  intros Hnn Hcm Hi Hij Hj. split.
  - intros Ht.
    pose proof (satisfies_In a _ _ Hcm
                  (In_common_some_token codec i j Hi Hij Hj)) as H.
    change (clause_true a (?x :: ?l))
      with (lit_true a x || clause_true a l) in H.
    rewrite lit_true_neg, Ht in H by aux_pos Hnn. cbn [negb orb] in H.
    apply clause_map in H; [exact H|]. intros c Hc. aux_pos Hnn.
  - intros (l & Hl & Hy).
    pose proof (satisfies_In a _ _ Hcm
                  (In_common_token_implies codec i j l Hi Hij Hj Hl)) as H.
    cbn [clause_true existsb] in H.
    rewrite lit_true_pos, lit_true_neg, Hy in H by aux_pos Hnn.
    cbn in H. rewrite orb_false_r in H. exact H.
Qed.

Lemma parent_iff codec a i j :
  nonneg codec ->
  satisfies a (symmetry_breaking_common_list codec) = true ->
  satisfies a (symmetry_breaking_bfs_list codec) = true ->
  0 <= i -> i < j -> j < n_colors codec ->
  (a (p_id codec i j) = true <->
   a (t_id codec i j) = true /\
   forall i3, 0 <= i3 < i -> a (t_id codec i3 j) = false).
Proof.
  intros Hnn Hcm Hbfs Hi Hij Hj. split.
  - intros Hp. split.
    + pose proof (satisfies_In a _ _ Hcm
                    (In_common_parent_implies codec i j Hi Hij Hj)) as H.
      cbn [clause_true existsb] in H.
      rewrite lit_true_pos, lit_true_neg, Hp in H by aux_pos Hnn.
      cbn in H. rewrite orb_false_r in H. exact H.
    + intros i3 H3.
      pose proof (satisfies_In a _ _ Hbfs
                    (In_bfs_earlier_transition codec i3 i j
                       ltac:(lia) ltac:(lia) Hij Hj)) as H.
      cbn [clause_true existsb] in H.
      rewrite !lit_true_neg, Hp in H by aux_pos Hnn.
      cbn in H. rewrite orb_false_r in H. apply negb_true_iff. exact H.
  - intros [Ht Hno].
    pose proof (satisfies_In a _ _ Hbfs
                  (In_bfs_first_transition codec i j Hi Hij Hj)) as H.
    change (clause_true a (?x :: ?y :: ?l))
      with (lit_true a x || (lit_true a y || clause_true a l)) in H.
    rewrite lit_true_neg, lit_true_pos, Ht in H by aux_pos Hnn.
    cbn [negb orb] in H. apply orb_true_iff in H as [H | H]; [exact H|].
    apply clause_map in H; [|intros c Hc; aux_pos Hnn].
    destruct H as (i3 & H3 & Ht3). rewrite Hno in Ht3 by exact H3.
    discriminate.
Qed.

Lemma label_iff codec a i j l :
  nonneg codec ->
  satisfies a (symmetry_breaking_common_list codec) = true ->
  0 <= i -> i < j -> j < n_colors codec -> 0 <= l < n_tokens codec ->
  a (p_id codec i j) = true ->
  (a (m_id codec l j) = true <->
   a (y_id codec l i j) = true /\
   forall l', 0 <= l' < l -> a (y_id codec l' i j) = false).
Proof.
  intros Hnn Hcm Hi Hij Hj Hl Hp. split.
  - intros Hm. split.
    + pose proof (satisfies_In a _ _ Hcm
                    (In_common_label_edge codec i j l Hi Hij Hj Hl)) as H.
      cbn [clause_true existsb] in H.
      rewrite !lit_true_neg, lit_true_pos, Hp, Hm in H by aux_pos Hnn.
      cbn in H. rewrite orb_false_r in H. exact H.
    + intros l' Hl'.
      pose proof (satisfies_In a _ _ Hcm
                    (In_common_label_smaller codec i j l l' Hi Hij Hj
                       ltac:(lia) ltac:(lia) ltac:(lia))) as H.
      cbn [clause_true existsb] in H.
      rewrite !lit_true_neg, Hp, Hm in H by aux_pos Hnn.
      cbn in H. rewrite orb_false_r in H. apply negb_true_iff. exact H.
  - intros [Hy Hno].
    pose proof (satisfies_In a _ _ Hcm
                  (In_common_label_least codec i j l Hi Hij Hj Hl)) as H.
    change (clause_true a (?x :: ?y :: ?z :: ?t))
      with (lit_true a x || (lit_true a y || (lit_true a z
                                              || clause_true a t))) in H.
    rewrite !lit_true_neg, lit_true_pos, Hp, Hy in H by aux_pos Hnn.
    cbn [negb orb] in H. apply orb_true_iff in H as [H | H]; [exact H|].
    apply clause_map in H; [|intros c Hc; aux_pos Hnn].
    destruct H as (l' & Hl' & Hy'). rewrite Hno in Hy' by exact Hl'.
    discriminate.
Qed.

Lemma scenario_bfs3 :
  exists cls,
    encode_dfa_id apta3 codec3_bfs (consistency_graph apta3) None = Ok cls /\
    satisfies model3_bfs cls = true.
Proof. eexists. split; vm_compute; reflexivity. Qed.

Lemma nonneg_codec3_bfs : nonneg codec3_bfs.
Proof. unfold nonneg. cbn. lia. Qed.

(** X7: under the BFS symmetry breaking the root of the tree has color 0 in
    every model. *)
Theorem bfs_root_color apta codec cgraph clique cls a :
  symm_mode codec = Some "bfs" ->
  encode_dfa_id apta codec cgraph clique = Ok cls ->
  satisfies a cls = true ->
  var_true a codec (ColorNode 0 0) = true.
Proof.
  intros Hm He Hs.
  destruct (bfs_model _ _ _ _ _ _ Hm He Hs) as (Hn0 & Hc0 & Hcm & _).
  rewrite (var_true_valid a codec (ColorNode 0 0)) by valid_tac.
  pose proof (satisfies_In a _ [x_id codec 0 0] Hcm (or_introl eq_refl)) as H.
  cbn [clause_true existsb] in H.
  rewrite lit_true_pos in H by (apply x_id_pos; lia).
  rewrite orb_false_r in H. exact H.
Qed.

Lemma bfs_root_color_witness :
  symm_mode codec3_bfs = Some "bfs" /\
  exists cls,
    encode_dfa_id apta3 codec3_bfs (consistency_graph apta3) None = Ok cls /\
    satisfies model3_bfs cls = true /\
    var_true model3_bfs codec3_bfs (ColorNode 0 0) = true.
Proof.
  split; [reflexivity|]. destruct scenario_bfs3 as (cls & He & Hs).
  exists cls. split; [exact He|]. split; [exact Hs|].
  exact (bfs_root_color apta3 codec3_bfs (consistency_graph apta3) None cls
           model3_bfs eq_refl He Hs).
Defined.

(** X8: under the BFS symmetry breaking, [TransitionRelation(i, j)] holds in a
    model exactly when some token leads from color [i] to color [j]. *)
Theorem bfs_transition_relation apta codec cgraph clique cls a i j :
  nonneg codec ->
  symm_mode codec = Some "bfs" ->
  encode_dfa_id apta codec cgraph clique = Ok cls ->
  satisfies a cls = true ->
  0 <= i -> i < j -> j < n_colors codec ->
  (var_true a codec (TransitionRelation i j) = true <->
   exists l, var_true a codec (ParentRelation l i j) = true).
Proof.
  intros Hnn Hm He Hs Hi Hij Hj.
  destruct (bfs_model _ _ _ _ _ _ Hm He Hs) as (_ & _ & Hcm & _).
  rewrite (var_true_valid a codec (TransitionRelation i j)) by valid_tac.
  cbn [id_of]. rewrite (transition_iff codec a i j Hnn Hcm Hi Hij Hj). split.
  - intros (l & Hl & Hy). exists l.
    rewrite (var_true_valid a codec (ParentRelation l i j)) by valid_tac.
    exact Hy.
  - intros (l & Hy). apply var_true_inv in Hy as [Hv Hy].
    cbn [valid] in Hv. rewrite !andb_true_iff, !in_range_iff in Hv.
    exists l. split; [tauto | exact Hy].
Qed.

Lemma bfs_transition_relation_witness :
  nonneg codec3_bfs /\ symm_mode codec3_bfs = Some "bfs" /\
  exists cls,
    encode_dfa_id apta3 codec3_bfs (consistency_graph apta3) None = Ok cls /\
    satisfies model3_bfs cls = true /\
    (var_true model3_bfs codec3_bfs (TransitionRelation 0 2) = true <->
     exists l, var_true model3_bfs codec3_bfs (ParentRelation l 0 2) = true).
Proof.
  split; [exact nonneg_codec3_bfs|]. split; [reflexivity|].
  destruct scenario_bfs3 as (cls & He & Hs).
  exists cls. split; [exact He|]. split; [exact Hs|].
  apply (bfs_transition_relation apta3 codec3_bfs (consistency_graph apta3)
           None cls model3_bfs 0 2 nonneg_codec3_bfs eq_refl He Hs);
    cbn; lia.
Defined.

(** X9: under the BFS symmetry breaking the parent of a color [j] is the least
    color with a transition into [j]. *)
Theorem bfs_parent_is_least apta codec cgraph clique cls a i j :
  nonneg codec ->
  symm_mode codec = Some "bfs" ->
  encode_dfa_id apta codec cgraph clique = Ok cls ->
  satisfies a cls = true ->
  0 <= i -> i < j -> j < n_colors codec ->
  (var_true a codec (EnumerationParent i j) = true <->
   var_true a codec (TransitionRelation i j) = true /\
   forall i3, 0 <= i3 < i ->
     var_true a codec (TransitionRelation i3 j) = false).
Proof.
  intros Hnn Hm He Hs Hi Hij Hj.
  destruct (bfs_model _ _ _ _ _ _ Hm He Hs) as (_ & _ & Hcm & Hbfs).
  rewrite (var_true_valid a codec (EnumerationParent i j)) by valid_tac.
  rewrite (var_true_valid a codec (TransitionRelation i j)) by valid_tac.
  cbn [id_of]. rewrite (parent_iff codec a i j Hnn Hcm Hbfs Hi Hij Hj).
  split; intros [Ht Hno]; (split; [exact Ht|]); intros i3 H3.
  - rewrite (var_true_valid a codec (TransitionRelation i3 j)) by valid_tac.
    apply Hno, H3.
  - pose proof (Hno i3 H3) as H.
    rewrite (var_true_valid a codec (TransitionRelation i3 j)) in H
      by valid_tac.
    exact H.
Qed.

Lemma bfs_parent_is_least_witness :
  nonneg codec3_bfs /\ symm_mode codec3_bfs = Some "bfs" /\
  exists cls,
    encode_dfa_id apta3 codec3_bfs (consistency_graph apta3) None = Ok cls /\
    satisfies model3_bfs cls = true /\
    (var_true model3_bfs codec3_bfs (EnumerationParent 1 2) = true <->
     var_true model3_bfs codec3_bfs (TransitionRelation 1 2) = true /\
     forall i3, 0 <= i3 < 1 ->
       var_true model3_bfs codec3_bfs (TransitionRelation i3 2) = false).
Proof.
  split; [exact nonneg_codec3_bfs|]. split; [reflexivity|].
  destruct scenario_bfs3 as (cls & He & Hs).
  exists cls. split; [exact He|]. split; [exact Hs|].
  apply (bfs_parent_is_least apta3 codec3_bfs (consistency_graph apta3)
           None cls model3_bfs 1 2 nonneg_codec3_bfs eq_refl He Hs);
    cbn; lia.
Defined.

(** X10: under the BFS symmetry breaking the label of a color is the least token
    that leads from its parent to it. *)
Theorem bfs_label_is_least apta codec cgraph clique cls a i j l :
  nonneg codec ->
  symm_mode codec = Some "bfs" ->
  encode_dfa_id apta codec cgraph clique = Ok cls ->
  satisfies a cls = true ->
  var_true a codec (EnumerationParent i j) = true ->
  0 <= l < n_tokens codec ->
  (var_true a codec (EnumerationLabel l j) = true <->
   var_true a codec (ParentRelation l i j) = true /\
   forall l', 0 <= l' < l ->
     var_true a codec (ParentRelation l' i j) = false).
Proof.
  intros Hnn Hm He Hs Hp Hl.
  destruct (bfs_model _ _ _ _ _ _ Hm He Hs) as (_ & _ & Hcm & _).
  apply var_true_inv in Hp as [Hv Hp]. cbn [id_of] in Hp.
  cbn [valid] in Hv. rewrite !andb_true_iff, !in_range_iff, Z.ltb_lt in Hv.
  rewrite (var_true_valid a codec (EnumerationLabel l j)) by valid_tac.
  rewrite (var_true_valid a codec (ParentRelation l i j)) by valid_tac.
  cbn [id_of].
  rewrite (label_iff codec a i j l Hnn Hcm) by (assumption || lia).
  split; intros [Hy Hno]; (split; [exact Hy|]); intros l' Hl'.
  - rewrite (var_true_valid a codec (ParentRelation l' i j)) by valid_tac.
    apply Hno, Hl'.
  - pose proof (Hno l' Hl') as H.
    rewrite (var_true_valid a codec (ParentRelation l' i j)) in H
      by valid_tac.
    exact H.
Qed.

Lemma bfs_label_is_least_witness :
  nonneg codec3_bfs /\ symm_mode codec3_bfs = Some "bfs" /\
  exists cls,
    encode_dfa_id apta3 codec3_bfs (consistency_graph apta3) None = Ok cls /\
    satisfies model3_bfs cls = true /\
    var_true model3_bfs codec3_bfs (EnumerationParent 0 2) = true /\
    (var_true model3_bfs codec3_bfs (EnumerationLabel 1 2) = true <->
     var_true model3_bfs codec3_bfs (ParentRelation 1 0 2) = true /\
     forall l', 0 <= l' < 1 ->
       var_true model3_bfs codec3_bfs (ParentRelation l' 0 2) = false).
Proof.
  split; [exact nonneg_codec3_bfs|]. split; [reflexivity|].
  destruct scenario_bfs3 as (cls & He & Hs).
  exists cls. split; [exact He|]. split; [exact Hs|].
  assert (Hp : var_true model3_bfs codec3_bfs (EnumerationParent 0 2) = true)
    by (vm_compute; reflexivity).
  split; [exact Hp|].
  apply (bfs_label_is_least apta3 codec3_bfs (consistency_graph apta3)
           None cls model3_bfs 0 2 1 nonneg_codec3_bfs eq_refl He Hs Hp).
  cbn. lia.
Defined.

(** X11: under the BFS symmetry breaking the parents of consecutive colors do not
    decrease. *)
Theorem bfs_parents_monotone apta codec cgraph clique cls a i i' j :
  nonneg codec ->
  symm_mode codec = Some "bfs" ->
  encode_dfa_id apta codec cgraph clique = Ok cls ->
  satisfies a cls = true ->
  var_true a codec (EnumerationParent i j) = true ->
  var_true a codec (EnumerationParent i' (j + 1)) = true ->
  i <= i'.
Proof.
  intros Hnn Hm He Hs Hp Hp'.
  destruct (bfs_model _ _ _ _ _ _ Hm He Hs) as (_ & _ & _ & Hbfs).
  apply var_true_inv in Hp as [Hv Hp], Hp' as [Hv' Hp'].
  cbn [id_of valid] in *.
  rewrite !andb_true_iff, !in_range_iff, Z.ltb_lt in Hv, Hv'.
  destruct (Z.le_gt_cases i i') as [H | H]; [exact H|]. exfalso.
  pose proof (satisfies_In a _ _ Hbfs
                (In_bfs_parents_monotone codec i' i j ltac:(lia) ltac:(lia)
                   ltac:(lia) ltac:(lia))) as C.
  cbn [clause_true existsb] in C.
  rewrite !lit_true_neg, Hp, Hp' in C by aux_pos Hnn. discriminate.
Qed.

Lemma bfs_parents_monotone_witness :
  nonneg codec3_bfs /\ symm_mode codec3_bfs = Some "bfs" /\
  exists cls,
    encode_dfa_id apta3 codec3_bfs (consistency_graph apta3) None = Ok cls /\
    satisfies model3_bfs cls = true /\
    var_true model3_bfs codec3_bfs (EnumerationParent 0 1) = true /\
    var_true model3_bfs codec3_bfs (EnumerationParent 0 (1 + 1)) = true /\
    0 <= 0.
Proof.
  split; [exact nonneg_codec3_bfs|]. split; [reflexivity|].
  destruct scenario_bfs3 as (cls & He & Hs).
  exists cls. split; [exact He|]. split; [exact Hs|].
  assert (H1 : var_true model3_bfs codec3_bfs (EnumerationParent 0 1) = true)
    by (vm_compute; reflexivity).
  assert (H2 : var_true model3_bfs codec3_bfs (EnumerationParent 0 (1 + 1))
               = true) by (vm_compute; reflexivity).
  split; [exact H1|]. split; [exact H2|].
  exact (bfs_parents_monotone apta3 codec3_bfs (consistency_graph apta3) None
           cls model3_bfs 0 0 1 nonneg_codec3_bfs eq_refl He Hs H1 H2).
Defined.

(** X12: under the BFS symmetry breaking two consecutive colors with the same
    parent are labelled in token order. *)
Theorem bfs_siblings_in_token_order apta codec cgraph clique cls a i j l1 l2 :
  nonneg codec ->
  symm_mode codec = Some "bfs" ->
  encode_dfa_id apta codec cgraph clique = Ok cls ->
  satisfies a cls = true ->
  var_true a codec (EnumerationParent i j) = true ->
  var_true a codec (EnumerationParent i (j + 1)) = true ->
  var_true a codec (EnumerationLabel l2 j) = true ->
  var_true a codec (EnumerationLabel l1 (j + 1)) = true ->
  l2 <= l1.
Proof.
  intros Hnn Hm He Hs Hp Hp' Hm2 Hm1.
  destruct (bfs_model _ _ _ _ _ _ Hm He Hs) as (_ & _ & _ & Hbfs).
  apply var_true_inv in Hp as [Hv Hp], Hp' as [Hv' Hp'],
    Hm2 as [Hw2 Hm2], Hm1 as [Hw1 Hm1].
  cbn [id_of valid] in *.
  rewrite !andb_true_iff, !in_range_iff, Z.ltb_lt in Hv.
  rewrite !andb_true_iff, !in_range_iff, Z.ltb_lt in Hv'.
  rewrite !andb_true_iff, !in_range_iff in Hw1.
  rewrite !andb_true_iff, !in_range_iff in Hw2.
  destruct (Z.le_gt_cases l2 l1) as [H | H]; [exact H|]. exfalso.
  pose proof (satisfies_In a _ _ Hbfs
                (In_bfs_siblings codec i j l1 l2 ltac:(lia) ltac:(lia)
                   ltac:(lia) ltac:(lia) ltac:(lia) ltac:(lia))) as C.
  cbn [clause_true existsb] in C.
  rewrite !lit_true_neg, Hp, Hp', Hm2, Hm1 in C by aux_pos Hnn.
  discriminate.
Qed.

Lemma bfs_siblings_in_token_order_witness :
  nonneg codec3_bfs /\ symm_mode codec3_bfs = Some "bfs" /\
  exists cls,
    encode_dfa_id apta3 codec3_bfs (consistency_graph apta3) None = Ok cls /\
    satisfies model3_bfs cls = true /\
    var_true model3_bfs codec3_bfs (EnumerationLabel 0 1) = true /\
    var_true model3_bfs codec3_bfs (EnumerationLabel 1 (1 + 1)) = true /\
    0 <= 1.
Proof.
  split; [exact nonneg_codec3_bfs|]. split; [reflexivity|].
  destruct scenario_bfs3 as (cls & He & Hs).
  exists cls. split; [exact He|]. split; [exact Hs|].
  assert (H1 : var_true model3_bfs codec3_bfs (EnumerationParent 0 1) = true)
    by (vm_compute; reflexivity).
  assert (H2 : var_true model3_bfs codec3_bfs (EnumerationParent 0 (1 + 1))
               = true) by (vm_compute; reflexivity).
  assert (H3 : var_true model3_bfs codec3_bfs (EnumerationLabel 0 1) = true)
    by (vm_compute; reflexivity).
  assert (H4 : var_true model3_bfs codec3_bfs (EnumerationLabel 1 (1 + 1))
               = true) by (vm_compute; reflexivity).
  split; [exact H3|]. split; [exact H4|].
  exact (bfs_siblings_in_token_order apta3 codec3_bfs (consistency_graph apta3)
           None cls model3_bfs 0 1 1 0 nonneg_codec3_bfs eq_refl He Hs
           H1 H2 H3 H4).
Defined.

(** *** Clique seeding and the number of colors *)

Lemma symmetry_extension_clique codec clique c6 :
  symm_mode codec = Some "clique" ->
  symmetry_extension codec clique = Ok c6 ->
  exists members,
    clique = Some members /\ clique_ok codec members /\
    c6 = symmetry_breaking_list codec members.
Proof.
  intros Hm H6. unfold symmetry_extension in H6. rewrite Hm in H6.
  change (mode_is (Some "clique") "clique") with true in H6. cbv iota in H6.
  destruct (symmetry_breaking_ok _ _ _ H6) as (members & -> & Hc).
  rewrite symmetry_breaking_run in H6 by exact Hc. inversion H6.
  exists members. auto.
Qed.

(** X13: in clique mode every model gives member number [i] of the clique the
    color [i]. *)
Theorem clique_members_colored apta codec cgraph members cls a i n :
  symm_mode codec = Some "clique" ->
  encode_dfa_id apta codec cgraph (Some members) = Ok cls ->
  satisfies a cls = true ->
  In (i, n) (enumerate members) ->
  var_true a codec (ColorNode n i) = true.
Proof.
  intros Hm He Hs Hin. apply encode_dfa_id_ok in He as (_ & c6 & H6 & ->).
  apply symmetry_extension_clique in H6 as (m' & E & Hok & ->); [|exact Hm].
  inversion E; subst m'.
  rewrite satisfies_app in Hs. apply andb_true_iff in Hs as [_ Hs].
  destruct (Hok i n Hin) as [Hi Hn].
  rewrite (var_true_valid a codec (ColorNode n i))
    by (cbn [valid]; rewrite andb_true_iff, !in_range_iff; auto).
  assert (Hcl : In [x_id codec n i] (symmetry_breaking_list codec members)).
  { unfold symmetry_breaking_list. apply in_map_iff. exists (i, n). auto. }
  pose proof (satisfies_In a _ _ Hs Hcl) as H.
  cbn [clause_true existsb] in H.
  rewrite lit_true_pos, orb_false_r in H by (apply x_id_pos; assumption).
  exact H.
Qed.

Lemma clique_members_colored_witness :
  symm_mode (codec3 (Some "clique")) = Some "clique" /\
  exists cls,
    encode_dfa_id apta3 (codec3 (Some "clique")) (consistency_graph apta3)
      (Some [1; 2]) = Ok cls /\
    satisfies model3 cls = true /\
    In (1, 2) (enumerate [1; 2]) /\
    var_true model3 (codec3 (Some "clique")) (ColorNode 2 1) = true.
Proof.
  split; [reflexivity|]. eexists.
  assert (He : encode_dfa_id apta3 (codec3 (Some "clique"))
                 (consistency_graph apta3) (Some [1; 2]) = Ok _)
    by (vm_compute; reflexivity).
  split; [exact He|].
  match goal with
  | |- satisfies model3 ?c = true /\ _ =>
      assert (Hs : satisfies model3 c = true) by (vm_compute; reflexivity)
  end.
  split; [exact Hs|].
  assert (Hi : In (1, 2) (enumerate [1; 2])) by (right; left; reflexivity).
  split; [exact Hi|].
  exact (clique_members_colored apta3 (codec3 (Some "clique"))
           (consistency_graph apta3) [1; 2] _ model3 1 2 eq_refl He Hs Hi).
Defined.

(** X14: with a clique-mode codec and no clique, [encode_dfa_id] never returns
    clauses; on a well-formed tree the exception is the [TypeError] of
    enumerating [None]. *)
Theorem clique_mode_needs_clique apta k :
  wf_apta apta ->
  encode_dfa_id apta (from_apta apta k (Some "clique"))
    (consistency_graph apta) None
  = Raise TypeError.
Proof.
  intros Hwf. unfold encode_dfa_id.
  pose proof (wf_base_ok apta k (Some "clique") Hwf) as (O2 & O3 & O5).
  rewrite onehot_color_clauses_eq, onehot_parent_relation_clauses_eq,
    partition_by_accepting_run, colors_parent_rel_coupling_run,
    determination_conflicts_run by assumption.
  reflexivity.
Qed.

Lemma clique_mode_needs_clique_witness :
  wf_apta apta3 /\
  encode_dfa_id apta3 (from_apta apta3 2 (Some "clique"))
    (consistency_graph apta3) None = Raise TypeError.
Proof.
  split; [exact wf_apta3|]. exact (clique_mode_needs_clique apta3 2 wf_apta3).
Defined.

(** X16: without colors a tree with a node has no model: the clause that gives
    the node a color is empty. *)
Theorem no_colors_no_model apta codec cgraph clique cls a :
  n_colors codec <= 0 -> 0 < n_nodes codec ->
  encode_dfa_id apta codec cgraph clique = Ok cls ->
  In [] cls /\ satisfies a cls = false.
Proof.
  intros Hc Hn He. apply encode_dfa_id_ok in He as (_ & c6 & _ & ->).
  assert (Hin : In [] (base_list codec apta cgraph ++ c6)).
  { apply in_or_app. left. unfold base_list. apply in_or_app. left.
    unfold onehot_color_list. apply in_or_app. left. apply in_map_iff.
    exists 0. split; [|apply In_range; lia].
    unfold range, range2. replace (Z.to_nat (n_colors codec - 0)) with 0%nat
      by lia. reflexivity. }
  split; [exact Hin|].
  destruct (satisfies a (base_list codec apta cgraph ++ c6)) eqn:E;
    [|reflexivity].
  pose proof (satisfies_In a _ _ E Hin) as H. discriminate.
Qed.

Lemma no_colors_no_model_witness :
  n_colors (from_apta apta3 0 None) <= 0 /\
  0 < n_nodes (from_apta apta3 0 None) /\
  exists cls,
    encode_dfa_id apta3 (from_apta apta3 0 None) (consistency_graph apta3) None
    = Ok cls /\
    In [] cls /\ satisfies model3 cls = false.
Proof.
  assert (Hc : n_colors (from_apta apta3 0 None) <= 0) by (cbn; lia).
  assert (Hn : 0 < n_nodes (from_apta apta3 0 None)) by (cbn; lia).
  split; [exact Hc|]. split; [exact Hn|]. eexists.
  assert (He : encode_dfa_id apta3 (from_apta apta3 0 None)
                 (consistency_graph apta3) None = Ok _)
    by (vm_compute; reflexivity).
  split; [exact He|].
  exact (no_colors_no_model apta3 (from_apta apta3 0 None)
           (consistency_graph apta3) None _ model3 Hc Hn He).
Defined.

Lemma Forall2_In_right {A B} (R : A -> B -> Prop) l cs c :
  Forall2 R l cs -> In c cs -> exists n, In n l /\ R n c.
Proof.
  induction 1 as [|n c' l cs Hn _ IH]; intros Hin; [destruct Hin|].
  destruct Hin as [<- | Hin].
  - exists n. split; [left; reflexivity | exact Hn].
  - destruct (IH Hin) as (n' & H1 & H2). exists n'. split; [right|]; assumption.
Qed.

Lemma clique_colors codec apta cgraph a members :
  base_ok codec apta cgraph ->
  satisfies a (base_list codec apta cgraph) = true ->
  is_clique cgraph members ->
  (forall n, In n members -> node_ok codec n) ->
  exists cs, Forall2 (fun n c => a (x_id codec n c) = true) members cs /\
             NoDup cs /\ forall c, In c cs -> 0 <= c < n_colors codec.
Proof.
  intros Hok Hsat (Hnd & Hadj) Hnodes.
  destruct (base_parts _ _ _ _ Hsat) as (S1 & _ & _ & _ & S5).
  destruct Hok as (_ & _ & O5).
  assert (Hviol : forall n1 n2 c, In (n1, n2) cgraph ->
            0 <= c < n_colors codec ->
            a (x_id codec n1 c) = true -> a (x_id codec n2 c) = true -> False).
  { intros n1 n2 c Hin Hc A1 A2.
    destruct (O5 ltac:(lia) n1 n2 Hin) as [N1 N2].
    pose proof (satisfies_In a _ _ S5
                  (In_conflicts codec cgraph n1 n2 c Hin Hc)) as Hcf.
    cbn [clause_true existsb] in Hcf.
    rewrite !lit_true_neg, A1, A2 in Hcf by (apply x_id_pos; assumption).
    discriminate. }
  induction members as [|n l IH].
  - exists []. split; [constructor|]. split; [constructor | intros c []].
  - destruct IH as (cs & HF & Hcs & Hr).
    + inversion Hnd; assumption.
    + intros u v Hu Hv. apply Hadj; right; assumption.
    + intros u Hu. apply Hnodes. right. exact Hu.
    + assert (Hn : node_ok codec n) by (apply Hnodes; left; reflexivity).
      destruct (one_hot a (x_id codec n) (n_colors codec)
                  (onehot_color_list codec)) as (c & Hc & Htc & _).
      { intros c0 Hc0. apply x_id_pos; assumption. }
      { unfold onehot_color_list. apply in_or_app. left. apply in_map_iff.
        exists n. split; [reflexivity | apply In_range, Hn]. }
      { intros cl Hcl'. unfold onehot_color_list. apply in_or_app. right.
        apply in_flat_map. exists n.
        split; [apply In_range, Hn | exact Hcl']. }
      { exact S1. }
      exists (c :: cs). split; [constructor; assumption|]. split.
      * constructor; [|exact Hcs]. intros Hin.
        destruct (Forall2_In_right _ _ _ _ HF Hin) as (n' & Hn' & Hc').
        assert (Hne : n <> n').
        { intros ->. inversion Hnd. contradiction. }
        destruct (Hadj n n') as [He | He];
          [left; reflexivity | right; exact Hn' | exact Hne | |].
        -- exact (Hviol _ _ _ He Hc Htc Hc').
        -- exact (Hviol _ _ _ He Hc Hc' Htc).
      * intros c0 [<- | Hc0]; [exact Hc | apply Hr, Hc0].
Qed.

(** X15: a clique of the consistency graph needs as many colors as it has
    members: with fewer colors the clauses have no model, so the trials that
    clique mode skips are unsatisfiable. *)
Theorem clique_needs_colors apta codec cgraph clique cls a members :
  encode_dfa_id apta codec cgraph clique = Ok cls ->
  is_clique cgraph members ->
  (forall n, In n members -> 0 <= n < n_nodes codec) ->
  0 <= n_colors codec < len members ->
  satisfies a cls = false.
Proof.
  intros He Hcq Hnodes Hlt.
  destruct (satisfies a cls) eqn:Hs; [exfalso | reflexivity].
  destruct (encode_model_base _ _ _ _ _ _ He Hs) as [Hok Hb].
  destruct (clique_colors codec apta cgraph a members Hok Hb Hcq Hnodes)
    as (cs & HF & Hnd & Hr).
  assert (Hi : incl cs (range (n_colors codec))).
  { intros c Hc. apply In_range, Hr, Hc. }
  pose proof (NoDup_incl_length Hnd Hi) as Hl.
  apply Forall2_length in HF.
  unfold range, range2 in Hl. rewrite length_map, length_seq in Hl.
  unfold len in Hlt. lia.
Qed.

Lemma clique_needs_colors_witness :
  is_clique (consistency_graph apta3) [1; 2] /\
  exists cls,
    encode_dfa_id apta3 (from_apta apta3 1 None) (consistency_graph apta3) None
    = Ok cls /\
    satisfies model3 cls = false.
Proof.
  assert (Hq : is_clique (consistency_graph apta3) [1; 2]).
  { split.
    - repeat constructor; cbn; intuition lia.
    - intros u v Hu Hv Hne. cbn in Hu, Hv.
      destruct Hu as [<- | [<- | []]], Hv as [<- | [<- | []]];
        try contradiction; cbn; auto. }
  split; [exact Hq|]. eexists.
  assert (He : encode_dfa_id apta3 (from_apta apta3 1 None)
                 (consistency_graph apta3) None = Ok _)
    by (vm_compute; reflexivity).
  split; [exact He|].
  apply (clique_needs_colors apta3 (from_apta apta3 1 None)
           (consistency_graph apta3) None _ model3 [1; 2] He Hq).
  - intros n Hn. cbn in Hn. cbn. lia.
  - cbn. lia.
Defined.

(** *** Symmetry breaking only adds clauses *)

(** X17: the clauses of any mode are the clauses of the plain mode followed by
    the symmetry-breaking ones, so a model of a symmetry-broken trial is a
    model of the plain trial with the same counts. *)
Theorem symmetry_breaking_only_adds apta codec cgraph clique cls a :
  encode_dfa_id apta codec cgraph clique = Ok cls ->
  satisfies a cls = true ->
  exists plain extra,
    encode_dfa_id apta
      (mkCodec (n_nodes codec) (n_colors codec) (n_tokens codec) None)
      cgraph None = Ok plain /\
    cls = plain ++ extra /\ satisfies a plain = true.
Proof.
  intros He Hs. apply encode_dfa_id_ok in He as (Hok & c6 & _ & ->).
  exists (base_list codec apta cgraph), c6.
  rewrite satisfies_app in Hs. apply andb_true_iff in Hs as [Hb _].
  split; [|split; [reflexivity | exact Hb]].
  set (plain := mkCodec (n_nodes codec) (n_colors codec) (n_tokens codec) None).
  rewrite <- (app_nil_r (base_list codec apta cgraph)).
  change (base_list codec apta cgraph) with (base_list plain apta cgraph).
  apply encode_dfa_id_run; [exact Hok | reflexivity].
Qed.

Lemma symmetry_breaking_only_adds_witness :
  exists cls,
    encode_dfa_id apta3 codec3_bfs (consistency_graph apta3) None = Ok cls /\
    satisfies model3_bfs cls = true /\
    exists plain extra,
      encode_dfa_id apta3 (mkCodec 3 3 2 None) (consistency_graph apta3) None
      = Ok plain /\
      cls = plain ++ extra /\ satisfies model3_bfs plain = true.
Proof.
  destruct scenario_bfs3 as (cls & He & Hs).
  exists cls. split; [exact He|]. split; [exact Hs|].
  exact (symmetry_breaking_only_adds apta3 codec3_bfs (consistency_graph apta3)
           None cls model3_bfs He Hs).
Defined.

(** *** A label outside the tree *)

Lemma mapM_ok_or_raise {A B} (f : A -> result B) l e :
  (forall y, In y l -> (exists v, f y = Ok v) \/ f y = Raise e) ->
  (exists r, mapM f l = Ok r) \/
  (mapM f l = Raise e /\ exists x, In x l /\ f x = Raise e).
Proof.
  induction l as [|x l IH]; intros H; [left; eexists; reflexivity|].
  cbn [mapM]. destruct (H x (or_introl eq_refl)) as [[v Hv] | Hx].
  - rewrite Hv. cbn [bind].
    destruct IH as [[r Hr] | [Hr (x' & Hin & Hx')]];
      [intros; apply H; right; assumption | |].
    + rewrite Hr. left. eexists. reflexivity.
    + rewrite Hr. right. split; [reflexivity|].
      exists x'. split; [right|]; assumption.
  - rewrite Hx. right. split; [reflexivity|].
    exists x. split; [left; reflexivity | exact Hx].
Qed.

Lemma mapM_raise {A B} (f : A -> result B) l e x :
  (forall y, In y l -> (exists v, f y = Ok v) \/ f y = Raise e) ->
  In x l -> f x = Raise e -> mapM f l = Raise e.
Proof.
  intros H Hin Hx. destruct (mapM_ok_or_raise f l e H) as [[r Hr] | [Hr _]].
  - destruct (mapM_success f l r Hr x Hin) as [y Hy]. congruence.
  - exact Hr.
Qed.

Lemma color_node_ok_or_node_msg codec n c :
  0 <= c < n_colors codec ->
  (exists v, color_node codec n c = Ok v) \/
  color_node codec n c = Raise (AssertionError node_msg).
Proof.
  intros Hc. rewrite color_node_eq.
  destruct (in_range n (n_nodes codec)); [|right; reflexivity].
  apply in_range_iff in Hc. rewrite Hc. left. eexists. reflexivity.
Qed.

Lemma color_node_bad_node codec n c :
  ~ 0 <= n < n_nodes codec ->
  color_node codec n c = Raise (AssertionError node_msg).
Proof.
  intros Hn. rewrite color_node_eq.
  destruct (in_range n (n_nodes codec)) eqn:E; [|reflexivity].
  apply in_range_iff in E. contradiction.
Qed.

(** X18: a node labelled accepting or rejecting that is not a node of the codec
    makes [encode_dfa_id] raise the node assertion, whatever the mode, as
    soon as there is a color. *)
Theorem bad_label_raises apta codec cgraph clique n :
  0 < n_colors codec ->
  In n (accepting apta) \/ In n (rejecting apta) ->
  ~ 0 <= n < n_nodes codec ->
  encode_dfa_id apta codec cgraph clique = Raise (AssertionError node_msg).
Proof.
  intros Hc Hin Hbad. unfold encode_dfa_id.
  rewrite onehot_color_clauses_eq. cbn [bind].
  assert (Hp : partition_by_accepting_clauses codec apta
               = Raise (AssertionError node_msg)).
  { unfold partition_by_accepting_clauses, range, range2.
    destruct (Z.to_nat (n_colors codec - 0)) as [|m] eqn:E; [lia|].
    cbn [seq map flat_mapM]. change (0 + Z.of_nat 0) with 0.
    rewrite color_accepting_valid by lia. cbn [bind].
    set (fa := fun n0 => x <- color_node codec n0 0 ;;
                         Ok [- x; z_id codec 0]).
    set (fr := fun n0 => x <- color_node codec n0 0 ;;
                         Ok [- x; - z_id codec 0]).
    assert (Ha : forall y, In y (accepting apta) ->
              (exists v, fa y = Ok v) \/
              fa y = Raise (AssertionError node_msg)).
    { intros y _. unfold fa.
      destruct (color_node_ok_or_node_msg codec y 0 ltac:(lia))
        as [[v ->] | ->]; [left; eexists; reflexivity | right; reflexivity]. }
    assert (Hr : forall y, In y (rejecting apta) ->
              (exists v, fr y = Ok v) \/
              fr y = Raise (AssertionError node_msg)).
    { intros y _. unfold fr.
      destruct (color_node_ok_or_node_msg codec y 0 ltac:(lia))
        as [[v ->] | ->]; [left; eexists; reflexivity | right; reflexivity]. }
    destruct (mapM_ok_or_raise fa (accepting apta) _ Ha)
      as [[acc Hacc] | [Hacc _]]; rewrite Hacc; [|reflexivity].
    cbn [bind]. destruct Hin as [Hin | Hin].
    - destruct (mapM_success fa _ _ Hacc n Hin) as [y Hy].
      unfold fa in Hy. rewrite (color_node_bad_node codec n 0 Hbad) in Hy.
      discriminate.
    - rewrite (mapM_raise fr (rejecting apta) _ n Hr Hin); [reflexivity|].
      unfold fr. rewrite (color_node_bad_node codec n 0 Hbad). reflexivity. }
  rewrite Hp. reflexivity.
Qed.

Lemma bad_label_raises_witness :
  0 < n_colors (mkCodec 1 2 2 None) /\
  In 2 (rejecting apta3) /\ ~ 0 <= 2 < n_nodes (mkCodec 1 2 2 None) /\
  encode_dfa_id apta3 (mkCodec 1 2 2 None) (consistency_graph apta3) None
  = Raise (AssertionError node_msg).
Proof.
  assert (Hc : 0 < n_colors (mkCodec 1 2 2 None)) by (cbn; lia).
  assert (Hi : In 2 (rejecting apta3)) by (left; reflexivity).
  assert (Hb : ~ 0 <= 2 < n_nodes (mkCodec 1 2 2 None)) by (cbn; lia).
  split; [exact Hc|]. split; [exact Hi|]. split; [exact Hb|].
  exact (bad_label_raises apta3 (mkCodec 1 2 2 None) (consistency_graph apta3)
           None 2 Hc (or_intror Hi) Hb).
Defined.

(** X19: outside clique mode the first trial of a tree with a node has one color,
    so a labelled node that is not a node of the tree makes the driver raise
    the node assertion on the first pull, before it yields anything. *)
Theorem driver_raises_on_bad_label (max_clique : list (Z * Z) -> list Z)
  apta mode n :
  mode_is mode "clique" = false ->
  nodes apta <> [] ->
  In n (accepting apta) \/ In n (rejecting apta) ->
  ~ 0 <= n < len (nodes apta) ->
  dfa_id_encodings max_clique apta mode = Throw (AssertionError node_msg).
Proof.
  intros Hm Hne Hin Hbad. unfold dfa_id_encodings. rewrite Hm.
  unfold range2.
  destruct (Z.to_nat (len (nodes apta) + 1 - 1)) as [|m] eqn:E.
  - destruct (nodes apta); [contradiction|].
    unfold len in E. cbn [List.length] in E. lia.
  - cbn [seq map trials]. change (1 + Z.of_nat 0) with 1.
    rewrite (bad_label_raises apta (from_apta apta 1 mode) _ None n);
      [reflexivity | cbn; lia | exact Hin | exact Hbad].
Qed.

Lemma driver_raises_on_bad_label_witness :
  mode_is None "clique" = false /\
  dfa_id_encodings (fun _ => [])
    (mkAPTA [0] (fun _ => None) [] (fun _ => []) [5] [] []) None
  = Throw (AssertionError node_msg).
Proof.
  split; [reflexivity|].
  apply (driver_raises_on_bad_label (fun _ => [])
           (mkAPTA [0] (fun _ => None) [] (fun _ => []) [5] [] []) None 5).
  - reflexivity.
  - discriminate.
  - left. left. reflexivity.
  - cbn. lia.
Defined.



(** *** The size of a trial *)

Lemma len_app {A} (l1 l2 : list A) : len (l1 ++ l2) = len l1 + len l2.
Proof. unfold len. rewrite length_app. lia. Qed.

Lemma len_map {A B} (f : A -> B) l : len (map f l) = len l.
Proof. unfold len. rewrite length_map. reflexivity. Qed.

Lemma len_range2 lo hi : lo <= hi -> len (range2 lo hi) = hi - lo.
Proof.
  intros H. unfold len, range2. rewrite length_map, length_seq. lia.
Qed.

Lemma len_range n : 0 <= n -> len (range n) = n.
Proof. intros H. unfold range. rewrite len_range2; lia. Qed.

Lemma len_flat_map_const {A B} (g : A -> list B) l k :
  (forall x, In x l -> len (g x) = k) -> len (flat_map g l) = len l * k.
Proof.
  induction l as [|x l IH]; intros H; [reflexivity|].
  cbn [flat_map]. rewrite len_app, (H x (or_introl eq_refl)).
  rewrite IH by (intros; apply H; right; assumption).
  unfold len. cbn [List.length]. lia.
Qed.

Lemma len_pairs_from (g : Z -> Z -> Clause) N k s :
  (s + k)%nat = N ->
  len (flat_map (fun i => map (g i) (range2 (i + 1) (Z.of_nat N)))
         (map (fun i => 0 + Z.of_nat i) (seq s k)))
  = tri (Z.of_nat k).
Proof.
  revert s. induction k as [|k IH]; intros s Hs; [reflexivity|].
  cbn [seq map flat_map]. rewrite len_app, len_map, len_range2 by lia.
  rewrite (IH (S s)) by lia.
  replace (Z.of_nat (S k)) with (Z.of_nat k + 1) by lia.
  rewrite tri_succ. lia.
Qed.

Lemma len_at_most_one f n : 0 <= n -> len (at_most_one f n) = tri n.
Proof.
  intros Hn. rewrite <- (Z2Nat.id n Hn). generalize (Z.to_nat n) as N.
  intros N.
  assert (E : range (Z.of_nat N) = map (fun i => 0 + Z.of_nat i) (seq 0 N)).
  { unfold range, range2. repeat f_equal. lia. }
  unfold at_most_one. rewrite E.
  apply (len_pairs_from (fun i j => [- f i; - f j]) N N 0 eq_refl).
Qed.

Lemma len_tokensXcolors codec :
  nonneg codec ->
  len (tokensXcolors codec) = n_tokens codec * n_colors codec.
Proof.
  intros (_ & Hc & Ht). unfold tokensXcolors, len.
  rewrite length_prod. fold (len (range (n_tokens codec))).
  fold (len (range (n_colors codec))).
  rewrite Nat2Z.inj_mul. fold (len (range (n_tokens codec))).
  fold (len (range (n_colors codec))). rewrite !len_range by assumption.
  reflexivity.
Qed.

(** X20: without symmetry breaking a trial has one at-least-one clause and one
    clause per pair of colors for every node and for every (token, color),
    one clause per color for every labelled node and every conflict, and
    two clauses per pair of colors for every non-root node. *)
Theorem plain_clause_count apta codec cgraph clique cls :
  nonneg codec ->
  mode_is (symm_mode codec) "clique" = false ->
  mode_is (symm_mode codec) "bfs" = false ->
  encode_dfa_id apta codec cgraph clique = Ok cls ->
  len cls
  = n_nodes codec * (1 + tri (n_colors codec))
    + n_colors codec * (len (accepting apta) + len (rejecting apta))
    + 2 * len (non_root_nodes apta) * n_colors codec * n_colors codec
    + n_tokens codec * n_colors codec * (1 + tri (n_colors codec))
    + len cgraph * n_colors codec.
Proof.
  intros Hnn Hq Hb He. pose proof Hnn as (Hn & Hc & Ht).
  apply encode_dfa_id_ok in He as (_ & c6 & H6 & ->).
  unfold symmetry_extension in H6. rewrite Hq, Hb in H6.
  inversion H6; subst c6. rewrite app_nil_r. unfold base_list.
  rewrite !len_app.
  assert (E1 : len (onehot_color_list codec)
               = n_nodes codec * (1 + tri (n_colors codec))).
  { unfold onehot_color_list. rewrite len_app, len_map, len_range by lia.
    rewrite (len_flat_map_const _ _ (tri (n_colors codec)))
      by (intros; apply len_at_most_one; lia).
    rewrite len_range by lia. lia. }
  assert (E2 : len (partition_by_accepting_list codec apta)
               = n_colors codec
                 * (len (accepting apta) + len (rejecting apta))).
  { unfold partition_by_accepting_list.
    rewrite (len_flat_map_const _ _
               (len (accepting apta) + len (rejecting apta)))
      by (intros; rewrite len_app, !len_map; reflexivity).
    rewrite len_range by lia. reflexivity. }
  assert (E3 : len (colors_parent_rel_coupling_list codec apta)
               = 2 * len (non_root_nodes apta) * n_colors codec
                 * n_colors codec).
  { unfold colors_parent_rel_coupling_list. cbv zeta.
    rewrite (len_flat_map_const _ _ (n_colors codec * (n_colors codec * 2))).
    - lia.
    - intros node _.
      rewrite (len_flat_map_const _ _ (n_colors codec * 2)).
      + rewrite len_range by lia. reflexivity.
      + intros i _. rewrite (len_flat_map_const _ _ 2) by reflexivity.
        rewrite len_range by lia. reflexivity. }
  assert (E4 : len (onehot_parent_relation_list codec)
               = n_tokens codec * n_colors codec
                 * (1 + tri (n_colors codec))).
  { unfold onehot_parent_relation_list.
    rewrite len_app, len_map, len_tokensXcolors by exact Hnn.
    rewrite (len_flat_map_const _ _ (tri (n_colors codec))).
    - rewrite len_tokensXcolors by exact Hnn. lia.
    - intros [t i] _. apply len_at_most_one. lia. }
  assert (E5 : len (determination_conflicts_list codec cgraph)
               = len cgraph * n_colors codec).
  { unfold determination_conflicts_list.
    apply len_flat_map_const. intros [n1 n2] _.
    rewrite len_map, len_range by lia. reflexivity. }
  rewrite E1, E2, E3, E4, E5. lia.
Qed.

Lemma plain_clause_count_witness :
  nonneg (codec3 None) /\
  exists cls,
    encode_dfa_id apta3 (codec3 None) (consistency_graph apta3) None = Ok cls /\
    len cls = 36.
Proof.
  assert (Hn : nonneg (codec3 None)) by (unfold nonneg; cbn; lia).
  split; [exact Hn|]. eexists.
  assert (He : encode_dfa_id apta3 (codec3 None) (consistency_graph apta3) None
               = Ok _) by (vm_compute; reflexivity).
  split; [exact He|].
  rewrite (plain_clause_count apta3 (codec3 None) (consistency_graph apta3)
             None _ Hn eq_refl eq_refl He).
  reflexivity.
Defined.
